(** * Intelligent-copywriting: the text pipeline and the writer workbench

    A shallow embedding of [src/lib/text.ts], [src/lib/storage.ts],
    [extractImageUrls] of the completion client and [runOne] of
    [src/app/writer/WriterWorkbench.tsx], with the properties of the
    specification stated over it; then the address and the image fallback
    of the completion client, the backup of the store and the other
    handlers of the workbench, with the properties that the code shows. *)

From Stdlib Require Import NArith ZArith List Bool Ascii String Lia Permutation Sorted.
From Stdlib Require QArith.
From stdpp Require Import base option list gmap.
Import ListNotations.

Set Default Proof Using "Type".

(** ** JavaScript strings

    A JavaScript string is a sequence of UTF-16 code units.  Source literals
    are written as Rocq strings (UTF-8 bytes) and decoded by [js]. *)

Definition jsstring := list N.

Fixpoint bytes_of_string (s : string) : list N :=
  match s with
  | EmptyString => []
  | String a s' => N_of_ascii a :: bytes_of_string s'
  end.

Fixpoint utf16_of_utf8 (bs : list N) : jsstring :=
  match bs with
  | [] => []
  | b0 :: t0 =>
    if (b0 <? 128)%N then b0 :: utf16_of_utf8 t0
    else
      match t0 with
      | [] => [65533%N]
      | b1 :: t1 =>
        if (b0 <? 224)%N then
          N.lor (N.shiftl (N.land b0 31) 6) (N.land b1 63) :: utf16_of_utf8 t1
        else
          match t1 with
          | [] => [65533%N]
          | b2 :: t2 =>
            if (b0 <? 240)%N then
              N.lor (N.shiftl (N.land b0 15) 12)
                (N.lor (N.shiftl (N.land b1 63) 6) (N.land b2 63))
                :: utf16_of_utf8 t2
            else
              match t2 with
              | [] => [65533%N]
              | b3 :: t3 =>
                let cp :=
                  N.lor (N.shiftl (N.land b0 7) 18)
                    (N.lor (N.shiftl (N.land b1 63) 12)
                       (N.lor (N.shiftl (N.land b2 63) 6) (N.land b3 63))) in
                let v := (cp - 65536)%N in
                (55296 + N.shiftr v 10)%N :: (56320 + N.land v 1023)%N
                  :: utf16_of_utf8 t3
              end
          end
      end
  end.

Definition js (s : string) : jsstring := utf16_of_utf8 (bytes_of_string s).

(** The code unit of an ASCII character. *)
Definition ch (a : ascii) : N := N_of_ascii a.

Definition LF : N := 10%N.
Definition CR : N := 13%N.

Definition jsstring_eqb (a b : jsstring) : bool := bool_decide (a = b).

(** [WhiteSpace] and [LineTerminator] of ECMAScript: what [\s] matches and
    what [String.prototype.trim] removes. *)
Definition is_line_terminator (c : N) : bool :=
  ((c =? 10) || (c =? 13) || (c =? 8232) || (c =? 8233))%N.

Definition is_white_space (c : N) : bool :=
  ((c =? 9) || (c =? 10) || (c =? 11) || (c =? 12) || (c =? 13) || (c =? 32)
   || (c =? 160) || (c =? 5760) || ((8192 <=? c) && (c <=? 8202))
   || (c =? 8232) || (c =? 8233) || (c =? 8239) || (c =? 8287)
   || (c =? 12288) || (c =? 65279))%N.

Definition is_digit (c : N) : bool := ((48 <=? c) && (c <=? 57))%N.

Definition is_ascii_lower (c : N) : bool := ((97 <=? c) && (c <=? 122))%N.
Definition is_ascii_upper (c : N) : bool := ((65 <=? c) && (c <=? 90))%N.

Definition is_word_char (c : N) : bool :=
  is_ascii_lower c || is_ascii_upper c || is_digit c || (c =? 95)%N.

Fixpoint trimStart (s : jsstring) : jsstring :=
  match s with
  | [] => []
  | c :: t => if is_white_space c then trimStart t else s
  end.

Definition trimEnd (s : jsstring) : jsstring := rev (trimStart (rev s)).

(** [String.prototype.trim] *)
Definition trim (s : jsstring) : jsstring := trimEnd (trimStart s).

(** A string that neither starts nor ends with white space. *)
Definition no_outer_space (s : jsstring) : Prop :=
  (forall c, hd_error s = Some c -> is_white_space c = false) /\
  (forall c, hd_error (rev s) = Some c -> is_white_space c = false).

(** [s.split("\n")]: the result always has at least one element. *)
Fixpoint split_lines (s : jsstring) : list jsstring :=
  match s with
  | [] => [[]]
  | c :: t =>
    if (c =? LF)%N then [] :: split_lines t
    else match split_lines t with
         | l :: ls => (c :: l) :: ls
         | [] => [[c]]
         end
  end.

(** [lines.join("\n")] *)
Fixpoint join_lines (ls : list jsstring) : jsstring :=
  match ls with
  | [] => []
  | [l] => l
  | l :: ls' => l ++ LF :: join_lines ls'
  end.

(** [String(n)] for a natural number. *)
Fixpoint decimal_digits (fuel n : nat) (acc : jsstring) : jsstring :=
  match fuel with
  | O => acc
  | S fuel' =>
    let d := (48 + N.of_nat (n mod 10))%N in
    if (n <? 10)%nat then d :: acc
    else decimal_digits fuel' (n / 10) (d :: acc)
  end.

Definition string_of_nat (n : nat) : jsstring := decimal_digits (S n) n [].

(** [parseInt(s, 10)] on a string of decimal digits. *)
Definition parseInt_digits (s : jsstring) : N :=
  fold_left (fun acc c => (acc * 10 + (c - 48))%N) s 0%N.

(** The result of evaluating an expression: a value, or a thrown exception. *)
Inductive completion (A : Type) :=
| Normal (a : A)
| Throw (message : jsstring).
Arguments Normal {A} a.
Arguments Throw {A} message.

(** [try { body } catch { handler }] *)
Definition try_catch {A : Type} (body : completion A) (handler : completion A) :
    completion A :=
  match body with
  | Normal a => Normal a
  | Throw _ => handler
  end.

(** ** Regular expressions

    The regular expressions of the sources are kept as syntax and run by a
    backtracking matcher that follows the ECMAScript pattern semantics
    (continuation passing, leftmost alternative first, greedy and lazy
    quantifiers with the empty-iteration check). *)

Module Regex.

Record flags := { ignoreCase : bool; multiline : bool }.

Definition no_flags : flags := {| ignoreCase := false; multiline := false |}.
Definition flag_i : flags := {| ignoreCase := true; multiline := false |}.
Definition flag_m : flags := {| ignoreCase := false; multiline := true |}.
Definition flag_im : flags := {| ignoreCase := true; multiline := true |}.

(** The members of a character class. *)
Inductive citem :=
| CChr (c : N)            (* a single code unit *)
| CRange (lo hi : N)      (* lo-hi *)
| CSpace                  (* \s *)
| CNotSpace               (* \S *)
| CDigit                  (* \d *)
| CWord.                  (* \w *)

Inductive regex :=
| Empty
| Chr (c : N)
| AnyChar                                   (* .  *)
| Class (negated : bool) (items : list citem)
| Seq (r1 r2 : regex)
| Alt (r1 r2 : regex)
| Rep (r : regex) (min : nat) (max : option nat) (greedy : bool)
| Group (i : nat) (r : regex)               (* capturing group number i *)
| Bol                                       (* ^ *)
| Eol                                       (* $ *)
| Look (r : regex).                         (* (?=r) *)

(** Canonicalize of a pattern without the [u] flag is [toUpperCase], except
    that a code unit of 128 or more is never mapped below 128.  Every cased
    character written in the patterns of this repository is an ASCII letter,
    so folding the ASCII letters decides the same matches. *)
Definition canonicalize (fl : flags) (c : N) : N :=
  if ignoreCase fl && is_ascii_lower c then (c - 32)%N else c.

Definition in_range (lo hi c : N) : bool := ((lo <=? c) && (c <=? hi))%N.

Definition swap_case (c : N) : N :=
  if is_ascii_lower c then (c - 32)%N
  else if is_ascii_upper c then (c + 32)%N else c.

Definition citem_matches (fl : flags) (it : citem) (c : N) : bool :=
  match it with
  | CChr a => (canonicalize fl a =? canonicalize fl c)%N
  | CRange lo hi =>
    in_range lo hi c || (ignoreCase fl && in_range lo hi (swap_case c))
  | CSpace => is_white_space c
  | CNotSpace => negb (is_white_space c)
  | CDigit => is_digit c
  | CWord => is_word_char c
  end.

Definition class_matches (fl : flags) (negated : bool) (items : list citem)
    (c : N) : bool :=
  xorb negated (existsb (fun it => citem_matches fl it c) items).

(** The matcher state: the code unit before the current position (none at
    index 0), the input from the current position on, and the captures. *)
Record mstate := { prev : option N; rest : jsstring; caps : list (nat * jsstring) }.

Definition advance (c : N) (t : jsstring) (st : mstate) : mstate :=
  {| prev := Some c; rest := t; caps := caps st |}.

Definition set_cap (i : nat) (s : jsstring) (cs : list (nat * jsstring)) :
    list (nat * jsstring) :=
  (i, s) :: List.filter (fun p => negb (fst p =? i)%nat) cs.

Fixpoint get_cap (i : nat) (cs : list (nat * jsstring)) : option jsstring :=
  match cs with
  | [] => None
  | (j, s) :: cs' => if (j =? i)%nat then Some s else get_cap i cs'
  end.

Fixpoint groups_of (r : regex) : list nat :=
  match r with
  | Seq a b | Alt a b => groups_of a ++ groups_of b
  | Rep a _ _ _ | Look a => groups_of a
  | Group i a => i :: groups_of a
  | _ => []
  end.

Definition clear_caps (gs : list nat) (st : mstate) : mstate :=
  match gs with
  | [] => st
  | _ => {| prev := prev st; rest := rest st;
            caps := List.filter (fun p => negb (existsb (Nat.eqb (fst p)) gs)) (caps st) |}
  end.

(** The text between two states of one run. *)
Definition consumed (st st1 : mstate) : jsstring :=
  firstn (length (rest st) - length (rest st1)) (rest st).

Definition at_bol (fl : flags) (st : mstate) : bool :=
  match prev st with
  | None => true
  | Some c => multiline fl && is_line_terminator c
  end.

Definition at_eol (fl : flags) (st : mstate) : bool :=
  match rest st with
  | [] => true
  | c :: _ => multiline fl && is_line_terminator c
  end.

Definition pred_max (mx : option nat) : option nat :=
  match mx with Some n => Some (pred n) | None => None end.

(** RepeatMatcher: [ma] matches one iteration, [k] is the continuation of the
    whole quantifier.  An iteration beyond the [mn] mandatory ones that
    consumes nothing is rejected, so [mn] plus the length of the remaining
    input bounds the number of iterations, and [fuel] starts above it. *)
Fixpoint repeat_matcher (ma : (mstate -> option mstate) -> mstate -> option mstate)
    (gs : list nat) (greedy : bool) (k : mstate -> option mstate)
    (fuel mn : nat) (mx : option nat) (st : mstate) {struct fuel} : option mstate :=
  match fuel with
  | O => None
  | S fuel' =>
    match mx with
    | Some O => k st
    | _ =>
      let d := fun st1 : mstate =>
        if (mn =? 0)%nat && (length (rest st1) =? length (rest st))%nat
        then None
        else repeat_matcher ma gs greedy k fuel' (pred mn) (pred_max mx) st1 in
      if (0 <? mn)%nat then ma d (clear_caps gs st)
      else if greedy then
        match ma d (clear_caps gs st) with
        | Some e => Some e
        | None => k st
        end
      else
        match k st with
        | Some e => Some e
        | None => ma d (clear_caps gs st)
        end
    end
  end.

(** [rmatch fl r k st]: match [r] at [st], then continue with [k]; the
    result is the state at the end of the whole match. *)
Fixpoint rmatch (fl : flags) (r : regex) (k : mstate -> option mstate)
    (st : mstate) {struct r} : option mstate :=
  match r with
  | Empty => k st
  | Chr a =>
    match rest st with
    | c :: t =>
      if (canonicalize fl a =? canonicalize fl c)%N then k (advance c t st) else None
    | [] => None
    end
  | AnyChar =>
    match rest st with
    | c :: t => if is_line_terminator c then None else k (advance c t st)
    | [] => None
    end
  | Class neg items =>
    match rest st with
    | c :: t => if class_matches fl neg items c then k (advance c t st) else None
    | [] => None
    end
  | Seq a b => rmatch fl a (rmatch fl b k) st
  | Alt a b =>
    match rmatch fl a k st with
    | Some e => Some e
    | None => rmatch fl b k st
    end
  | Rep a mn mx greedy =>
    repeat_matcher (rmatch fl a) (groups_of a) greedy k
      (S (mn + length (rest st))) mn mx st
  | Group i a =>
    rmatch fl a
      (fun st1 => k {| prev := prev st1; rest := rest st1;
                       caps := set_cap i (consumed st st1) (caps st1) |}) st
  | Bol => if at_bol fl st then k st else None
  | Eol => if at_eol fl st then k st else None
  | Look a =>
    match rmatch fl a Some st with
    | Some st1 => k {| prev := prev st; rest := rest st; caps := caps st1 |}
    | None => None
    end
  end.

(** One match attempt at a given position. *)
Definition exec_at (fl : flags) (r : regex) (p : option N) (s : jsstring) :
    option mstate :=
  rmatch fl r Some {| prev := p; rest := s; caps := [] |}.

(** A successful match: the text before it, the matched text, the text after
    it and the captures. *)
Record rmatch_result :=
  { m_before : jsstring; m_text : jsstring; m_after : jsstring;
    m_caps : list (nat * jsstring) }.

Definition result_at (s : jsstring) (e : mstate) : rmatch_result :=
  {| m_before := []; m_text := firstn (length s - length (rest e)) s;
     m_after := rest e; m_caps := caps e |}.

Definition shift_result (c : N) (m : rmatch_result) : rmatch_result :=
  {| m_before := c :: m_before m; m_text := m_text m; m_after := m_after m;
     m_caps := m_caps m |}.

(** The first position, from the current one on, at which the pattern
    matches: [RegExp.prototype.exec] of a pattern without the [g] flag. *)
Fixpoint search (fl : flags) (r : regex) (p : option N) (s : jsstring)
    {struct s} : option rmatch_result :=
  match exec_at fl r p s with
  | Some e => Some (result_at s e)
  | None =>
    match s with
    | [] => None
    | c :: t => option_map (shift_result c) (search fl r (Some c) t)
    end
  end.

(** [re.test(s)] *)
Definition test (fl : flags) (r : regex) (s : jsstring) : bool :=
  match search fl r None s with Some _ => true | None => false end.

(** [s.match(re)] for a pattern without the [g] flag. *)
Definition match_first (fl : flags) (r : regex) (s : jsstring) :
    option rmatch_result :=
  search fl r None s.

(** [s.replace(re, repl)] for a pattern without the [g] flag and a
    replacement without [$] patterns. *)
Definition replace_first (fl : flags) (r : regex) (repl s : jsstring) : jsstring :=
  match search fl r None s with
  | Some m => m_before m ++ repl ++ m_after m
  | None => s
  end.

(** [s.replace(re, repl)] for a pattern with the [g] flag.  [skip] counts the
    code units of the current match that are still to be dropped.  After an
    empty match the next code unit is copied and the scan resumes behind it. *)
Fixpoint replace_go (fl : flags) (r : regex) (repl : jsstring) (skip : nat)
    (p : option N) (s : jsstring) {struct s} : jsstring :=
  match skip with
  | S n =>
    match s with
    | [] => []
    | c :: t => replace_go fl r repl n (Some c) t
    end
  | O =>
    match exec_at fl r p s with
    | Some e =>
      match s with
      | [] => repl
      | c :: t =>
        match length s - length (rest e) with
        | O => repl ++ c :: replace_go fl r repl 0 (Some c) t
        | S n => repl ++ replace_go fl r repl n (Some c) t
        end
      end
    | None =>
      match s with
      | [] => []
      | c :: t => c :: replace_go fl r repl 0 (Some c) t
      end
    end
  end.

Definition replace_all (fl : flags) (r : regex) (repl s : jsstring) : jsstring :=
  replace_go fl r repl 0 None s.

(** [while ((m = re.exec(s))) ...] for a pattern with the [g] flag: the
    successive matches.  [exec] leaves [lastIndex] where an empty match was
    found, so the loop of the source never ends on one: [None]. *)
Fixpoint exec_loop (fl : flags) (r : regex) (skip : nat) (p : option N)
    (s : jsstring) {struct s} : option (list rmatch_result) :=
  match skip with
  | S n =>
    match s with
    | [] => Some []
    | c :: t => exec_loop fl r n (Some c) t
    end
  | O =>
    match exec_at fl r p s with
    | Some e =>
      match s with
      | [] => None
      | c :: t =>
        match length s - length (rest e) with
        | O => None
        | S n => option_map (cons (result_at s e)) (exec_loop fl r n (Some c) t)
        end
      end
    | None =>
      match s with
      | [] => Some []
      | c :: t => exec_loop fl r 0 (Some c) t
      end
    end
  end.

Definition exec_all (fl : flags) (r : regex) (s : jsstring) :
    option (list rmatch_result) :=
  exec_loop fl r 0 None s.

(** *** Pattern syntax *)

Fixpoint seq_of (rs : list regex) : regex :=
  match rs with
  | [] => Empty
  | [r] => r
  | r :: rs' => Seq r (seq_of rs')
  end.

Fixpoint alt_of (rs : list regex) : regex :=
  match rs with
  | [] => Empty
  | [r] => r
  | r :: rs' => Alt r (alt_of rs')
  end.

(** A literal run of characters. *)
Definition Lit (s : string) : regex := seq_of (map Chr (js s)).

(** The listed characters as class members. *)
Definition chars (s : string) : list citem := map CChr (js s).

Definition Star (r : regex) : regex := Rep r 0 None true.
Definition Plus (r : regex) : regex := Rep r 1 None true.
Definition Opt (r : regex) : regex := Rep r 0 (Some 1) true.
Definition LazyStar (r : regex) : regex := Rep r 0 None false.

Definition Space : regex := Class false [CSpace].
Definition Digit : regex := Class false [CDigit].
(** [[\s\S]] *)
Definition AnyUnit : regex := Class false [CSpace; CNotSpace].

(** *** Vocabulary for reasoning about matches *)

(** Whether a match attempt succeeds. *)
Definition succeeds {A : Type} (o : option A) : bool :=
  match o with Some _ => true | None => false end.

(** A continuation whose success depends on the remaining input only. *)
Definition rest_only (k : mstate -> option mstate) (f : jsstring -> bool) : Prop :=
  forall st, succeeds (k st) = f (rest st).

(** A matcher of exactly one code unit that satisfies [P]. *)
Definition single_unit (ma : (mstate -> option mstate) -> mstate -> option mstate)
    (P : N -> bool) : Prop :=
  forall d st,
    ma d st = match rest st with
              | c :: t => if P c then d (advance c t st) else None
              | [] => None
              end.

(** Whether a quantified one-unit pattern, followed by what [f] accepts, can
    match at the start of [s]. *)
Fixpoint rep_f (P : N -> bool) (f : jsstring -> bool) (mn : nat) (mx : option nat)
    (s : jsstring) : bool :=
  match mx with
  | Some O => f s
  | _ =>
    ((mn =? 0)%nat && f s)
    || match s with
       | c :: t => P c && rep_f P f (pred mn) (pred_max mx) t
       | [] => false
       end
  end.

(** [n] does not exceed the upper bound of a quantifier. *)
Definition within (n : nat) (mx : option nat) : Prop :=
  match mx with Some m => n <= m | None => True end.

End Regex.

(** ** [src/lib/text.ts] *)

Module Text.
Import Regex.

Record block := { index : nat; text : jsstring }.

(** [/\r\n?/g] *)
Definition crlfRegex : regex := Seq (Chr CR) (Opt (Chr LF)).

(** The separator class of the numbering patterns, [[\.|。|\)|）|、|\-]],
    member by member as it is written in the source. *)
Definition separatorClass : regex := Class false (chars ".|。|)|）|、|-").

(** [numberRegex]: line start, group 1 [\s*], group 2 [\d{1,3}], group 3
    the separator class [{1}], then [\s*]. *)
Definition numberRegex : regex :=
  seq_of [Bol; Group 1 (Star Space); Group 2 (Rep Digit 1 (Some 3) true);
          Group 3 (Rep separatorClass 1 (Some 1) true); Star Space].

(** [/^\s*\d+[\.|。|\)|）|、|\-]/m] *)
Definition anyNumberingRegex : regex :=
  seq_of [Bol; Star Space; Plus Digit; separatorClass].

(** [flush]: the accumulated lines become a block when their trimmed text is
    not empty; the caller resets [current]. *)
Definition flush (current : list jsstring) (blocks : list block) : list block :=
  let text := trim (join_lines current) in
  match text with
  | [] => blocks
  | _ => blocks ++ [{| index := length blocks + 1; text := text |}]
  end.

Record split_state :=
  { blocks : list block; current : list jsstring; currentIndex : N }.

(** The body of the loop over the lines. *)
Definition split_step (st : split_state) (rawLine : jsstring) : split_state :=
  let line := rawLine in
  match match_first no_flags numberRegex line with
  | Some m =>
    let blocks1 :=
      match current st with [] => blocks st | _ => flush (current st) (blocks st) end in
    let parsed :=
      match get_cap 2 (m_caps m) with Some d => parseInt_digits d | None => 0%N end in
    {| blocks := blocks1;
       current := [trim (replace_first no_flags numberRegex [] line)];
       currentIndex := if (parsed =? 0)%N then (currentIndex st + 1)%N else parsed |}
  | None =>
    {| blocks := blocks st; current := current st ++ [line];
       currentIndex := currentIndex st |}
  end.

Definition renumber (bs : list block) : list block :=
  imap (fun i b => {| index := i + 1; text := text b |}) bs.

Definition splitNumberedBlocks (input : jsstring) : list block :=
  let lines := split_lines (replace_all no_flags crlfRegex [LF] input) in
  let st := fold_left split_step lines
              {| blocks := []; current := []; currentIndex := 1%N |} in
  let blocks := flush (current st) (blocks st) in
  if (length blocks =? 1)%nat && negb (test flag_m anyNumberingRegex input) then
    [{| index := 1; text := trim input |}]
  else
    renumber
      (List.filter (fun b => (0 <? length (text b))%nat)
         (map (fun b => {| index := index b; text := trim (text b) |}) blocks)).

(** *** [stripThinking] *)

Definition fenceKeywords : regex :=
  alt_of [Lit "thinking"; Lit "think"; Lit "thought"; Lit "thoughts";
          Lit "analysis"; Lit "reasoning"].

Definition tagKeywords : regex :=
  alt_of [Lit "think"; Lit "thinking"; Lit "analysis"; Lit "reasoning"].

(** [/```(?:thinking|think|thought|thoughts|analysis|reasoning)[\s\S]*?```/gi] *)
Definition fenceRegex : regex :=
  seq_of [Lit "```"; fenceKeywords; LazyStar AnyUnit; Lit "```"].

(** [/<\/?(?:think|thinking|analysis|reasoning)>[\s\S]*?<\/(?:think|thinking|analysis|reasoning)>/gi] *)
Definition tagRegex : regex :=
  seq_of [Chr (ch "<"); Opt (Chr (ch "/")); tagKeywords; Chr (ch ">");
          LazyStar AnyUnit; Lit "</"; tagKeywords; Chr (ch ">")].

(** [/<\s*(?:think|thinking|analysis|reasoning)[^>]*>[\s\S]*?<\s*\/\s*(?:think|thinking|analysis|reasoning)\s*>/gi] *)
Definition looseTagRegex : regex :=
  seq_of [Chr (ch "<"); Star Space; tagKeywords; Star (Class true (chars ">"));
          Chr (ch ">"); LazyStar AnyUnit; Chr (ch "<"); Star Space; Chr (ch "/");
          Star Space; tagKeywords; Star Space; Chr (ch ">")].

(** [thinkingHeadRegex], flags [gim]: line start, [\s*], optionally [\*+\s*],
    one of thinking|thoughts?|analysis|reasoning|思考|推理|想法, [[:：\.\-]*],
    [\s*], [\n], a lazy [[\s\S]*?], and the lookahead [(?=\n{2,}|$)]. *)
Definition thinkingHeadRegex : regex :=
  seq_of [Bol; Star Space; Opt (Seq (Plus (Chr (ch "*"))) (Star Space));
          alt_of [Lit "thinking"; Seq (Lit "thought") (Opt (Chr (ch "s")));
                  Lit "analysis"; Lit "reasoning"; Lit "思考"; Lit "推理"; Lit "想法"];
          Star (Class false (chars ":：.-")); Star Space; Chr LF;
          LazyStar AnyUnit; Look (Alt (Rep (Chr LF) 2 None true) Eol)].

(** [/^\s*>/] *)
Definition quoteRegex : regex := seq_of [Bol; Star Space; Chr (ch ">")].

(** [/^\s*(?:[\*\-–—>]|\d+[\.\)）])\s*\*?\*?[A-Za-z一-龥].*\*?\*?\s*$/] *)
Definition metaRegex : regex :=
  seq_of [Bol; Star Space;
          Alt (Class false (chars "*-–—>"))
              (Seq (Plus Digit) (Class false (chars ".)）")));
          Star Space; Opt (Chr (ch "*")); Opt (Chr (ch "*"));
          Class false [CRange 65 90; CRange 97 122; CRange 19968 40869];
          Star AnyChar; Opt (Chr (ch "*")); Opt (Chr (ch "*")); Star Space; Eol].

(** [/(thinking|thoughts?|analysis|reasoning|思考|推理|步骤|计划|分解)/i] *)
Definition keywordRegex : regex :=
  Group 1
    (alt_of [Lit "thinking"; Seq (Lit "thought") (Opt (Chr (ch "s")));
             Lit "analysis"; Lit "reasoning"; Lit "思考"; Lit "推理"; Lit "步骤";
             Lit "计划"; Lit "分解"]).

Definition labelKeywords : regex :=
  Group 1
    (alt_of [Lit "thinking"; Seq (Lit "thought") (Opt (Chr (ch "s")));
             Lit "analysis"; Lit "reasoning"; Lit "思考"; Lit "推理"]).

Definition notNewline : regex := Class true [CChr LF].

(** [/^\s*\*+\s*(thinking|thoughts?|analysis|reasoning|思考|推理)[^\n]*$/gim] *)
Definition starLabelRegex : regex :=
  seq_of [Bol; Star Space; Plus (Chr (ch "*")); Star Space; labelKeywords;
          Star notNewline; Eol].

(** [/^\s*[\[【\(]?(thinking|thoughts?|analysis|reasoning|思考|推理)[\]】\)]?[:：]?[^\n]*$/gim] *)
Definition labelRegex : regex :=
  seq_of [Bol; Star Space; Opt (Class false (chars "[【(")); labelKeywords;
          Opt (Class false (chars "]】)")); Opt (Class false (chars ":："));
          Star notNewline; Eol].

(** [/\n{3,}/g] *)
Definition blankRunRegex : regex := Rep (Chr LF) 3 None true.

(** The loop of the third step: while [inPreamble], the lines that are a
    quote, carry a keyword, look like meta commentary or are blank are
    dropped; from the first other line on, every line is kept. *)
Definition preambleLine (l : jsstring) : bool :=
  let isQuote := test no_flags quoteRegex l in
  let looksLikeMeta := test no_flags metaRegex l in
  let hasThinkingKeyword := test flag_i keywordRegex l in
  isQuote || hasThinkingKeyword || looksLikeMeta
  || jsstring_eqb (trim l) [].

Fixpoint dropPreamble (lines : list jsstring) : list jsstring :=
  match lines with
  | [] => []
  | l :: ls => if preambleLine l then dropPreamble ls else l :: ls
  end.

(** The last step: [text.replace(/\n{3,}/g, "\n\n").trim()]. *)
Definition collapseBlankRuns (t : jsstring) : jsstring :=
  replace_all no_flags blankRunRegex [LF; LF] t.

Definition finalPass (t : jsstring) : jsstring := trim (collapseBlankRuns t).

(** The scan of [collapseBlankRuns] from a position on, [skip] code units of
    a match still to be dropped. *)
Definition collapse_from (skip : nat) (p : option N) (s : jsstring) : jsstring :=
  replace_go no_flags blankRunRegex [LF; LF] skip p s.

Definition starts_with_LF (s : jsstring) : bool :=
  match s with c :: _ => (c =? LF)%N | [] => false end.

Definition ends_with_LF (s : jsstring) : bool := starts_with_LF (rev s).

(** A string with three line feeds in a row somewhere. *)
Definition has_blank_run (s : jsstring) : Prop :=
  exists u v, s = u ++ [LF; LF; LF] ++ v.

(** The steps before the last one, in the order of the source. *)
Definition removalPasses (raw : jsstring) : jsstring :=
  let text := raw in
  let text := replace_all flag_i fenceRegex [] text in
  let text := replace_all flag_i tagRegex [] text in
  let text := replace_all flag_i looseTagRegex [] text in
  let text := replace_all flag_im thinkingHeadRegex [] text in
  let lines := split_lines text in
  let out := dropPreamble lines in
  let text := join_lines out in
  let text := replace_all flag_im starLabelRegex [] text in
  let text := replace_all flag_im labelRegex [] text in
  text.

Definition stripThinking (raw : jsstring) : jsstring :=
  match raw with
  | [] => []
  | _ => finalPass (removalPasses raw)
  end.

(** *** The shape of a numbering token as the specification words it *)

(** The six separators of the specification: ASCII period, ideographic full
    stop, ASCII and full-width closing parenthesis, ideographic enumeration
    comma, hyphen. *)
Definition claimedSeparators : list N := [46; 12290; 41; 65289; 12289; 45]%N.

(** The line starts with optional white space, one to three digits and one
    separator of [seps]. *)
Definition numbering_shape (seps : list N) (line : jsstring) : Prop :=
  exists ws ds sep tail,
    line = ws ++ ds ++ sep :: tail
    /\ forallb is_white_space ws = true
    /\ forallb is_digit ds = true /\ 1 <= length ds <= 3
    /\ In sep seps.

(** The three classes of [numberRegex] as predicates. *)
Definition class_space (c : N) : bool := class_matches no_flags false [CSpace] c.
Definition class_digit (c : N) : bool := class_matches no_flags false [CDigit] c.
Definition class_separator (c : N) : bool :=
  class_matches no_flags false (chars ".|。|)|）|、|-") c.

(** The shape, decided from left to right. *)
Definition shape_token (seps : list N) (line : jsstring) : bool :=
  rep_f is_white_space
    (rep_f is_digit
       (rep_f (fun c => existsb (N.eqb c) seps)
          (rep_f is_white_space (fun _ => true) 0 None) 1 (Some 1))
       1 (Some 3))
    0 None line.

End Text.

(** ** [extractImageUrls] of the completion client *)

Module OpenAI.
Import Regex.

Definition dquote : N := 34%N.

(** The link part shared by the two Markdown patterns: a bracketed text with
    no closing bracket inside, an opening parenthesis, group 1 of one or more
    characters other than a closing parenthesis and white space, an optional
    double-quoted title after white space, and the closing parenthesis. *)
Definition mdLink : regex :=
  seq_of [Chr (ch "["); Star (Class true (chars "]")); Chr (ch "]"); Chr (ch "(");
          Group 1 (Plus (Class true [CChr (ch ")"); CSpace]));
          Opt (seq_of [Plus Space; Chr dquote; Star (Class true [CChr dquote]);
                       Chr dquote]);
          Chr (ch ")")].

(** The same, behind an exclamation mark. *)
Definition mdImg : regex := Seq (Chr (ch "!")) mdLink.

(** The [img] tag pattern, flags [gi]: [<img], one or more characters other
    than [>], [src=], a quote of either kind, group 1 of one or more
    characters that are not quotes, a quote, characters other than [>], [>]. *)
Definition htmlImg : regex :=
  seq_of [Lit "<img"; Plus (Class true (chars ">")); Lit "src=";
          Class false [CChr dquote; CChr (ch "'")];
          Group 1 (Plus (Class true [CChr dquote; CChr (ch "'")]));
          Class false [CChr dquote; CChr (ch "'")];
          Star (Class true (chars ">")); Chr (ch ">")].

Definition imageSubtypes : regex :=
  alt_of [Lit "png"; Lit "jpeg"; Lit "jpg"; Lit "webp"; Lit "gif"].

(** [/data:image\/(?:png|jpeg|jpg|webp|gif);base64,[A-Za-z0-9+/=]+/gi] *)
Definition dataUrlRe : regex :=
  seq_of [Lit "data:image/"; imageSubtypes; Lit ";base64,";
          Plus (Class false ([CRange 65 90; CRange 97 122; CRange 48 57]
                               ++ chars "+/="))].

(** The bare URL pattern, flags [gi], one group around the whole:
    [https?:\/\/], [[\w.-]+], and optionally a slash followed by any number
    of the characters [\w - . _ ~ : / ? # [ ] @ ! $ & ' ( ) * + , ; = %]. *)
Definition urlRe : regex :=
  Group 1
    (seq_of [Lit "http"; Opt (Chr (ch "s")); Lit "://";
             Plus (Class false (CWord :: chars ".-"));
             Opt (Seq (Chr (ch "/"))
                      (Star (Class false
                               (CWord :: chars "-._~:/?#[]@!$&'()*+,;=%"))))]).

(** [/^data:image\//] *)
Definition dataPrefixRe : regex := Seq Bol (Lit "data:image/").

(** The extension pattern, flag [i]: a period, one of png|jpg|jpeg|webp|gif,
    optionally a question mark and the rest of the line, then the end. *)
Definition extensionRe : regex :=
  seq_of [Chr (ch ".");
          Group 1 (alt_of [Lit "png"; Lit "jpg"; Lit "jpeg"; Lit "webp"; Lit "gif"]);
          Opt (Seq (Chr (ch "?")) (Star AnyChar)); Eol].

(** [/(?:image|format|ext)=(?:png|jpg|jpeg|webp|gif)/i] *)
Definition queryHintRe : regex :=
  seq_of [alt_of [Lit "image"; Lit "format"; Lit "ext"]; Chr (ch "=");
          alt_of [Lit "png"; Lit "jpg"; Lit "jpeg"; Lit "webp"; Lit "gif"]].

(** [/(?:images|img|media|cdn)\//i] *)
Definition cdnRe : regex :=
  Seq (alt_of [Lit "images"; Lit "img"; Lit "media"; Lit "cdn"]) (Chr (ch "/")).

Definition isProbablyImageUrl (u : jsstring) : bool :=
  if test no_flags dataPrefixRe u then true
  else if test flag_i extensionRe u then true
  else if test flag_i queryHintRe u then true
  else if test flag_i cdnRe u then true
  else false.

(** [urls.add(u)] on a [Set], which keeps the insertion order. *)
Definition set_add (u : jsstring) (urls : list jsstring) : list jsstring :=
  if existsb (jsstring_eqb u) urls then urls else urls ++ [u].

(** [if (m[i]) urls.add(m[i])]: an absent or empty capture is skipped. *)
Definition add_capture (i : nat) (urls : list jsstring) (m : rmatch_result) :
    list jsstring :=
  let v := match i with
           | O => Some (m_text m)
           | _ => get_cap i (m_caps m)
           end in
  match v with
  | Some (c :: t) => set_add (c :: t) urls
  | _ => urls
  end.

(** One [while ((m = re.exec(s)))] loop; [None] when it does not end. *)
Definition scan (fl : flags) (r : regex) (i : nat) (s : jsstring)
    (urls : list jsstring) : option (list jsstring) :=
  match exec_all fl r s with
  | Some ms => Some (fold_left (add_capture i) ms urls)
  | None => None
  end.

Definition extractImageUrls (text : jsstring) : option (list jsstring) :=
  let s := text in
  urls ← scan no_flags mdImg 1 s [];
  urls ← scan no_flags mdLink 1 s urls;
  urls ← scan flag_i htmlImg 1 s urls;
  urls ← scan flag_i dataUrlRe 0 s urls;
  urls ← scan flag_i urlRe 1 s urls;
  let list := List.filter isProbablyImageUrl urls in
  Some (match list with
        | [] => fold_left (fun acc u => set_add u acc) urls []
        | _ => fold_left (fun acc u => set_add u acc) list []
        end).

End OpenAI.

(** ** [src/lib/storage.ts] *)

Module Storage.

Inductive PersistKey :=
| prompts | apiProfiles | defaults | tasks | results | noteApi | images
| writeCount | autoSaveNote | imageCount.

Definition key_name (k : PersistKey) : jsstring :=
  match k with
  | prompts => js "prompts" | apiProfiles => js "apiProfiles"
  | defaults => js "defaults" | tasks => js "tasks" | results => js "results"
  | noteApi => js "noteApi" | images => js "images"
  | writeCount => js "writeCount" | autoSaveNote => js "autoSaveNote"
  | imageCount => js "imageCount"
  end.

(** The environment: whether [window] is defined, and the content of
    [localStorage]. *)
Record host := { window_defined : bool; localStorage : gmap jsstring jsstring }.

Definition getItem (h : host) (key : jsstring) : option jsstring :=
  localStorage h !! key.

Section Parse.
Context {T : Type}.
(** [JSON.parse(raw) as T]: the parsed value, or a thrown [SyntaxError]. *)
Variable JSON_parse : jsstring -> completion T.

Definition safeParse (raw : option jsstring) (fallback : T) : completion T :=
  try_catch
    (match raw with
     | Some (c :: t) => JSON_parse (c :: t)
     | _ => Normal fallback
     end)
    (Normal fallback).

Definition readLS (h : host) (key : PersistKey) (fallback : T) : completion T :=
  if negb (window_defined h) then Normal fallback
  else safeParse (getItem h (key_name key)) fallback.
End Parse.

(** A [JSON.parse] for the boolean settings ([autoSaveNote]): the two
    literals between optional JSON white space; anything else is a syntax
    error. *)
Definition is_json_space (c : N) : bool :=
  ((c =? 32) || (c =? 9) || (c =? 10) || (c =? 13))%N.

Fixpoint json_trim_start (s : jsstring) : jsstring :=
  match s with
  | [] => []
  | c :: t => if is_json_space c then json_trim_start t else s
  end.

Definition JSON_parse_bool (raw : jsstring) : completion bool :=
  let body := rev (json_trim_start (rev (json_trim_start raw))) in
  if jsstring_eqb body (js "true") then Normal true
  else if jsstring_eqb body (js "false") then Normal false
  else Throw (js "SyntaxError").

(** The stored string is absent, or [JSON.parse] throws on it. *)
Definition absent_or_invalid {T : Type} (JSON_parse : jsstring -> completion T)
    (h : host) (key : PersistKey) : Prop :=
  getItem h (key_name key) = None
  \/ exists raw message,
       getItem h (key_name key) = Some raw /\ JSON_parse raw = Throw message.

End Storage.

(** ** [src/app/writer/WriterWorkbench.tsx] *)

Module ModelConfig.
Record t := { name : jsstring; baseUrl : jsstring; apiKey : jsstring;
              model : jsstring; thinkingFilter : option bool }.
End ModelConfig.

Module PromptItem.
Record t := { id : jsstring; name : jsstring; category : jsstring;
              content : jsstring; isDefault : option bool }.
End PromptItem.

Module TaskInput.
Record t := { id : jsstring; index : Z; title : option jsstring;
              tags : list jsstring; promptKey : option jsstring;
              guidance : option jsstring; needsSearch : bool; raw : jsstring }.
End TaskInput.

(** [TaskResult], with the two fields that the workbench adds to the variants
    of a multi-version run. *)
Module TaskResult.
Record t := { id : jsstring; index : Z; raw : jsstring;
              searchOutput : option jsstring; writeOutput : option jsstring;
              createdAt : N; parentId : option jsstring; variantNo : option nat }.
End TaskResult.

Module Workbench.
Import Text.

Inductive role := system | user | assistant.
Record ChatMessage := { msg_role : role; msg_content : jsstring }.
Record request := { config : ModelConfig.t; messages : list ChatMessage }.

(** How a call to the completion provider ends: with the completion text,
    with an error (transport or parse), or with the rejection that follows
    the abort of its signal; and the clock ([Date.now()]) at that moment. *)
Inductive outcome :=
| Resolved (content : jsstring)
| Rejected (message : jsstring)
| Aborted (message : jsstring).

Record settled := { outcome_of : outcome; settled_at : N }.

(** The collaborators behind the suspension points of the workbench. *)
Record network :=
  { search_call : request -> settled;
    write_call : request -> nat -> settled;     (* the k-th concurrent call *)
    refine_call : request -> settled;
    note_post : nat -> jsstring -> settled }.

Inductive toast := ToastError (message : jsstring) | ToastSuccess (message : jsstring).

Record AbortController := { aborted : bool }.

(** The mutable state that the handlers share. *)
Record state :=
  { results : list TaskResult.t;
    runningIds : gset jsstring;
    stages : gmap jsstring jsstring;
    abortMap : gmap jsstring AbortController;
    toasts : list toast }.

(** A JavaScript number: not a number, an infinity, or the rational that a
    finite double stands for. *)
Inductive number := NaN | Infinity (negative : bool) | Finite (q : QArith_base.Q).

Definition number_of_Z (z : Z) : number := Finite (QArith_base.Qmake z 1).

(** The values that a handler closes over: the settings and the state as the
    render that created the handler saw them; [writeCount] is what
    [Number(writeCount)] gives. *)
Record env :=
  { apiProfiles_search : option ModelConfig.t;
    apiProfiles_write : option ModelConfig.t;
    prompts : list PromptItem.t;
    defaultSearchPromptId : option jsstring;
    defaultWritePromptId : option jsstring;
    globalPromptId : option jsstring;
    globalGuidance : jsstring;
    writeCount : number;
    autoSaveNote : bool;
    noteApi_endpoint : jsstring;
    noteApi_apiKey : jsstring;
    tasks : list TaskInput.t;
    refineNotes : gmap jsstring jsstring;
    seen_results : list TaskResult.t;
    seen_runningIds : gset jsstring }.

Definition set_results (f : list TaskResult.t -> list TaskResult.t) (st : state) : state :=
  {| results := f (results st); runningIds := runningIds st; stages := stages st;
     abortMap := abortMap st; toasts := toasts st |}.

Definition set_runningIds (f : gset jsstring -> gset jsstring) (st : state) : state :=
  {| results := results st; runningIds := f (runningIds st); stages := stages st;
     abortMap := abortMap st; toasts := toasts st |}.

Definition set_stages (f : gmap jsstring jsstring -> gmap jsstring jsstring)
    (st : state) : state :=
  {| results := results st; runningIds := runningIds st; stages := f (stages st);
     abortMap := abortMap st; toasts := toasts st |}.

Definition set_abortMap
    (f : gmap jsstring AbortController -> gmap jsstring AbortController)
    (st : state) : state :=
  {| results := results st; runningIds := runningIds st; stages := stages st;
     abortMap := f (abortMap st); toasts := toasts st |}.

Definition add_toast (t : toast) (st : state) : state :=
  {| results := results st; runningIds := runningIds st; stages := stages st;
     abortMap := abortMap st; toasts := toasts st ++ [t] |}.

(** *** A state and exception monad for the bodies of the handlers *)

Definition M (A : Type) : Type := state -> completion A * state.

Definition ret {A : Type} (a : A) : M A := fun st => (Normal a, st).
Definition throw {A : Type} (message : jsstring) : M A := fun st => (Throw message, st).
Definition bind {A B : Type} (c : M A) (k : A -> M B) : M B :=
  fun st =>
    match c st with
    | (Normal a, st1) => k a st1
    | (Throw message, st1) => (Throw message, st1)
    end.
Definition update (f : state -> state) : M unit := fun st => (Normal tt, f st).

Notation "x <~ c ;; k" := (bind c (fun x => k))
  (at level 100, c at next level, right associativity).
Notation "c ;;; k" := (bind c (fun _ => k))
  (at level 100, right associativity).

(** [await] of a call to the provider. *)
Definition await (s : settled) : M jsstring :=
  match outcome_of s with
  | Resolved content => ret content
  | Rejected message => throw message
  | Aborted message => throw message
  end.

(** [Promise.all]: the values in the order of the promises, or the rejection
    that came first in time. *)
Fixpoint first_rejection {A : Type} (ps : list (N * completion A)) :
    option (N * jsstring) :=
  match ps with
  | [] => None
  | (at_, Throw message) :: ps' =>
    match first_rejection ps' with
    | Some (at', message') =>
      if (at' <? at_)%N then Some (at', message') else Some (at_, message)
    | None => Some (at_, message)
    end
  | (_, Normal _) :: ps' => first_rejection ps'
  end.

Fixpoint fulfilled {A : Type} (ps : list (N * completion A)) : list A :=
  match ps with
  | [] => []
  | (_, Normal a) :: ps' => a :: fulfilled ps'
  | (_, Throw _) :: ps' => fulfilled ps'
  end.

Definition promise_all {A : Type} (ps : list (N * completion A)) : M (list A) :=
  match first_rejection ps with
  | Some (_, message) => throw message
  | None => ret (fulfilled ps)
  end.

(** *** Small helpers of the handlers *)

(** [a || b] on optional strings: an absent or empty [a] is falsy. *)
Definition js_or (a b : option jsstring) : option jsstring :=
  match a with
  | Some (_ :: _) => a
  | _ => b
  end.

(** [prompts.find((p) => p.id === id)] *)
Definition find_prompt (e : env) (id : option jsstring) : option PromptItem.t :=
  match id with
  | Some i => List.find (fun p => jsstring_eqb (PromptItem.id p) i) (prompts e)
  | None => None
  end.

Definition selectedWritePrompt (e : env) : option PromptItem.t :=
  find_prompt e (js_or (globalPromptId e) (defaultWritePromptId e)).

Definition selectedSearchPrompt (e : env) : option PromptItem.t :=
  find_prompt e (defaultSearchPromptId e).

(** [task.promptKey ? prompts.find(...) : selectedWritePrompt] *)
Definition resolveWritePrompt (e : env) (task : TaskInput.t) : option PromptItem.t :=
  match TaskInput.promptKey task with
  | Some (c :: t) => find_prompt e (Some (c :: t))
  | _ => selectedWritePrompt e
  end.

(** [String(n)] for an integer. *)
Definition string_of_Z (z : Z) : jsstring :=
  match z with
  | Zneg p => ch "-" :: string_of_nat (Pos.to_nat p)
  | _ => string_of_nat (Z.to_nat z)
  end.

(** [e?.message || e] for an [Error]. *)
Definition error_text (message : jsstring) : jsstring :=
  match message with
  | [] => js "Error"
  | _ => message
  end.

(** [s?.trim()] is truthy. *)
Definition nonblank (s : option jsstring) : bool :=
  match s with
  | Some g => match trim g with [] => false | _ => true end
  | None => false
  end.

Definition or_empty (s : option jsstring) : jsstring :=
  match s with Some g => g | None => [] end.

(** [Math.max(1, Math.min(5, Number(writeCount) || 1))].  [NaN] and zero
    are falsy and give 1; the negative infinity gives 1 and the positive one
    gives 5; a finite number is clamped, not rounded.  The result is a
    rational between 1 and 5. *)
Definition count (e : env) : QArith_base.Q :=
  let one := QArith_base.Qmake 1 1 in
  let five := QArith_base.Qmake 5 1 in
  match writeCount e with
  | NaN => one
  | Infinity true => one
  | Infinity false => five
  | Finite q =>
    let n := if QArith_base.Qeq_bool q (QArith_base.Qmake 0 1) then one else q in
    let m := if QArith_base.Qle_bool five n then five else n in
    if QArith_base.Qle_bool m one then one else m
  end.

(** [count === 1] *)
Definition single_version (e : env) : bool :=
  QArith_base.Qeq_bool (count e) (QArith_base.Qmake 1 1).

(** The length of [Array.from({ length: count }, ...)]: the integer part of
    [count]. *)
Definition variant_count (e : env) : nat :=
  Z.to_nat (QArith_base.Qnum (count e) / Z.pos (QArith_base.Qden (count e))).

(** [clean]: [stripThinking(s || "").trim()] *)
Definition clean (s : option jsstring) : jsstring := trim (stripThinking (or_empty s)).

(** *** The write prompt *)

(** [task.needsSearch ? (searchOutput || "") : task.raw] *)
Definition userContent (task : TaskInput.t) (searchOutput : option jsstring) : jsstring :=
  if TaskInput.needsSearch task then or_empty searchOutput else TaskInput.raw task.

Definition itemGuidanceBlock (g : jsstring) : jsstring :=
  [LF; LF] ++ js "[指导重点]" ++ [LF] ++ g.

Definition batchGuidanceBlock (g : jsstring) : jsstring :=
  [LF; LF] ++ js "[批量指导]" ++ [LF] ++ g.

Definition composeUser (e : env) (task : TaskInput.t) (searchOutput : option jsstring) :
    jsstring :=
  userContent task searchOutput
  ++ (if nonblank (TaskInput.guidance task)
      then itemGuidanceBlock (or_empty (TaskInput.guidance task)) else [])
  ++ (if nonblank (Some (globalGuidance e)) && nonblank (TaskInput.guidance task)
      then []
      else if nonblank (Some (globalGuidance e))
           then batchGuidanceBlock (globalGuidance e) else []).

Definition writeMessages (e : env) (task : TaskInput.t) (wp : PromptItem.t)
    (searchOutput : option jsstring) : list ChatMessage :=
  [ {| msg_role := system; msg_content := PromptItem.content wp |};
    {| msg_role := user; msg_content := composeUser e task searchOutput |} ].

(** *** Sorting and the updates of the results collection *)

(** [Array.prototype.sort] with a comparator: a stable sort. *)
Fixpoint insert_sorted {A : Type} (cmp : A -> A -> Z) (x : A) (l : list A) : list A :=
  match l with
  | [] => [x]
  | y :: l' => if (0 <? cmp x y)%Z then y :: insert_sorted cmp x l' else x :: l
  end.

Definition sort_by {A : Type} (cmp : A -> A -> Z) (l : list A) : list A :=
  fold_right (insert_sorted cmp) [] l.

Definition by_index (a b : TaskResult.t) : Z :=
  (TaskResult.index a - TaskResult.index b)%Z.

Definition variant_rank (a : TaskResult.t) : Z :=
  match TaskResult.variantNo a with Some k => Z.of_nat k | None => 0%Z end.

(** [(a.index - b.index) || ((a.variantNo || 0) - (b.variantNo || 0))] *)
Definition by_index_then_variant (a b : TaskResult.t) : Z :=
  if (by_index a b =? 0)%Z then (variant_rank a - variant_rank b)%Z else by_index a b.

(** The updater of the single-version branch. *)
Definition insertSingle (tr : TaskResult.t) (prev : list TaskResult.t) : list TaskResult.t :=
  let others :=
    List.filter (fun x => negb (jsstring_eqb (TaskResult.id x) (TaskResult.id tr))) prev in
  sort_by by_index (others ++ [tr]).

(** The updater of the multi-version branch. *)
Definition replaceVariants (taskId : jsstring) (variants : list TaskResult.t)
    (prev : list TaskResult.t) : list TaskResult.t :=
  let others :=
    List.filter
      (fun x => negb (jsstring_eqb (TaskResult.id x) taskId)
                && negb (bool_decide (TaskResult.parentId x = Some taskId))) prev in
  sort_by by_index_then_variant (others ++ variants).

(** The updater of a refinement. *)
Definition refineUpdate (rid : jsstring) (newOut : jsstring) (now : N)
    (prev : list TaskResult.t) : list TaskResult.t :=
  map (fun x =>
         if jsstring_eqb (TaskResult.id x) rid then
           {| TaskResult.id := TaskResult.id x; TaskResult.index := TaskResult.index x;
              TaskResult.raw := TaskResult.raw x;
              TaskResult.searchOutput := TaskResult.searchOutput x;
              TaskResult.writeOutput := Some newOut; TaskResult.createdAt := now;
              TaskResult.parentId := TaskResult.parentId x;
              TaskResult.variantNo := TaskResult.variantNo x |}
         else x) prev.

(** The id of the k-th variant: the task id, a hyphen, k. *)
Definition variant_id (taskId : jsstring) (k : nat) : jsstring :=
  taskId ++ ch "-" :: string_of_nat k.

(** *** [saveToNoteApi]

    It reads [results] as the closure saw them and catches its own errors. *)
Definition notePayloads (e : env) (selectedIds : list jsstring) : list jsstring :=
  imap (fun i r => js "文案" ++ string_of_nat (i + 1) ++ [LF; LF]
                   ++ clean (TaskResult.writeOutput r))
    (List.filter (fun r => existsb (jsstring_eqb (TaskResult.id r)) selectedIds)
       (seen_results e)).

Definition saveToNoteApi (e : env) (net : network) (selectedIds : list jsstring) : M unit :=
  match noteApi_endpoint e, noteApi_apiKey e with
  | [], _ => update (add_toast (ToastError (js "请在设置中配置笔记 API 地址")))
  | _, [] => update (add_toast (ToastError (js "请在设置中填写笔记 API Key")))
  | _, _ =>
    match notePayloads e selectedIds with
    | [] => update (add_toast (ToastError (js "没有可保存的内容")))
    | payloads =>
      fun st =>
        match promise_all
                (imap (fun i p =>
                         let s := note_post net i p in
                         (settled_at s,
                          match outcome_of s with
                          | Resolved c => Normal c
                          | Rejected m => Throw m
                          | Aborted m => Throw m
                          end)) payloads) st with
        | (Normal _, st1) =>
          (Normal tt, add_toast (ToastSuccess (js "已批量保存到笔记")) st1)
        | (Throw m, st1) =>
          (Normal tt, add_toast (ToastError (js "保存失败：" ++ error_text m)) st1)
        end
    end
  end.

(** *** [runOne] *)

(** The optional retrieval stage. *)
Definition searchStage (e : env) (net : network) (task : TaskInput.t) :
    M (option jsstring) :=
  if TaskInput.needsSearch task then
    match apiProfiles_search e with
    | None => throw (js "已勾选联网检索，但未配置‘搜索增强 API'")
    | Some scfg =>
      match selectedSearchPrompt e with
      | None => throw (js "未设置默认搜索 Prompt，请在‘提示词管理’设置默认项")
      | Some sp =>
        update (set_stages (insert (TaskInput.id task) (js "联网检索中"))) ;;;
        searchOutput <~
          await (search_call net
                   {| config := scfg;
                      messages :=
                        [ {| msg_role := system; msg_content := PromptItem.content sp |};
                          {| msg_role := user; msg_content := TaskInput.raw task |} ] |}) ;;
        ret (Some (stripThinking searchOutput))
      end
    end
  else ret None.

(** One of the concurrent calls of the multi-version branch: the time at
    which it settles and the variant it yields. *)
Definition variantPromise (net : network) (req : request) (task : TaskInput.t)
    (searchOutput : option jsstring) (k : nat) : N * completion TaskResult.t :=
  let s := write_call net req k in
  (settled_at s,
   match outcome_of s with
   | Resolved out =>
     Normal {| TaskResult.id := variant_id (TaskInput.id task) k;
               TaskResult.index := TaskInput.index task;
               TaskResult.raw := TaskInput.raw task;
               TaskResult.searchOutput := searchOutput;
               TaskResult.writeOutput := Some (stripThinking out);
               TaskResult.createdAt := settled_at s;
               TaskResult.parentId := Some (TaskInput.id task);
               TaskResult.variantNo := Some k |}
   | Rejected m => Throw m
   | Aborted m => Throw m
   end).

(** The write stage; it yields [createdIds]. *)
Definition writeStage (e : env) (net : network) (wcfg : ModelConfig.t)
    (task : TaskInput.t) (searchOutput : option jsstring) : M (list jsstring) :=
  match resolveWritePrompt e task with
  | None => throw (js "未找到写作 Prompt，请在‘提示词管理’中设置或选择")
  | Some wp =>
    update (set_stages (insert (TaskInput.id task) (js "写作中"))) ;;;
    let req := {| config := wcfg; messages := writeMessages e task wp searchOutput |} in
    if single_version e then
      writeOutput <~ await (write_call net req 1) ;;
      let tr := {| TaskResult.id := TaskInput.id task;
                   TaskResult.index := TaskInput.index task;
                   TaskResult.raw := TaskInput.raw task;
                   TaskResult.searchOutput := searchOutput;
                   TaskResult.writeOutput := Some (stripThinking writeOutput);
                   TaskResult.createdAt := settled_at (write_call net req 1);
                   TaskResult.parentId := None;
                   TaskResult.variantNo := None |} in
      update (set_results (insertSingle tr)) ;;;
      ret [TaskResult.id tr]
    else
      let ks := seq 1 (variant_count e) in
      variants <~ promise_all (map (variantPromise net req task searchOutput) ks) ;;
      update (set_results (replaceVariants (TaskInput.id task) variants)) ;;;
      ret (map TaskResult.id variants)
  end.

(** The body of the [try] block. *)
Definition runBody (e : env) (net : network) (wcfg : ModelConfig.t)
    (task : TaskInput.t) : M unit :=
  searchOutput <~ searchStage e net task ;;
  createdIds <~ writeStage e net wcfg task searchOutput ;;
  if autoSaveNote e then saveToNoteApi e net createdIds else ret tt.

(** The [finally] block. *)
Definition cleanup (id : jsstring) (st : state) : state :=
  set_stages (delete id)
    (set_runningIds (fun prev => prev ∖ {[id]})
       (set_abortMap (delete id) st)).

Definition runOne (e : env) (net : network) (task : TaskInput.t) (st : state) : state :=
  let id := TaskInput.id task in
  match apiProfiles_write e with
  | None => add_toast (ToastError (js "请先在设置中配置‘文案生成 API'！")) st
  | Some wcfg =>
    let st := set_runningIds (fun _ => seen_runningIds e ∪ {[id]}) st in
    let st := set_abortMap (insert id {| aborted := false |}) st in
    let st :=
      match runBody e net wcfg task st with
      | (Normal _, st1) => st1
      | (Throw message, st1) =>
        add_toast
          (ToastError (js "条目 " ++ string_of_Z (TaskInput.index task)
                       ++ js " 处理失败：" ++ error_text message)) st1
      end in
    cleanup id st
  end.

(** [stopAll] *)
Definition stopAll (st : state) : state :=
  add_toast (ToastSuccess (js "已尝试终止所有任务"))
    (set_runningIds (fun _ => ∅) (set_abortMap (fun _ => ∅) st)).

(** *** The refine handler of a result card *)

Definition find_task (e : env) (id : option jsstring) : option TaskInput.t :=
  match id with
  | Some i => List.find (fun t => jsstring_eqb (TaskInput.id t) i) (tasks e)
  | None => None
  end.

Definition refineMessages (task : TaskInput.t) (wp : PromptItem.t)
    (r : TaskResult.t) (note : jsstring) : list ChatMessage :=
  [ {| msg_role := system; msg_content := PromptItem.content wp |};
    {| msg_role := user;
       msg_content :=
         js "【原始素材】" ++ [LF] ++ TaskInput.raw task
         ++ [LF; LF] ++ js "【当前文案】" ++ [LF] ++ or_empty (TaskResult.writeOutput r)
         ++ [LF; LF] ++ js "【修改指令】" ++ [LF] ++ note
         ++ [LF; LF] ++ js "【要求】直接输出最终文案，不要包含任何思考、解释或额外说明。" |} ].

Definition refine (e : env) (net : network) (r : TaskResult.t) (st : state) : state :=
  let rid := TaskResult.id r in
  match trim (or_empty (refineNotes e !! rid)) with
  | [] => add_toast (ToastError (js "请先填写追加指令")) st
  | note =>
    let found :=
      match find_task e (TaskResult.parentId r) with
      | Some t => Some t
      | None => find_task e (Some rid)
      end in
    match found with
    | None => add_toast (ToastError (js "未找到对应条目，无法微调")) st
    | Some task =>
      match apiProfiles_write e with
      | None => add_toast (ToastError (js "请先配置文案生成 API")) st
      | Some wcfg =>
        match resolveWritePrompt e task with
        | None => add_toast (ToastError (js "未找到写作 Prompt")) st
        | Some wp =>
          let st := set_stages (insert rid (js "微调中")) st in
          let call := refine_call net {| config := wcfg;
                                         messages := refineMessages task wp r note |} in
          let body :=
            newOut <~ await call ;;
            update (set_results
                      (refineUpdate rid (stripThinking newOut) (settled_at call))) ;;;
            update (add_toast (ToastSuccess (js "已完成微调"))) in
          let st :=
            match body st with
            | (Normal _, st1) => st1
            | (Throw message, st1) =>
              add_toast (ToastError (js "微调失败：" ++ error_text message)) st1
            end in
          set_stages (delete rid) st
        end
      end
    end
  end.

(** *** Vocabulary of the properties *)


(** A call that did not yield a completion. *)
Definition failed (s : settled) : Prop :=
  match outcome_of s with Resolved _ => False | _ => True end.

(** A call that was aborted through its signal. *)
Definition is_aborted (s : settled) : Prop :=
  match outcome_of s with Aborted _ => True | _ => False end.

(** The run fails at its search call or at one of its write calls. *)
Definition run_fails (e : env) (net : network) (task : TaskInput.t) : Prop :=
  (TaskInput.needsSearch task = true /\ forall req, failed (search_call net req))
  \/ (exists k, 1 <= k <= variant_count e /\ forall req, failed (write_call net req k)).

(** The search call of the run, or one of its write calls, is aborted. *)
Definition run_aborted (e : env) (net : network) (task : TaskInput.t) : Prop :=
  (TaskInput.needsSearch task = true /\ forall req, is_aborted (search_call net req))
  \/ (exists k, 1 <= k <= variant_count e
                /\ forall req, is_aborted (write_call net req k)).

(** Two states that differ at most in the stage labels. *)
Definition same_but_stages (st st1 : state) : Prop :=
  results st1 = results st /\ toasts st1 = toasts st
  /\ runningIds st1 = runningIds st /\ abortMap st1 = abortMap st.


(** *** The identifiers that [genId] makes *)












End Workbench.

(** ** Concrete inputs *)

Module Examples.

(** Three items numbered with a period, an ASCII and a full-width closing
    parenthesis. *)
Definition mixedMarkers : jsstring :=
  js "1. A" ++ [LF] ++ js "2) B" ++ [LF] ++ js "3） C".

(** Two lines that start with a digit and a vertical bar. *)
Definition pipeMarkers : jsstring := js "1|A" ++ [LF] ++ js "2|B".

Definition coverMarkdown : jsstring :=
  js "![cover](https://cdn.example.com/img/a.png)".

Definition coverUrl : jsstring := js "https://cdn.example.com/img/a.png".

(** A fenced reasoning block in front of the answer. *)
Definition fencedTrace : jsstring :=
  js "```thinking" ++ [LF] ++ js "plan" ++ [LF] ++ js "``` " ++ [LF]
  ++ js "Final answer".


(** Two lines of text with two empty lines between them. *)
Definition twoBlankLines : jsstring := js "a" ++ [LF; LF; LF] ++ js "b".

(** A browser whose stored [autoSaveNote] is not valid JSON. *)
Definition brokenStore : Storage.host :=
  {| Storage.window_defined := true;
     Storage.localStorage := {[ js "autoSaveNote" := js "tru" ]} |}.

Import Workbench.

Definition writeConfig : ModelConfig.t :=
  {| ModelConfig.name := js "writer"; ModelConfig.baseUrl := js "https://api.example.com";
     ModelConfig.apiKey := js "key"; ModelConfig.model := js "model";
     ModelConfig.thinkingFilter := None |}.

Definition writePrompt : PromptItem.t :=
  {| PromptItem.id := js "p1"; PromptItem.name := js "default";
     PromptItem.category := js "文案生成"; PromptItem.content := js "write";
     PromptItem.isDefault := None |}.

(** Settings with a write endpoint, a default write prompt, and [n] as the
    number of versions. *)
Definition settings (n : Z) : env :=
  {| apiProfiles_search := None; apiProfiles_write := Some writeConfig;
     prompts := [writePrompt]; defaultSearchPromptId := None;
     defaultWritePromptId := Some (js "p1"); globalPromptId := None;
     globalGuidance := []; writeCount := number_of_Z n; autoSaveNote := false;
     noteApi_endpoint := []; noteApi_apiKey := []; tasks := [];
     refineNotes := ∅; seen_results := []; seen_runningIds := ∅ |}.

Definition taskA : TaskInput.t :=
  {| TaskInput.id := js "a"; TaskInput.index := 1; TaskInput.title := None;
     TaskInput.tags := []; TaskInput.promptKey := None; TaskInput.guidance := None;
     TaskInput.needsSearch := false; TaskInput.raw := js "hello" |}.

Definition resolvedAt (t : N) : settled :=
  {| outcome_of := Resolved (js "out"); settled_at := t |}.

(** Every call succeeds. *)
Definition healthyNet : network :=
  {| search_call := fun _ => resolvedAt 5;
     write_call := fun _ k => resolvedAt (10 + N.of_nat k);
     refine_call := fun _ => resolvedAt 30;
     note_post := fun _ _ => resolvedAt 40 |}.

(** The second write call fails, the others succeed. *)
Definition secondFails : network :=
  {| search_call := fun _ => resolvedAt 5;
     write_call := fun _ k =>
       if (k =? 2)%nat then {| outcome_of := Rejected (js "boom"); settled_at := 12 |}
       else resolvedAt (10 + N.of_nat k);
     refine_call := fun _ => resolvedAt 30;
     note_post := fun _ _ => resolvedAt 40 |}.

(** The write calls are aborted through the signal of the item. *)
Definition abortedNet : network :=
  {| search_call := fun _ => resolvedAt 5;
     write_call := fun _ _ =>
       {| outcome_of := Aborted (js "The operation was aborted."); settled_at := 11 |};
     refine_call := fun _ => resolvedAt 30;
     note_post := fun _ _ => resolvedAt 40 |}.

Definition resultWithId (id : jsstring) : TaskResult.t :=
  {| TaskResult.id := id; TaskResult.index := 1; TaskResult.raw := js "hello";
     TaskResult.searchOutput := None; TaskResult.writeOutput := Some (js "old");
     TaskResult.createdAt := 1; TaskResult.parentId := None;
     TaskResult.variantNo := None |}.

Definition stateWith (rs : list TaskResult.t) : state :=
  {| results := rs; runningIds := ∅; stages := ∅; abortMap := ∅; toasts := [] |}.

End Examples.

(** ** Further vocabulary and functions

    The parts of the sources around the functions above: the matcher's
    progress, the line structure of the segmenter, the completion client,
    the backup of the store and the other handlers of the workbench. *)

Module Scope.
Import Regex.

(** A lower bound of the number of code units that a match consumes. *)
Fixpoint min_len (r : regex) : nat :=
  match r with
  | Chr _ | AnyChar | Class _ _ => 1
  | Seq a b => min_len a + min_len b
  | Alt a b => Nat.min (min_len a) (min_len b)
  | Rep a mn mx _ =>
      match mn, mx with
      | O, _ | _, Some O => 0
      | _, _ => min_len a
      end
  | Group _ a => min_len a
  | Empty | Bol | Eol | Look _ => 0
  end.

(** [u] occurs in [s]. *)
Definition part_of (u s : jsstring) : Prop := exists a b, s = a ++ u ++ b.

(** A matcher state of a run over [s]: the rest is a suffix of [s] and every
    capture occurs in [s]. *)
Definition state_of (s : jsstring) (st : mstate) : Prop :=
  (exists a, s = a ++ rest st)
  /\ Forall (fun c => part_of (snd c) s) (caps st).

(** [st1] lies at least [n] code units behind [st] in a run over [s]. *)
Definition reaches (s : jsstring) (n : nat) (st st1 : mstate) : Prop :=
  (exists pre, rest st = pre ++ rest st1 /\ n <= length pre)
  /\ (state_of s st -> state_of s st1).

(** Every result of the matcher went through the continuation, at a state
    at least [n] code units further on. *)
Definition advances (s : jsstring) (n : nat)
    (ma : (mstate -> option mstate) -> mstate -> option mstate) : Prop :=
  forall k st e, ma k st = Some e ->
    exists st1, k st1 = Some e /\ reaches s n st st1.

(** The matched text and the captures of a match occur in [s0]. *)
Definition match_of (s0 : jsstring) (m : rmatch_result) : Prop :=
  part_of (m_text m) s0 /\ Forall (fun c => part_of (snd c) s0) (m_caps m).

End Scope.

Module Lines.
Import Regex Text.

(** Every carriage return, with the line feed that follows it if there is
    one, becomes a line feed. *)
Fixpoint newlines (s : jsstring) : jsstring :=
  match s with
  | [] => []
  | c :: t =>
      if (c =? CR)%N
      then LF :: match t with
                 | c' :: t' => if (c' =? LF)%N then newlines t' else newlines t
                 | [] => []
                 end
      else c :: newlines t
  end.

Definition no_digit (s : jsstring) : bool := forallb (fun c => negb (is_digit c)) s.

Definition blank (s : jsstring) : bool := forallb is_white_space s.

(** The text before a position ends a line, or is empty. *)
Definition starts_line (pre : jsstring) : bool :=
  match rev pre with
  | [] => true
  | c :: _ => is_line_terminator c
  end.

(** What [anyNumberingRegex] accepts behind a line start. *)
Definition numbering_ahead (fl : flags) (x : jsstring) : bool :=
  rep_f (class_matches fl false [CSpace])
    (rep_f (class_matches fl false [CDigit])
       (fun s => match s with
                 | c :: _ => class_matches fl false (chars ".|。|)|）|、|-") c
                 | [] => false
                 end) 1 None) 0 None x.

(** Where the lines of the normalized text lie in the input. *)
Definition lines_within (s : jsstring) (lines : list jsstring) : Prop :=
  match lines with
  | [] => False
  | first :: others =>
      (exists post, s = first ++ post)
      /\ forall line, In line others ->
           exists pre post, s = pre ++ line ++ post /\ pre <> [] /\ starts_line pre = true
  end.

End Lines.

(** Text without the marks that the sanitizer looks for. *)
Module Plain.
Import Regex Text.












End Plain.

Module OpenAIScope.
Import Regex Scope OpenAI.

(** The collected locators of a scan over [text]: no duplicates, none empty,
    each a part of the text. *)
Definition collected (text : jsstring) (urls : list jsstring) : Prop :=
  List.NoDup urls /\ Forall (fun u => u <> [] /\ part_of u text) urls.

End OpenAIScope.

Module OpenAIClient.
Import Regex OpenAI.

(** The pattern of a complete endpoint: [/v1/chat/completions], followed by
    an optional slash and the end of the text, or by a question mark. *)
Definition fullEndpointRe : regex :=
  Seq (Lit "/v1/chat/completions")
      (Alt (Seq (Opt (Chr (ch "/"))) Eol) (Chr (ch "?"))).

(** A slash at the end of the text. *)
Definition trailingSlashRe : regex := Seq (Chr (ch "/")) Eol.

Definition chatPath : jsstring := js "/v1/chat/completions".

(** The address that [chatCompletion] posts to. *)
Definition chatCompletionUrl (baseUrl : jsstring) : jsstring :=
  let base := trim baseUrl in
  let isFullEndpoint := test no_flags fullEndpointRe base in
  if isFullEndpoint then base
  else replace_first no_flags trailingSlashRe [] base ++ chatPath.

(** An element of [data] in the reply of the images endpoint. *)
Record imageItem := { url : option jsstring; b64_json : option jsstring }.

Definition item_locator (it : imageItem) : jsstring :=
  match url it with
  | Some (c :: t) => c :: t
  | _ =>
      match b64_json it with
      | Some (c :: t) => js "data:image/png;base64," ++ c :: t
      | _ => []
      end
  end.

(** [Boolean] on a string. *)
Definition nonempty (s : jsstring) : bool :=
  match s with [] => false | _ => true end.

Definition noImageMessage : jsstring :=
  js "未从返回中解析到图片链接，请检查服务端返回格式或更换 response_format".

(** The second half of [imageCompletion]: the answer of the chat endpoint is
    searched for locators. *)
Definition fromChat (chat : completion jsstring) :
    option (completion (list jsstring)) :=
  match chat with
  | Throw message => Some (Throw message)
  | Normal content =>
      urls ← extractImageUrls content;
      Some match urls with
           | _ :: _ => Normal urls
           | [] =>
               if test no_flags dataPrefixRe (trim content)
               then Normal [trim content]
               else Throw noImageMessage
           end
  end.

(** [imageCompletion].  [images] is the outcome of the [try] block around
    the request to the images endpoint: an exception (a rejection of [fetch]
    or of [res.json()]), a reply that is not ok ([None]), or the elements of
    its [data].  [chat] is the outcome of [chatCompletion].  [None] when a
    scan of [extractImageUrls] does not end. *)
Definition imageCompletion (images : completion (option (list imageItem)))
    (chat : completion jsstring) : option (completion (list jsstring)) :=
  match images with
  | Normal (Some items) =>
      match List.filter nonempty (map item_locator items) with
      | [] => fromChat chat
      | urls => Some (Normal urls)
      end
  | _ => fromChat chat
  end.

(** The images endpoint delivered at least one locator. *)
Definition delivers (images : completion (option (list imageItem))) : Prop :=
  exists items, images = Normal (Some items)
                /\ Exists (fun it => item_locator it <> []) items.

End OpenAIClient.

(** ** JSON values, as [JSON.parse] returns them *)

Module Json.

(** A number is the rational that the double stands for; an object is the
    list of its fields in their order. *)
#[warnings="-register-all"]
Inductive t :=
| Null
| Bool (b : bool)
| Num (q : QArith_base.Q)
| Str (s : jsstring)
| Arr (items : list t)
| Obj (fields : list (jsstring * t)).

Definition int (n : Z) : t := Num (QArith_base.Qmake n 1).

(** [ToBoolean] *)
Definition truthy (v : t) : bool :=
  match v with
  | Null => false
  | Bool b => b
  | Num q => negb (QArith_base.Qnum q =? 0)%Z
  | Str s => match s with [] => false | _ => true end
  | Arr _ | Obj _ => true
  end.

(** The value of the field [name] of an object literal: of the fields with
    that name, [JSON.parse] keeps the last. *)
Fixpoint prop (fields : list (jsstring * t)) (name : jsstring) : option t :=
  match fields with
  | [] => None
  | (k, v) :: rest =>
      match prop rest name with
      | Some w => Some w
      | None => if jsstring_eqb k name then Some v else None
      end
  end.

(** [data.name] for a name that no array and no string has as a property of
    its own: [undefined] ([None]) on anything but an object, and a
    [TypeError] on [null]. *)
Definition get (data : t) (name : jsstring) : completion (option t) :=
  match data with
  | Null => Throw (js "TypeError")
  | Obj fields => Normal (prop fields name)
  | _ => Normal None
  end.

End Json.

Module Persist.
Import Storage.

Definition cbind {A B : Type} (c : completion A) (k : A -> completion B) :
    completion B :=
  match c with
  | Normal a => k a
  | Throw message => Throw message
  end.

(** [localStorage.setItem] of a store with room for the value. *)
Definition setItem (h : host) (key value : jsstring) : host :=
  {| window_defined := window_defined h;
     localStorage := <[key := value]> (localStorage h) |}.

Section Writing.
Context {T : Type}.
Variable JSON_stringify : T -> jsstring.

Definition writeLS (h : host) (key : PersistKey) (value : T) : host :=
  if negb (window_defined h) then h
  else setItem h (key_name key) (JSON_stringify value).
End Writing.

Definition fallback_of (key : PersistKey) : Json.t :=
  match key with
  | prompts | tasks | results | images => Json.Arr []
  | apiProfiles =>
      Json.Obj [(js "search", Json.Null); (js "write", Json.Null);
                (js "split", Json.Null); (js "image", Json.Null)]
  | defaults => Json.Obj []
  | noteApi =>
      Json.Obj [(js "endpoint", Json.Str (js "https://dinoai.chatgo.pro/openapi/text/input"));
                (js "apiKey", Json.Str [])]
  | writeCount | imageCount => Json.int 1
  | autoSaveNote => Json.Bool false
  end.

Section Bundle.
Variable JSON_parse : jsstring -> completion Json.t.
Variable JSON_stringify : Json.t -> jsstring.
Variable JSON_stringify_pretty : Json.t -> jsstring.

Definition read (h : host) (key : PersistKey) : completion Json.t :=
  readLS JSON_parse h key (fallback_of key).

Definition bundle (h : host) : completion Json.t :=
  cbind (read h prompts) (fun v_prompts =>
  cbind (read h apiProfiles) (fun v_apiProfiles =>
  cbind (read h defaults) (fun v_defaults =>
  cbind (read h noteApi) (fun v_noteApi =>
  cbind (read h tasks) (fun v_tasks =>
  cbind (read h results) (fun v_results =>
  cbind (read h images) (fun v_images =>
  cbind (read h writeCount) (fun v_writeCount =>
  cbind (read h autoSaveNote) (fun v_autoSaveNote =>
  cbind (read h imageCount) (fun v_imageCount =>
  Normal (Json.Obj
    [(js "prompts", v_prompts); (js "apiProfiles", v_apiProfiles);
     (js "defaults", v_defaults); (js "noteApi", v_noteApi);
     (js "tasks", v_tasks); (js "results", v_results);
     (js "images", v_images); (js "writeCount", v_writeCount);
     (js "autoSaveNote", v_autoSaveNote);
     (js "imageCount", v_imageCount)]))))))))))).

Definition exportAll (h : host) : completion jsstring :=
  if negb (window_defined h) then Normal (js "{}")
  else cbind (bundle h) (fun b => Normal (JSON_stringify_pretty b)).

Definition defined (v : Json.t) : bool := true.

Definition import_field (test : Json.t -> bool) (data : Json.t)
    (key : PersistKey) (h : host) : completion host :=
  cbind (Json.get data (key_name key)) (fun field =>
    Normal match field with
           | Some v => if test v then writeLS JSON_stringify h key v else h
           | None => h
           end).

Definition importAll (h : host) (json : jsstring) : completion host :=
  cbind (safeParse JSON_parse (Some json) (Json.Obj [])) (fun data =>
  cbind (import_field Json.truthy data prompts h) (fun h =>
  cbind (import_field Json.truthy data apiProfiles h) (fun h =>
  cbind (import_field Json.truthy data defaults h) (fun h =>
  cbind (import_field Json.truthy data noteApi h) (fun h =>
  cbind (import_field Json.truthy data tasks h) (fun h =>
  cbind (import_field Json.truthy data results h) (fun h =>
  cbind (import_field Json.truthy data images h) (fun h =>
  cbind (import_field defined data writeCount h) (fun h =>
  cbind (import_field defined data autoSaveNote h) (fun h =>
  import_field defined data imageCount h)))))))))).

End Bundle.

Definition imported (key : PersistKey) (v : Json.t) : bool :=
  match key with
  | writeCount | autoSaveNote | imageCount => true
  | _ => Json.truthy v
  end.

Definition is_object (v : Json.t) : bool :=
  match v with Json.Obj _ => true | _ => false end.

End Persist.

Module PersistExamples.
Import Storage Persist.

(** The compact [JSON.stringify] of a value whose numbers are integers and
    whose strings need no escape. *)
Fixpoint print (v : Json.t) : jsstring :=
  match v with
  | Json.Null => js "null"
  | Json.Bool b => if b then js "true" else js "false"
  | Json.Num q => Workbench.string_of_Z (QArith_base.Qnum q)
  | Json.Str s => 34%N :: s ++ [34%N]
  | Json.Arr items =>
      ch "[" ::
      (fix go (l : list Json.t) : jsstring :=
         match l with
         | [] => []
         | [x] => print x
         | x :: rest => print x ++ ch "," :: go rest
         end) items ++ [ch "]"]
  | Json.Obj fields =>
      ch "{" ::
      (fix go (l : list (jsstring * Json.t)) : jsstring :=
         match l with
         | [] => []
         | [(k, x)] => 34%N :: k ++ 34%N :: ch ":" :: print x
         | (k, x) :: rest => 34%N :: k ++ 34%N :: ch ":" :: print x ++ ch "," :: go rest
         end) fields ++ [ch "}"]
  end.

(** A [JSON.parse] that knows the documents of a finite list, in their
    compact form, and rejects every other text. *)
Definition parse_among (documents : list Json.t) (raw : jsstring) :
    completion Json.t :=
  match find (fun v => jsstring_eqb (print v) raw) documents with
  | Some v => Normal v
  | None => Throw (js "SyntaxError")
  end.

Definition print_bool (b : bool) : jsstring := print (Json.Bool b).

(** A backup that holds two settings and an explicit null. *)
Definition partialBackup : Json.t :=
  Json.Obj [(js "autoSaveNote", Json.Bool false); (js "prompts", Json.Arr []);
            (js "tasks", Json.Null)].

(** A browser that stores one setting and one list. *)
Definition smallStore : host :=
  {| window_defined := true;
     localStorage := {[ js "autoSaveNote" := js "true"; js "tasks" := js "null" ]} |}.

(** What [exportAll] collects from [smallStore]. *)
Definition smallBundle : Json.t :=
  Json.Obj
    [(js "prompts", Json.Arr []); (js "apiProfiles", fallback_of apiProfiles);
     (js "defaults", Json.Obj []); (js "noteApi", fallback_of noteApi);
     (js "tasks", Json.Null); (js "results", Json.Arr []);
     (js "images", Json.Arr []); (js "writeCount", Json.int 1);
     (js "autoSaveNote", Json.Bool true); (js "imageCount", Json.int 1)].

Definition smallParse : jsstring -> completion Json.t :=
  parse_among [Json.Bool true; Json.Null; smallBundle].

End PersistExamples.

Module Runs.
Import Text Workbench.

Definition singleResult (task : TaskInput.t) (searchOutput : option jsstring)
    (content : jsstring) (now : N) : TaskResult.t :=
  {| TaskResult.id := TaskInput.id task; TaskResult.index := TaskInput.index task;
     TaskResult.raw := TaskInput.raw task; TaskResult.searchOutput := searchOutput;
     TaskResult.writeOutput := Some (Text.stripThinking content);
     TaskResult.createdAt := now; TaskResult.parentId := None;
     TaskResult.variantNo := None |}.

Definition variantResult (task : TaskInput.t) (searchOutput : option jsstring)
    (k : nat) (content : jsstring) (now : N) : TaskResult.t :=
  {| TaskResult.id := variant_id (TaskInput.id task) k;
     TaskResult.index := TaskInput.index task;
     TaskResult.raw := TaskInput.raw task; TaskResult.searchOutput := searchOutput;
     TaskResult.writeOutput := Some (Text.stripThinking content);
     TaskResult.createdAt := now; TaskResult.parentId := Some (TaskInput.id task);
     TaskResult.variantNo := Some k |}.

Definition writeRequest (e : env) (wcfg : ModelConfig.t) (task : TaskInput.t)
    (wp : PromptItem.t) (searchOutput : option jsstring) : request :=
  {| config := wcfg; messages := writeMessages e task wp searchOutput |}.

Definition searchRequest (scfg : ModelConfig.t) (sp : PromptItem.t)
    (task : TaskInput.t) : request :=
  {| config := scfg;
     messages := [ {| msg_role := system; msg_content := PromptItem.content sp |};
                   {| msg_role := user; msg_content := TaskInput.raw task |} ] |}.

(** The search stage went through: either it was not asked for, or its call
    resolved with [content]; [so] is what reaches the write stage. *)
Inductive search_done (e : env) (net : network) (task : TaskInput.t) :
    option jsstring -> Prop :=
| search_skipped :
    TaskInput.needsSearch task = false -> search_done e net task None
| search_resolved scfg sp content :
    TaskInput.needsSearch task = true ->
    apiProfiles_search e = Some scfg -> selectedSearchPrompt e = Some sp ->
    outcome_of (search_call net (searchRequest scfg sp task)) = Resolved content ->
    search_done e net task (Some (Text.stripThinking content)).

Definition index_le (a b : TaskResult.t) : Prop :=
  (TaskResult.index a <= TaskResult.index b)%Z.

Definition index_variant_le (a b : TaskResult.t) : Prop :=
  (TaskResult.index a < TaskResult.index b)%Z
  \/ (TaskResult.index a = TaskResult.index b /\ (variant_rank a <= variant_rank b)%Z).

(** The entries that the single-version update keeps. *)
Definition keptBySingle (tr : TaskResult.t) (prev : list TaskResult.t) :=
  List.filter (fun x => negb (jsstring_eqb (TaskResult.id x) (TaskResult.id tr))) prev.

(** The entries that the multi-version update keeps. *)
Definition keptByVariants (taskId : jsstring) (prev : list TaskResult.t) :=
  List.filter
    (fun x => negb (jsstring_eqb (TaskResult.id x) taskId)
              && negb (bool_decide (TaskResult.parentId x = Some taskId))) prev.

(** The task that a result belongs to: by its parent id, else by its id. *)
Definition refineTask (e : env) (r : TaskResult.t) : option TaskInput.t :=
  match find_task e (TaskResult.parentId r) with
  | Some t => Some t
  | None => find_task e (Some (TaskResult.id r))
  end.

Definition refineNote (e : env) (r : TaskResult.t) : jsstring :=
  trim (or_empty (refineNotes e !! TaskResult.id r)).

(** [old] and [new] agree on everything but the output and its time. *)
Definition same_entry_but_output (old new : TaskResult.t) : Prop :=
  TaskResult.id new = TaskResult.id old
  /\ TaskResult.index new = TaskResult.index old
  /\ TaskResult.raw new = TaskResult.raw old
  /\ TaskResult.searchOutput new = TaskResult.searchOutput old
  /\ TaskResult.parentId new = TaskResult.parentId old
  /\ TaskResult.variantNo new = TaskResult.variantNo old.

Definition with_autoSaveNote (b : bool) (e : env) : env :=
  {| apiProfiles_search := apiProfiles_search e; apiProfiles_write := apiProfiles_write e;
     prompts := prompts e; defaultSearchPromptId := defaultSearchPromptId e;
     defaultWritePromptId := defaultWritePromptId e; globalPromptId := globalPromptId e;
     globalGuidance := globalGuidance e; writeCount := writeCount e; autoSaveNote := b;
     noteApi_endpoint := noteApi_endpoint e; noteApi_apiKey := noteApi_apiKey e;
     tasks := tasks e; refineNotes := refineNotes e; seen_results := seen_results e;
     seen_runningIds := seen_runningIds e |}.

(** The run cannot start a call: the write endpoint is missing, or the
    search stage is asked for without its endpoint or its prompt, or no
    search is asked for and no write prompt resolves. *)
Definition config_error (e : env) (task : TaskInput.t) : Prop :=
  apiProfiles_write e = None
  \/ (TaskInput.needsSearch task = true
      /\ (apiProfiles_search e = None \/ selectedSearchPrompt e = None))
  \/ (TaskInput.needsSearch task = false /\ resolveWritePrompt e task = None).

(** The tracking of the other items is the same in both states. *)
Definition same_tracking_of_others (id : jsstring) (st st1 : state) : Prop :=
  forall j, j <> id ->
    abortMap st1 !! j = abortMap st !! j /\ stages st1 !! j = stages st !! j.

(** The update that [applyGlobalToAll] passes to [setTasks]. *)
Definition applyGlobalToAll (globalNeedsSearch : bool) (e : env)
    (prev : list TaskInput.t) : list TaskInput.t :=
  map (fun t =>
         {| TaskInput.id := TaskInput.id t; TaskInput.index := TaskInput.index t;
            TaskInput.title := TaskInput.title t; TaskInput.tags := TaskInput.tags t;
            TaskInput.promptKey :=
              match globalPromptId e with
              | Some g => Some g
              | None => TaskInput.promptKey t
              end;
            TaskInput.guidance :=
              match globalGuidance e with
              | [] => TaskInput.guidance t
              | g => Some g
              end;
            TaskInput.needsSearch := globalNeedsSearch;
            TaskInput.raw := TaskInput.raw t |}) prev.

(** What [handleSplit] reads besides the settings of [env]: the text of the
    input box, the two switches, the split endpoint and prompt, the call to
    the provider, and the identifiers that the successive calls of [genId]
    return. *)
Record splitInput :=
  { rawInput : jsstring;
    autoSplitByAI : bool;
    globalNeedsSearch : bool;
    apiProfiles_split : option ModelConfig.t;
    defaultSplitPromptId : option jsstring;
    split_call : request -> settled;
    genId : nat -> jsstring }.

Definition selectedSplitPrompt (e : env) (i : splitInput) : option PromptItem.t :=
  find_prompt e (defaultSplitPromptId i).

(** The [try] block of [handleSplit]: the source text that the provider
    proposes, or the error that is caught. *)
Definition aiSplit (e : env) (i : splitInput) : completion jsstring :=
  match apiProfiles_split i with
  | None => Throw (js "未配置拆分 API")
  | Some cfg =>
    match selectedSplitPrompt e i with
    | None => Throw (js "未设置默认拆分 Prompt，请在‘提示词管理’设置默认项")
    | Some sp =>
      let msgs := [ {| msg_role := system; msg_content := PromptItem.content sp |};
                    {| msg_role := user; msg_content := rawInput i |} ] in
      match outcome_of (split_call i {| config := cfg; messages := msgs |}) with
      | Resolved out =>
        Normal (stripThinking match out with [] => rawInput i | _ => out end)
      | Rejected message | Aborted message => Throw message
      end
    end
  end.

Definition newTasks (e : env) (i : splitInput) (blocks : list block) :
    list TaskInput.t :=
  imap (fun n b =>
          {| TaskInput.id := genId i n; TaskInput.index := Z.of_nat (n + 1);
             TaskInput.title := None; TaskInput.tags := [];
             TaskInput.promptKey := option_map PromptItem.id (selectedWritePrompt e);
             TaskInput.guidance := Some [];
             TaskInput.needsSearch := globalNeedsSearch i;
             TaskInput.raw := text b |}) blocks.

Definition aiFailedToast (message : jsstring) : toast :=
  ToastError (js "AI 拆分失败：" ++ error_text message ++ js "，将使用本地规则尝试拆分").

Definition nothingToSplitToast : toast := ToastError (js "未检测到可拆分的内容").

Definition splitDoneToast (n : nat) : toast :=
  ToastSuccess (js "已拆分为 " ++ string_of_nat n ++ js " 条").

(** [handleSplit]: the new task list ([None] when [setTasks] is not called)
    and the notifications, in their order. *)
Definition handleSplit (e : env) (i : splitInput) :
    option (list TaskInput.t) * list toast :=
  let '(source, said) :=
    if autoSplitByAI i then
      match aiSplit e i with
      | Normal source => (source, [])
      | Throw message => (rawInput i, [aiFailedToast message])
      end
    else (rawInput i, []) in
  let blocks := splitNumberedBlocks source in
  match blocks with
  | [] => (None, said ++ [nothingToSplitToast])
  | _ =>
    let tasks := newTasks e i blocks in
    (Some tasks, said ++ [splitDoneToast (length tasks)])
  end.

Definition with_autoSplitByAI (b : bool) (i : splitInput) : splitInput :=
  {| rawInput := rawInput i; autoSplitByAI := b;
     globalNeedsSearch := globalNeedsSearch i;
     apiProfiles_split := apiProfiles_split i;
     defaultSplitPromptId := defaultSplitPromptId i;
     split_call := split_call i; genId := genId i |}.

End Runs.

(** ** Further example values *)

Module MoreExamples.
Import Workbench Examples Runs.

(** Two lines of prose, separated by a carriage return and a line feed. *)
Definition plainNote : jsstring :=
  js " a first line" ++ [CR; LF] ++ js "and a second one ".

(** An item that asks for the search stage. *)
Definition taskWithSearch : TaskInput.t :=
  {| TaskInput.id := js "s"; TaskInput.index := 2; TaskInput.title := None;
     TaskInput.tags := []; TaskInput.promptKey := None; TaskInput.guidance := None;
     TaskInput.needsSearch := true; TaskInput.raw := js "topic" |}.






(** An item with a guidance of its own, in a session that has a batch
    guidance too. *)
Definition guidedTask : TaskInput.t :=
  {| TaskInput.id := js "g"; TaskInput.index := 3; TaskInput.title := None;
     TaskInput.tags := []; TaskInput.promptKey := None;
     TaskInput.guidance := Some (js "warm tone");
     TaskInput.needsSearch := false; TaskInput.raw := js "hello" |}.

Definition guidedSettings : env :=
  {| apiProfiles_search := None; apiProfiles_write := Some writeConfig;
     prompts := [writePrompt]; defaultSearchPromptId := None;
     defaultWritePromptId := Some (js "p1"); globalPromptId := None;
     globalGuidance := js "formal"; writeCount := number_of_Z 1;
     autoSaveNote := false; noteApi_endpoint := []; noteApi_apiKey := [];
     tasks := []; refineNotes := ∅; seen_results := []; seen_runningIds := ∅ |}.

(** Settings of a session that holds [taskA] and a refinement note for its
    result. *)
Definition refineSettings : env :=
  {| apiProfiles_search := None; apiProfiles_write := Some writeConfig;
     prompts := [writePrompt]; defaultSearchPromptId := None;
     defaultWritePromptId := Some (js "p1"); globalPromptId := None;
     globalGuidance := []; writeCount := number_of_Z 1; autoSaveNote := false;
     noteApi_endpoint := []; noteApi_apiKey := []; tasks := [taskA];
     refineNotes := {[ js "a" := js " shorter " ]}; seen_results := [];
     seen_runningIds := ∅ |}.

(** The input box holds [plainNote]; the split by the provider is switched
    on, but no split endpoint is configured. *)
Definition splitWithoutEndpoint : splitInput :=
  {| rawInput := plainNote; autoSplitByAI := true; globalNeedsSearch := false;
     apiProfiles_split := None; defaultSplitPromptId := None;
     split_call := fun _ => resolvedAt 3;
     genId := fun n => js "id-" ++ string_of_nat n |}.

End MoreExamples.

(** * Properties *)

(** ** Trimming *)

Lemma trimStart_suffix (s : jsstring) : exists a, s = a ++ trimStart s.
Proof.
  induction s as [|c t [a IH]]; simpl.
  - exists []. reflexivity.
  - destruct (is_white_space c).
    + exists (c :: a). simpl. f_equal. exact IH.
    + exists []. reflexivity.
Qed.

Lemma trimStart_head (s : jsstring) (c : N) :
  hd_error (trimStart s) = Some c -> is_white_space c = false.
Proof.
  induction s as [|x t IH]; simpl; [discriminate|].
  destruct (is_white_space x) eqn:E; [exact IH|].
  simpl. intros [= <-]. exact E.
Qed.

Lemma trimStart_fixed (s : jsstring) :
  (forall c, hd_error s = Some c -> is_white_space c = false) -> trimStart s = s.
Proof.
  destruct s as [|x t]; simpl; [reflexivity|].
  intros H. rewrite (H x eq_refl). reflexivity.
Qed.

Lemma trimEnd_prefix (s : jsstring) : exists b, s = trimEnd s ++ b.
Proof.
  unfold trimEnd. destruct (trimStart_suffix (rev s)) as [a Ha].
  exists (rev a). rewrite <- rev_app_distr, <- Ha. symmetry. apply rev_involutive.
Qed.

Lemma trimEnd_last (s : jsstring) (c : N) :
  hd_error (rev (trimEnd s)) = Some c -> is_white_space c = false.
Proof. unfold trimEnd. rewrite rev_involutive. apply trimStart_head. Qed.

Lemma trimEnd_fixed (s : jsstring) :
  (forall c, hd_error (rev s) = Some c -> is_white_space c = false) -> trimEnd s = s.
Proof.
  intros H. unfold trimEnd. rewrite (trimStart_fixed _ H). apply rev_involutive.
Qed.

Lemma hd_error_prefix (s b : jsstring) (c : N) :
  hd_error s = Some c -> hd_error (s ++ b) = Some c.
Proof. destruct s; simpl; [discriminate|auto]. Qed.

Lemma trim_no_outer_space (s : jsstring) : no_outer_space (trim s).
Proof.
  unfold trim. split.
  - intros c Hc. destruct (trimEnd_prefix (trimStart s)) as [b Hb].
    apply (trimStart_head s). rewrite Hb. apply hd_error_prefix. exact Hc.
  - apply trimEnd_last.
Qed.

Lemma trim_fixed (s : jsstring) : no_outer_space s -> trim s = s.
Proof.
  intros [Hh Hl]. unfold trim. rewrite (trimStart_fixed _ Hh). apply trimEnd_fixed, Hl.
Qed.

Lemma trim_idempotent (s : jsstring) : trim (trim s) = trim s.
Proof. apply trim_fixed, trim_no_outer_space. Qed.

Lemma trim_infix (s : jsstring) : exists a b, s = a ++ trim s ++ b.
Proof.
  destruct (trimStart_suffix s) as [a Ha].
  destruct (trimEnd_prefix (trimStart s)) as [b Hb].
  exists a, b. unfold trim. rewrite <- Hb. exact Ha.
Qed.

(** ** Quantified one-unit patterns *)

Module RegexFacts.
Import Regex.

Lemma rep_f_eq P f mn mx s :
  rep_f P f mn mx s
  = match mx with
    | Some O => f s
    | _ =>
      ((mn =? 0)%nat && f s)
      || match s with
         | c :: t => P c && rep_f P f (pred mn) (pred_max mx) t
         | [] => false
         end
    end.
Proof. destruct s; reflexivity. Qed.

Lemma some_or_else {A} (a b : option A) :
  succeeds (match a with Some e => Some e | None => b end) = succeeds a || succeeds b.
Proof. destruct a; reflexivity. Qed.

Lemma rest_only_Some : rest_only Some (fun _ => true).
Proof. intros st. reflexivity. Qed.

Lemma single_unit_Class fl neg items :
  single_unit (rmatch fl (Class neg items)) (class_matches fl neg items).
Proof. intros d st. reflexivity. Qed.

Lemma repeat_matcher_some ma P gs greedy k f :
  single_unit ma P -> rest_only k f ->
  forall fuel mn mx st, length (rest st) < fuel ->
  succeeds (repeat_matcher ma gs greedy k fuel mn mx st) = rep_f P f mn mx (rest st).
Proof.
  intros Hma Hk fuel. induction fuel as [|fuel IH]; intros mn mx st Hf; [lia|].
  assert (Hiter : forall d,
    (forall st1, length (rest st1) < length (rest st) ->
       succeeds (d st1) = rep_f P f (pred mn) (pred_max mx) (rest st1)) ->
    succeeds (ma d (clear_caps gs st))
    = match rest st with
      | c :: t => P c && rep_f P f (pred mn) (pred_max mx) t
      | [] => false
      end).
  { intros d Hd. rewrite Hma.
    assert (Hr : rest (clear_caps gs st) = rest st) by (destruct gs; reflexivity).
    rewrite Hr. destruct (rest st) as [|c t] eqn:E; [reflexivity|].
    destruct (P c); [|reflexivity]. rewrite Hd; [reflexivity|]. simpl. lia. }
  assert (Hd : forall st1, length (rest st1) < length (rest st) ->
    succeeds (if (mn =? 0)%nat && (length (rest st1) =? length (rest st))%nat then None
          else repeat_matcher ma gs greedy k fuel (pred mn) (pred_max mx) st1)
    = rep_f P f (pred mn) (pred_max mx) (rest st1)).
  { intros st1 Hl.
    replace (length (rest st1) =? length (rest st))%nat with false
      by (symmetry; apply Nat.eqb_neq; lia).
    rewrite andb_false_r. apply IH. lia. }
  cbn [repeat_matcher]. rewrite rep_f_eq.
  destruct mx as [[|mx]|]; [apply Hk| |];
    (destruct mn as [|mn];
     [change (0 <? 0)%nat with false; cbv iota;
      destruct greedy; rewrite some_or_else, Hk;
        [rewrite orb_comm|]; (apply (f_equal2 orb); [reflexivity|exact (Hiter _ Hd)])
     |change (0 <? S mn)%nat with true; cbv iota; exact (Hiter _ Hd)]).
Qed.

Lemma rmatch_Rep_some fl a P mn mx g k f :
  single_unit (rmatch fl a) P -> rest_only k f ->
  rest_only (rmatch fl (Rep a mn mx g) k) (rep_f P f mn mx).
Proof.
  intros Ha Hk st. cbn [rmatch].
  apply (repeat_matcher_some _ P _ _ _ f Ha Hk). lia.
Qed.

Lemma rmatch_Group_some fl i a k f F :
  (forall k', rest_only k' f -> rest_only (rmatch fl a k') F) ->
  rest_only k f -> rest_only (rmatch fl (Group i a) k) F.
Proof.
  intros Ha Hk st. cbn [rmatch]. apply Ha. intros st1. rewrite Hk. reflexivity.
Qed.

Lemma within_pred n mx :
  mx <> Some 0 -> within (S n) mx <-> within n (pred_max mx).
Proof. destruct mx as [[|m]|]; simpl; [congruence|lia|tauto]. Qed.

Lemma rep_f_spec P f s : forall mn mx, within mn mx ->
  rep_f P f mn mx s = true <->
  exists a b, s = a ++ b /\ forallb P a = true /\ mn <= length a
              /\ within (length a) mx /\ f b = true.
Proof.
  induction s as [|c t IH]; intros mn mx Hle; rewrite rep_f_eq.
  - destruct (decide (mx = Some 0)) as [->|Hmx].
    + simpl in Hle. split.
      * intros H. exists [], []. repeat split; simpl; auto; lia.
      * intros (a & b & E & _ & _ & _ & Hf).
        symmetry in E. apply app_eq_nil in E as [-> ->]. exact Hf.
    + replace (match mx with Some 0 => f [] | _ => (mn =? 0)%nat && f [] || false end)
        with ((mn =? 0)%nat && f []) by (destruct mx as [[|m]|]; rewrite ?orb_false_r; congruence).
      rewrite andb_true_iff, Nat.eqb_eq. split.
      * intros [-> Hf]. exists [], []. repeat split; simpl; auto;
          try (destruct mx; simpl; auto; lia).
      * intros (a & b & E & _ & Hm & _ & Hf).
        symmetry in E. apply app_eq_nil in E as [-> ->]. simpl in Hm. split; [lia|exact Hf].
  - destruct (decide (mx = Some 0)) as [->|Hmx].
    + simpl in Hle. split.
      * intros H. exists [], (c :: t). repeat split; simpl; auto; lia.
      * intros (a & b & E & _ & _ & Ha & Hf). simpl in Ha.
        destruct a; [|simpl in Ha; lia]. simpl in E. rewrite E. exact Hf.
    + replace (match mx with
               | Some 0 => f (c :: t)
               | _ => (mn =? 0)%nat && f (c :: t)
                      || P c && rep_f P f (pred mn) (pred_max mx) t
               end)
        with ((mn =? 0)%nat && f (c :: t) || P c && rep_f P f (pred mn) (pred_max mx) t)
        by (destruct mx as [[|m]|]; congruence).
      assert (Hle' : within (pred mn) (pred_max mx)).
      { destruct mn; [destruct mx as [[|m]|]; simpl; auto; lia|].
        apply within_pred; assumption. }
      rewrite orb_true_iff, !andb_true_iff, Nat.eqb_eq, (IH _ _ Hle'). split.
      * intros [[-> Hf]|[Hc (a & b & -> & Ha & Hm & Hx & Hf)]].
        -- exists [], (c :: t). repeat split; simpl; auto;
             try (destruct mx; simpl; auto; lia).
        -- exists (c :: a), b. repeat split; simpl; auto.
           ++ rewrite Hc, Ha. reflexivity.
           ++ lia.
           ++ apply within_pred; assumption.
      * intros (a & b & E & Ha & Hm & Hx & Hf). destruct a as [|c' a].
        -- left. simpl in E, Hm. rewrite E. split; [lia|exact Hf].
        -- right. simpl in E. injection E as <- ->. simpl in Ha, Hm.
           apply andb_true_iff in Ha as [Hc Ha]. split; [exact Hc|].
           exists a, b. repeat split; auto; [lia|].
           apply within_pred; assumption.
Qed.

Lemma rep_f_ext P Q f g s : (forall c, P c = Q c) -> (forall x, f x = g x) ->
  forall mn mx, rep_f P f mn mx s = rep_f Q g mn mx s.
Proof.
  intros HP Hf. induction s as [|c t IH]; intros mn mx;
    rewrite (rep_f_eq P f mn mx), (rep_f_eq Q g mn mx).
  - rewrite Hf. reflexivity.
  - rewrite Hf, HP, IH. reflexivity.
Qed.

Lemma search_Bol_later fl r s : multiline fl = false ->
  forall c, search fl (Seq Bol r) (Some c) s = None.
Proof.
  intros Hm. induction s as [|x t IH]; intros c; cbn [search];
    unfold exec_at; cbn [rmatch]; unfold at_bol; cbn [prev]; rewrite Hm; cbn [andb].
  - reflexivity.
  - rewrite IH. reflexivity.
Qed.

Lemma test_Bol fl r s : multiline fl = false ->
  test fl (Seq Bol r) s = succeeds (rmatch fl r Some {| prev := None; rest := s; caps := [] |}).
Proof.
  intros Hm. unfold test. destruct s as [|x t]; cbn [search]; unfold exec_at;
    cbn [rmatch]; unfold at_bol; cbn [prev];
    destruct (rmatch fl r Some _); try reflexivity.
  rewrite (search_Bol_later fl r t Hm). reflexivity.
Qed.

End RegexFacts.

(** ** The segmenter and the sanitizer *)

Module TextFacts.
Import Regex Text.

(** *** The last step of the sanitizer *)

Lemma chr_LF_fails (d : mstate -> option mstate) p v cs :
  starts_with_LF v = false ->
  rmatch no_flags (Chr LF) d {| prev := p; rest := v; caps := cs |} = None.
Proof.
  destruct v as [|c t]; cbn [rmatch rest starts_with_LF]; [reflexivity|].
  unfold canonicalize; cbn [ignoreCase no_flags andb]. intros H.
  rewrite N.eqb_sym, H. reflexivity.
Qed.

Lemma chr_LF_steps (d : mstate -> option mstate) p t cs :
  rmatch no_flags (Chr LF) d {| prev := p; rest := LF :: t; caps := cs |}
  = d {| prev := Some LF; rest := t; caps := cs |}.
Proof.
  cbn [rmatch rest]. unfold canonicalize; cbn [ignoreCase no_flags andb].
  rewrite N.eqb_refl. reflexivity.
Qed.

Lemma blank_run_loop (n : nat) : forall fuel mn v p cs,
  starts_with_LF v = false -> n < fuel ->
  repeat_matcher (rmatch no_flags (Chr LF)) [] true Some fuel mn None
    {| prev := p; rest := repeat LF n ++ v; caps := cs |}
  = if (mn <=? n)%nat
    then Some {| prev := match n with O => p | S _ => Some LF end; rest := v; caps := cs |}
    else None.
Proof.
  induction n as [|n IH]; intros fuel mn v p cs Hv Hf;
    (destruct fuel as [|fuel]; [lia|]).
  - cbn [repeat_matcher repeat app clear_caps].
    rewrite (chr_LF_fails _ _ _ _ Hv).
    destruct mn; reflexivity.
  - cbn [repeat_matcher repeat app clear_caps].
    rewrite chr_LF_steps. cbn [rest length].
    replace (length (repeat LF n ++ v) =? S (length (repeat LF n ++ v)))%nat with false.
    2:{ symmetry. apply Nat.eqb_neq. lia. }
    rewrite andb_false_r.
    rewrite IH by (auto; lia).
    destruct mn as [|mn]; cbn [Nat.ltb Nat.leb pred pred_max].
    + destruct n; reflexivity.
    + destruct (mn <=? n)%nat eqn:E; try reflexivity.
      destruct n; reflexivity.
Qed.

Lemma blank_run_exec (n : nat) (v : jsstring) (p : option N) :
  starts_with_LF v = false ->
  exec_at no_flags blankRunRegex p (repeat LF n ++ v)
  = if (3 <=? n)%nat then Some {| prev := Some LF; rest := v; caps := [] |} else None.
Proof.
  intros Hv. unfold exec_at, blankRunRegex. cbn [rmatch groups_of rest].
  rewrite blank_run_loop
    by (auto; rewrite List.length_app, List.repeat_length; lia).
  destruct n as [|[|[|n]]]; reflexivity.
Qed.

Lemma collapse_skip (w : jsstring) : forall p v, w <> [] ->
  collapse_from (length w) p (w ++ v) = collapse_from 0 (Some (List.last w LF)) v.
Proof.
  induction w as [|c w IH]; intros p v Hw; [congruence|].
  destruct w as [|c' w].
  - reflexivity.
  - change (collapse_from (length (c' :: w)) (Some c) ((c' :: w) ++ v)
            = collapse_from 0 (Some (List.last (c' :: w) LF)) v).
    apply IH. discriminate.
Qed.

Lemma collapse_nil p : collapse_from 0 p [] = [].
Proof. reflexivity. Qed.

Lemma collapse_other c t p :
  (c =? LF)%N = false -> collapse_from 0 p (c :: t) = c :: collapse_from 0 (Some c) t.
Proof.
  intros H. unfold collapse_from. cbn [replace_go].
  pose proof (blank_run_exec 0 (c :: t) p H) as E. cbn [repeat app Nat.leb] in E.
  rewrite E. reflexivity.
Qed.

Lemma collapse_run (n : nat) (v : jsstring) (p : option N) :
  starts_with_LF v = false -> 0 < n ->
  collapse_from 0 p (repeat LF n ++ v)
  = repeat LF (Nat.min n 2) ++ collapse_from 0 (Some LF) v.
Proof.
  intros Hv Hn. destruct n as [|[|[|n]]]; [lia| | |].
  - unfold collapse_from. cbn [repeat app replace_go].
    pose proof (blank_run_exec 1 v p Hv) as E. cbn [repeat app Nat.leb] in E.
    rewrite E. reflexivity.
  - unfold collapse_from. cbn [repeat app replace_go].
    pose proof (blank_run_exec 2 v p Hv) as E. cbn [repeat app Nat.leb] in E.
    rewrite E.
    pose proof (blank_run_exec 1 v (Some LF) Hv) as E1. cbn [repeat app Nat.leb] in E1.
    rewrite E1. reflexivity.
  - pose proof (blank_run_exec (S (S (S n))) v p Hv) as E.
    change (repeat LF (S (S (S n))) ++ v)
      with (LF :: (repeat LF (S (S n)) ++ v)) in E |- *.
    cbn [Nat.leb] in E.
    pose proof (collapse_skip (repeat LF (S (S n))) (Some LF) v) as K.
    set (w := repeat LF (S (S n))) in *.
    unfold collapse_from in *. cbn [replace_go]. rewrite E. cbn [rest length].
    replace (S (length (w ++ v)) - length v) with (S (length w))
      by (rewrite List.length_app; lia).
    rewrite K by discriminate.
    replace (List.last w LF) with LF; [reflexivity|].
    subst w. clear. generalize (S n) as m.
    induction m as [|m IHm]; [reflexivity|].
    change (repeat LF (S (S m))) with (LF :: repeat LF (S m)).
    rewrite IHm at 1. reflexivity.
Qed.

Lemma ends_with_LF_app (a b : jsstring) :
  b <> [] -> ends_with_LF (a ++ b) = ends_with_LF b.
Proof.
  intros Hb. unfold ends_with_LF. rewrite rev_app_distr.
  destruct (rev b) as [|c r] eqn:E; [|reflexivity].
  apply (f_equal (@rev N)) in E. rewrite rev_involutive in E. contradiction.
Qed.

Lemma leading_run (s : jsstring) :
  exists n v, s = repeat LF n ++ v /\ starts_with_LF v = false.
Proof.
  induction s as [|c t (n & v & -> & Hv)].
  - exists 0, []. split; reflexivity.
  - destruct (c =? LF)%N eqn:E.
    + apply N.eqb_eq in E. subst c. exists (S n), v. split; [reflexivity|exact Hv].
    + exists 0, (c :: repeat LF n ++ v). split; [reflexivity|exact E].
Qed.

(** Induction over a string run by run: a code unit other than a line feed,
    or a maximal run of line feeds, at a time. *)
Lemma run_ind (P : jsstring -> Prop) :
  P [] ->
  (forall c t, (c =? LF)%N = false -> P t -> P (c :: t)) ->
  (forall n v, 0 < n -> starts_with_LF v = false -> P v -> P (repeat LF n ++ v)) ->
  forall s, P s.
Proof.
  intros Hnil Hother Hrun s.
  remember (length s) as m eqn:Hm. revert s Hm.
  induction m as [m IH] using lt_wf_ind. intros s ->.
  destruct (leading_run s) as (n & v & -> & Hv).
  destruct n as [|n].
  - destruct v as [|c t]; [exact Hnil|].
    apply Hother; [exact Hv|]. apply (IH (length t)); [simpl; lia|reflexivity].
  - apply Hrun; [lia|exact Hv|].
    apply (IH (length v)); [|reflexivity].
    rewrite List.length_app, List.repeat_length. lia.
Qed.

Lemma collapse_indep (s : jsstring) (p p' : option N) :
  collapse_from 0 p s = collapse_from 0 p' s.
Proof.
  destruct (leading_run s) as (n & v & -> & Hv). destruct n as [|n].
  - destruct v as [|c t]; [reflexivity|].
    cbn [repeat app]. rewrite !collapse_other by exact Hv. reflexivity.
  - rewrite !collapse_run by (auto; lia). reflexivity.
Qed.

Lemma collapse_app (u : jsstring) :
  ends_with_LF u = false ->
  forall x p, collapse_from 0 p (u ++ x) = collapse_from 0 p u ++ collapse_from 0 p x.
Proof.
  induction u as [|c t Hc IH|n v Hn Hv IH] using run_ind; intros Hu x p.
  - reflexivity.
  - cbn [app]. rewrite !collapse_other by exact Hc. cbn [app]. f_equal.
    rewrite (collapse_indep x p (Some c)). apply IH.
    destruct t as [|c' t]; [reflexivity|].
    rewrite <- Hu. symmetry. apply (ends_with_LF_app [c]). discriminate.
  - assert (Hne : v <> []).
    { intros ->. rewrite app_nil_r in Hu. unfold ends_with_LF in Hu.
      destruct n as [|n]; [lia|]. rewrite rev_repeat in Hu. discriminate Hu. }
    rewrite <- List.app_assoc.
    rewrite !collapse_run; auto.
    2:{ destruct v; [congruence|exact Hv]. }
    rewrite <- List.app_assoc. f_equal.
    rewrite (collapse_indep x p (Some LF)). apply IH.
    rewrite <- Hu. symmetry. apply ends_with_LF_app, Hne.
Qed.

Lemma has_blank_run_infix (a s b : jsstring) :
  has_blank_run s -> has_blank_run (a ++ s ++ b).
Proof.
  intros (u & v & ->). exists (a ++ u), (v ++ b).
  rewrite <- !List.app_assoc. reflexivity.
Qed.

Lemma has_blank_run_cons (c : N) (x : jsstring) :
  (c =? LF)%N = false -> has_blank_run (c :: x) -> has_blank_run x.
Proof.
  intros Hc (u & v & E). destruct u as [|a u]; simpl in E.
  - injection E as -> _. rewrite N.eqb_refl in Hc. discriminate.
  - injection E as _ ->. exists u, v. reflexivity.
Qed.

Lemma has_blank_run_short (m : nat) (x : jsstring) :
  m <= 2 -> starts_with_LF x = false ->
  has_blank_run (repeat LF m ++ x) -> has_blank_run x.
Proof.
  intros Hm Hx (u & v & E).
  destruct m as [|[|[|m]]]; [| | |lia]; cbn [repeat app] in E.
  - exists u, v. exact E.
  - destruct u as [|a u]; simplify_eq/=. exists u, v. reflexivity.
  - destruct u as [|a [|b u]]; simplify_eq/=. exists u, v. reflexivity.
Qed.

Lemma collapse_starts (v : jsstring) (p : option N) :
  starts_with_LF v = false -> starts_with_LF (collapse_from 0 p v) = false.
Proof.
  destruct v as [|c t]; [reflexivity|]. intros H.
  rewrite collapse_other by exact H. exact H.
Qed.

Lemma collapse_no_blank_run (s : jsstring) :
  forall p, ~ has_blank_run (collapse_from 0 p s).
Proof.
  induction s as [|c t Hc IH|n v Hn Hv IH] using run_ind; intros p.
  - intros (u & v & E). destruct u; discriminate E.
  - rewrite collapse_other by exact Hc. intros H.
    apply (IH (Some c)). eapply has_blank_run_cons; eauto.
  - rewrite collapse_run by auto. intros H.
    apply (IH (Some LF)). eapply has_blank_run_short; [| |exact H].
    + lia.
    + apply collapse_starts, Hv.
Qed.

Lemma collapse_fixed (s : jsstring) :
  ~ has_blank_run s -> forall p, collapse_from 0 p s = s.
Proof.
  induction s as [|c t Hc IH|n v Hn Hv IH] using run_ind; intros Hs p.
  - reflexivity.
  - rewrite collapse_other by exact Hc. f_equal. apply IH.
    intros H. apply Hs. apply (has_blank_run_infix [c] t []) in H.
    rewrite app_nil_r in H. exact H.
  - rewrite collapse_run by auto.
    assert (n <= 2).
    { destruct (le_lt_dec n 2) as [|Hlt]; [assumption|]. exfalso. apply Hs.
      exists [], (repeat LF (n - 3) ++ v).
      replace n with (3 + (n - 3)) at 1 by lia. reflexivity. }
    rewrite Nat.min_l by assumption. f_equal. apply IH.
    intros H'. apply Hs. apply (has_blank_run_infix (repeat LF n) v []) in H'.
    rewrite app_nil_r in H'. exact H'.
Qed.

Lemma collapseBlankRuns_eq (t : jsstring) : collapseBlankRuns t = collapse_from 0 None t.
Proof. reflexivity. Qed.


Lemma collapse_runs (u v : jsstring) (n : nat) :
  ends_with_LF u = false -> starts_with_LF v = false ->
  collapseBlankRuns (u ++ repeat LF n ++ v)
  = collapseBlankRuns u ++ repeat LF (Nat.min n 2) ++ collapseBlankRuns v.
Proof.
  intros Hu Hv. rewrite !collapseBlankRuns_eq.
  rewrite collapse_app by exact Hu. f_equal.
  destruct n as [|n]; [reflexivity|].
  rewrite collapse_run by (auto; lia). f_equal. apply collapse_indep.
Qed.

(** *** The numbering token *)

Import RegexFacts.

Lemma class_space_eq c : class_space c = is_white_space c.
Proof. unfold class_space, class_matches. cbn [existsb citem_matches xorb]. apply orb_false_r. Qed.

Lemma class_digit_eq c : class_digit c = is_digit c.
Proof. unfold class_digit, class_matches. cbn [existsb citem_matches xorb]. apply orb_false_r. Qed.

Lemma class_separator_eq c :
  class_separator c = existsb (N.eqb c) (ch "|" :: claimedSeparators).
Proof.
  unfold class_separator, class_matches.
  change (chars ".|。|)|）|、|-")
    with [CChr 46; CChr 124; CChr 12290; CChr 124; CChr 41; CChr 124; CChr 65289;
          CChr 124; CChr 12289; CChr 124; CChr 45]%N.
  cbn [existsb citem_matches xorb]. unfold canonicalize. cbn [ignoreCase no_flags andb].
  change (ch "|") with 124%N. unfold claimedSeparators. cbn [existsb].
  rewrite !(N.eqb_sym c).
  destruct (46 =? c)%N, (124 =? c)%N, (12290 =? c)%N, (41 =? c)%N, (65289 =? c)%N,
    (12289 =? c)%N, (45 =? c)%N; reflexivity.
Qed.

Lemma numberRegex_rest_only :
  rest_only
    (rmatch no_flags (Group 1 (Star Space))
       (rmatch no_flags (Group 2 (Rep Digit 1 (Some 3) true))
          (rmatch no_flags (Group 3 (Rep separatorClass 1 (Some 1) true))
             (rmatch no_flags (Star Space) Some))))
    (rep_f class_space
       (rep_f class_digit
          (rep_f class_separator (rep_f class_space (fun _ => true) 0 None) 1 (Some 1))
          1 (Some 3)) 0 None).
Proof.
  eapply rmatch_Group_some.
  { intros k' Hk'. apply rmatch_Rep_some; [apply single_unit_Class|exact Hk']. }
  eapply rmatch_Group_some.
  { intros k' Hk'. apply rmatch_Rep_some; [apply single_unit_Class|exact Hk']. }
  eapply rmatch_Group_some.
  { intros k' Hk'. apply rmatch_Rep_some; [apply single_unit_Class|exact Hk']. }
  apply rmatch_Rep_some; [apply single_unit_Class|apply rest_only_Some].
Qed.

Lemma test_numberRegex line :
  test no_flags numberRegex line = shape_token (ch "|" :: claimedSeparators) line.
Proof.
  unfold numberRegex. cbn [seq_of]. rewrite test_Bol by reflexivity.
  etransitivity;
    [exact (numberRegex_rest_only {| prev := None; rest := line; caps := [] |})|].
  cbn [rest]. unfold shape_token.
  apply rep_f_ext; [apply class_space_eq|]. intros x1.
  apply rep_f_ext; [apply class_digit_eq|]. intros x2.
  apply rep_f_ext; [apply class_separator_eq|]. intros x3.
  apply rep_f_ext; [apply class_space_eq|]. reflexivity.
Qed.

Lemma shape_token_spec seps line :
  shape_token seps line = true <-> numbering_shape seps line.
Proof.
  unfold shape_token, numbering_shape.
  rewrite rep_f_spec by exact I. split.
  - intros (ws & b1 & -> & Hws & _ & _ & H1).
    apply rep_f_spec in H1 as (ds & b2 & -> & Hds & Hd1 & Hd3 & H2); [|simpl; lia].
    apply rep_f_spec in H2 as (a & b3 & -> & Ha & Ha1 & Ha2 & _); [|simpl; lia].
    simpl in Hd3, Ha2. destruct a as [|sep [|x a]]; simpl in Ha1, Ha2; try lia.
    exists ws, ds, sep, b3. repeat split; auto.
    simpl in Ha. apply andb_true_iff in Ha as [Ha _].
    apply existsb_exists in Ha as (y & Hy & E). apply N.eqb_eq in E. subst y. exact Hy.
  - intros (ws & ds & sep & tail & -> & Hws & Hds & Hd & Hsep).
    exists ws, (ds ++ sep :: tail). repeat split; auto; [lia|].
    apply rep_f_spec; [simpl; lia|].
    exists ds, (sep :: tail). repeat split; auto; [lia|simpl; lia|].
    apply rep_f_spec; [simpl; lia|].
    exists [sep], tail. repeat split; simpl; auto.
    + rewrite andb_true_r. apply existsb_exists. exists sep. split; [exact Hsep|apply N.eqb_refl].
    + apply rep_f_spec; [exact I|]. exists [], tail. repeat split; simpl; auto; lia.
Qed.

Import Examples.

(** C9: the segmenter applied to the three lines [1. A], [2) B] and [3） C]
    (the last with a full-width parenthesis) returns exactly three segments
    with the texts A, B, C and the indices 1, 2, 3, in that order. *)
Theorem segments_of_mixed_markers :
  splitNumberedBlocks mixedMarkers
  = [ {| index := 1; text := js "A" |}; {| index := 2; text := js "B" |};
      {| index := 3; text := js "C" |} ].
Proof. vm_compute. reflexivity. Qed.

(** C6 (defect of the code): a line is taken as a numbering token exactly
    when it starts with optional white space, one to three digits and one
    separator, and exactly then the loop over the lines starts a new block
    with it; but the separators of the code are the six of the claim and
    the vertical bar, which the class of the source lists between its
    members as if it were an alternation.  So the line [1|A], which has not
    the shape of the claim, is a numbering token for the code, and the two
    lines [1|A] and [2|B] are split into the segments A and B instead of
    staying one segment. *)
Theorem vertical_bar_is_taken_as_separator :
  (forall line,
     test no_flags numberRegex line = true
     <-> numbering_shape (ch "|" :: claimedSeparators) line)
  /\ (forall st line,
        current (split_step st line)
        = if test no_flags numberRegex line
          then [trim (replace_first no_flags numberRegex [] line)]
          else current st ++ [line])
  /\ test no_flags numberRegex (js "1|A") = true
  /\ ~ numbering_shape claimedSeparators (js "1|A")
  /\ splitNumberedBlocks pipeMarkers
     = [ {| index := 1; text := js "A" |}; {| index := 2; text := js "B" |} ].
Proof.
  split; [|split; [|split; [|split]]].
  - intros line. rewrite test_numberRegex. apply shape_token_spec.
  - intros st line. unfold split_step, test, match_first.
    destruct (search no_flags numberRegex None line); reflexivity.
  - vm_compute. reflexivity.
  - intros H. apply shape_token_spec in H. vm_compute in H. discriminate H.
  - vm_compute. reflexivity.
Qed.

(** C7, as the claim states it, fails: two empty lines between two lines of
    text are a run of two blank lines, and the last step leaves only one of
    them. *)
Lemma two_blank_lines_are_collapsed :
  split_lines twoBlankLines = [js "a"; []; []; js "b"]
  /\ finalPass twoBlankLines = js "a" ++ [LF; LF] ++ js "b"
  /\ split_lines (finalPass twoBlankLines) = [js "a"; []; js "b"].
Proof. repeat split; vm_compute; reflexivity. Qed.

(** C7, amended: in the last step of the sanitizer every maximal run of [n]
    line feeds becomes a run of [min n 2] line feeds: a run of three or more
    line feeds (two or more empty lines) is collapsed to two line feeds (one
    empty line), a run of one or two line feeds is left intact, and the text
    around the run is treated on its own; the result of the step, and so
    the output of the sanitizer, neither starts nor ends with white space. *)
Theorem finalPass_collapses_line_feed_runs (u v t : jsstring) (n : nat) :
  ends_with_LF u = false -> starts_with_LF v = false ->
  collapseBlankRuns (u ++ repeat LF n ++ v)
  = collapseBlankRuns u ++ repeat LF (Nat.min n 2) ++ collapseBlankRuns v
  /\ finalPass t = trim (collapseBlankRuns t)
  /\ no_outer_space (finalPass t)
  /\ no_outer_space (stripThinking t).
Proof.
  intros Hu Hv. split; [apply collapse_runs; assumption|].
  split; [reflexivity|]. split; [apply trim_no_outer_space|].
  destruct t as [|c t]; [split; intros c; discriminate|].
  apply trim_no_outer_space.
Qed.

Lemma finalPass_collapses_line_feed_runs_witness :
  collapseBlankRuns (js "a" ++ repeat LF 4 ++ js "b")
  = collapseBlankRuns (js "a") ++ repeat LF 2 ++ collapseBlankRuns (js "b")
  /\ finalPass twoBlankLines = trim (collapseBlankRuns twoBlankLines)
  /\ no_outer_space (finalPass twoBlankLines)
  /\ no_outer_space (stripThinking twoBlankLines).
Proof.
  apply (finalPass_collapses_line_feed_runs (js "a") (js "b") twoBlankLines 4);
    reflexivity.
Defined.


End TextFacts.

(** ** The image locator extractor *)

Module OpenAIFacts.
Import Regex OpenAI Examples.

(** C8 (defect of the code): the claim expects the one locator of the
    Markdown image.  The scan for bare URLs accepts a closing parenthesis
    inside a URL, so it also yields the locator followed by the parenthesis
    of the Markdown syntax; the filter keeps it because of its [img/] path
    segment, and the extractor returns two elements. *)
Theorem cover_example_yields_two_locators :
  extractImageUrls coverMarkdown = Some [coverUrl; coverUrl ++ js ")"].
Proof. vm_compute. reflexivity. Qed.

End OpenAIFacts.

(** ** The writer workbench *)

Module WorkbenchFacts.
Import Workbench Examples.

(** *** The number of versions *)

Lemma count_range e :
  (Z.pos (QArith_base.Qden (count e)) <= QArith_base.Qnum (count e)
   <= 5 * Z.pos (QArith_base.Qden (count e)))%Z.
Proof.
  unfold count. destruct (writeCount e) as [|[|]|q]; cbn [QArith_base.Qnum QArith_base.Qden];
    try lia.
  cbv zeta.
  set (n := if QArith_base.Qeq_bool q _ then _ else q).
  destruct (QArith_base.Qle_bool _ n) eqn:E5.
  - change (QArith_base.Qle_bool (QArith_base.Qmake 5 1) (QArith_base.Qmake 1 1)) with false.
    cbv iota. cbn [QArith_base.Qnum QArith_base.Qden]. lia.
  - destruct (QArith_base.Qle_bool n _) eqn:E1; [cbn [QArith_base.Qnum QArith_base.Qden]; lia|].
    unfold QArith_base.Qle_bool in E1, E5. cbn [QArith_base.Qnum QArith_base.Qden] in E1, E5.
    apply Z.leb_gt in E1, E5. lia.
Qed.

Lemma variant_count_bounds e : 1 <= variant_count e <= 5.
Proof.
  pose proof (count_range e) as [H1 H5]. unfold variant_count.
  set (a := QArith_base.Qnum (count e)) in *. set (b := QArith_base.Qden (count e)) in *.
  assert (1 <= a / Z.pos b)%Z by (apply Z.div_le_lower_bound; lia).
  assert (a / Z.pos b <= 5)%Z by (apply Z.div_le_upper_bound; lia).
  lia.
Qed.

Lemma single_version_count e : single_version e = true -> variant_count e = 1.
Proof.
  unfold single_version, variant_count, QArith_base.Qeq_bool. intros H.
  cbn [QArith_base.Qnum QArith_base.Qden] in H. apply Z.eqb_eq in H.
  replace (QArith_base.Qnum (count e)) with (Z.pos (QArith_base.Qden (count e))) by lia.
  rewrite Z.div_same by lia. reflexivity.
Qed.

Lemma several_versions_not_single e : 2 <= variant_count e -> single_version e = false.
Proof.
  intros H. destruct (single_version e) eqn:E; [|reflexivity].
  apply single_version_count in E. lia.
Qed.

Lemma same_but_stages_refl st : same_but_stages st st.
Proof. repeat split. Qed.

Lemma same_but_stages_trans a b c :
  same_but_stages a b -> same_but_stages b c -> same_but_stages a c.
Proof. unfold same_but_stages. intuition congruence. Qed.

Lemma same_but_stages_set f st : same_but_stages st (set_stages f st).
Proof. repeat split. Qed.

Lemma await_state s st : snd (await s st) = st.
Proof. unfold await. destruct (outcome_of s); reflexivity. Qed.

Lemma await_failed s st : failed s -> exists m, await s st = (Throw m, st).
Proof.
  unfold failed, await. destruct (outcome_of s); [contradiction| |]; eauto.
Qed.

Lemma promise_all_state {A} (ps : list (N * completion A)) st :
  snd (promise_all ps st) = st.
Proof. unfold promise_all. destruct (first_rejection ps) as [[? ?]|]; reflexivity. Qed.

Lemma first_rejection_some {A} (ps : list (N * completion A)) t m :
  In (t, Throw m) ps -> first_rejection ps <> None.
Proof.
  induction ps as [|[t' [a|m']] ps IH]; simpl; [tauto| |].
  - intros [H|H]; [discriminate H|auto].
  - intros _. destruct (first_rejection ps) as [[? ?]|]; [|discriminate].
    destruct (_ <? _)%N; discriminate.
Qed.

Lemma promise_all_rejects {A} (ps : list (N * completion A)) t m st :
  In (t, Throw m) ps -> exists m', promise_all ps st = (Throw m', st).
Proof.
  intros H. apply first_rejection_some in H. unfold promise_all.
  destruct (first_rejection ps) as [[? m']|]; [|contradiction]. eauto.
Qed.

Lemma searchStage_frame e net task st :
  same_but_stages st (snd (searchStage e net task st)).
Proof.
  unfold searchStage.
  destruct (TaskInput.needsSearch task); [|apply same_but_stages_refl].
  destruct (apiProfiles_search e); [|apply same_but_stages_refl].
  destruct (selectedSearchPrompt e); [|apply same_but_stages_refl].
  unfold bind, update. 
  match goal with |- context [await ?s ?st'] =>
    pose proof (await_state s st') as Hs; destruct (await s st') as [[x|m] st1] end;
  simpl in Hs; subst st1; simpl; apply same_but_stages_set.
Qed.

Lemma searchStage_aborted e net task st :
  TaskInput.needsSearch task = true -> (forall req, failed (search_call net req)) ->
  exists m st1, searchStage e net task st = (Throw m, st1).
Proof.
  intros Hn Hf. unfold searchStage. rewrite Hn.
  destruct (apiProfiles_search e); [|unfold throw; eauto].
  destruct (selectedSearchPrompt e); [|unfold throw; eauto].
  unfold bind, update.
  match goal with |- context [await ?s ?st'] =>
    destruct (await_failed s st' (Hf _)) as [m ->] end.
  eauto.
Qed.

Lemma saveToNoteApi_normal e net sel st :
  exists st1, saveToNoteApi e net sel st = (Normal tt, st1) /\ results st1 = results st.
Proof.
  unfold saveToNoteApi.
  destruct (noteApi_endpoint e); [eexists; split; reflexivity|].
  destruct (noteApi_apiKey e); [eexists; split; reflexivity|].
  destruct (notePayloads e sel) as [|p ps]; [eexists; split; reflexivity|].
  match goal with |- context [promise_all ?l st] =>
    pose proof (promise_all_state l st) as Hs;
    destruct (promise_all l st) as [[x|m] st1] end;
  simpl in Hs; subst st1; eexists; split; reflexivity.
Qed.

Lemma writeStage_throw e net wcfg task so st m st1 :
  writeStage e net wcfg task so st = (Throw m, st1) -> same_but_stages st st1.
Proof.
  unfold writeStage.
  destruct (resolveWritePrompt e task) as [wp|];
    [|unfold throw; generalize (js "未找到写作 Prompt，请在‘提示词管理’中设置或选择");
      intros j [= _ <-]; apply same_but_stages_refl].
  unfold bind, update.
  destruct (single_version e).
  - match goal with |- context [await ?s ?st'] =>
      pose proof (await_state s st') as Hs; destruct (await s st') as [[x|m'] st2] end;
    simpl in Hs; subst st2; [discriminate|].
    intros [= _ <-]. apply same_but_stages_set.
  - match goal with |- context [promise_all ?l ?st'] =>
      pose proof (promise_all_state l st') as Hs;
      destruct (promise_all l st') as [[x|m'] st2] end;
    simpl in Hs; subst st2; [discriminate|].
    intros [= _ <-]. apply same_but_stages_set.
Qed.

Lemma writeStage_fails e net wcfg task so st k :
  1 <= k <= variant_count e -> (forall req, failed (write_call net req k)) ->
  exists m st1, writeStage e net wcfg task so st = (Throw m, st1).
Proof.
  intros Hk Hf. unfold writeStage.
  destruct (resolveWritePrompt e task) as [wp|]; [|unfold throw; eauto].
  unfold bind, update.
  destruct (single_version e) eqn:E.
  - apply single_version_count in E. assert (k = 1) as -> by lia.
    match goal with |- context [await ?s ?st'] =>
      destruct (await_failed s st' (Hf _)) as [m ->] end.
    eauto.
  - match goal with |- context [promise_all (map ?f ?ks) ?st'] =>
      assert (Hin : exists t m, In (t, Throw m) (map f ks)) end.
    { match goal with |- context [variantPromise net ?req task so] =>
        pose proof (Hf req) as Hreq;
        exists (settled_at (write_call net req k)) end.
      unfold failed in Hreq.
      destruct (outcome_of (write_call net _ k)) as [c|m|m] eqn:Eo; [contradiction| |];
        exists m; apply in_map_iff; exists k;
        (split; [unfold variantPromise; rewrite Eo; reflexivity|]);
        apply in_seq; lia. }
    destruct Hin as (t & m & Hin).
    match goal with |- context [promise_all ?l ?st'] =>
      destruct (promise_all_rejects l t m st' Hin) as [m' ->] end.
    eauto.
Qed.

Lemma runBody_throw e net wcfg task st m st1 :
  runBody e net wcfg task st = (Throw m, st1) -> same_but_stages st st1.
Proof.
  unfold runBody, bind.
  pose proof (searchStage_frame e net task st) as Hs.
  destruct (searchStage e net task st) as [[so|m0] sA]; simpl in Hs;
    [|intros [= _ <-]; exact Hs].
  destruct (writeStage e net wcfg task so sA) as [[created|m1] sB] eqn:Ew.
  - destruct (autoSaveNote e); [|discriminate].
    destruct (saveToNoteApi_normal e net created sB) as (sC & -> & _). discriminate.
  - intros [= _ <-]. eapply same_but_stages_trans; [exact Hs|].
    eapply writeStage_throw, Ew.
Qed.

Lemma runBody_fails e net wcfg task st :
  run_fails e net task -> exists m st1, runBody e net wcfg task st = (Throw m, st1).
Proof.
  intros [[Hn Hf]|(k & Hk & Hf)]; unfold runBody, bind.
  - destruct (searchStage_aborted e net task st Hn Hf) as (m & st1 & ->). eauto.
  - destruct (searchStage e net task st) as [[so|m0] sA]; [|eauto].
    destruct (writeStage_fails e net wcfg task so sA k Hk Hf) as (m & st1 & ->). eauto.
Qed.

Lemma cleanup_runningIds id st : runningIds (cleanup id st) = runningIds st ∖ {[id]}.
Proof. reflexivity. Qed.

Lemma cleanup_abortMap id st : abortMap (cleanup id st) = delete id (abortMap st).
Proof. reflexivity. Qed.

Lemma cleanup_stages id st : stages (cleanup id st) = delete id (stages st).
Proof. reflexivity. Qed.

Lemma cleanup_results id st : results (cleanup id st) = results st.
Proof. reflexivity. Qed.

Lemma cleanup_toasts id st : toasts (cleanup id st) = toasts st.
Proof. reflexivity. Qed.

Lemma runOne_failed_run e net task st :
  run_fails e net task ->
  results (runOne e net task st) = results st
  /\ exists message, toasts (runOne e net task st) = toasts st ++ [ToastError message].
Proof.
  intros Hf. unfold runOne.
  destruct (apiProfiles_write e) as [wcfg|]; [|split; [reflexivity|eexists; reflexivity]].
  cbv zeta.
  match goal with |- context [runBody e net wcfg task ?st'] =>
    destruct (runBody_fails e net wcfg task st' Hf) as (m & st1 & Hb);
    pose proof (runBody_throw _ _ _ _ _ _ _ Hb) as (Hr & Ht & _) end.
  rewrite Hb. rewrite cleanup_results, cleanup_toasts.
  cbn [results toasts add_toast]. rewrite Hr, Ht.
  split; [reflexivity|eexists; reflexivity].
Qed.

Lemma runOne_cleanup e net task st wcfg :
  apiProfiles_write e = Some wcfg ->
  (TaskInput.id task ∉ runningIds (runOne e net task st))
  /\ abortMap (runOne e net task st) !! TaskInput.id task = None
  /\ stages (runOne e net task st) !! TaskInput.id task = None.
Proof.
  intros Hw. unfold runOne. rewrite Hw. cbv zeta.
  rewrite cleanup_runningIds, cleanup_abortMap, cleanup_stages.
  split; [|split; apply lookup_delete_eq].
  rewrite elem_of_difference. intros [_ H]. apply H, elem_of_singleton. reflexivity.
Qed.

Lemma insert_sorted_perm {A} (cmp : A -> A -> Z) (x : A) (l : list A) :
  Permutation (insert_sorted cmp x l) (x :: l).
Proof.
  induction l as [|y l IH]; simpl; [reflexivity|].
  destruct (0 <? cmp x y)%Z; [|reflexivity].
  rewrite IH. apply perm_swap.
Qed.

Lemma sort_by_perm {A} (cmp : A -> A -> Z) (l : list A) :
  Permutation (sort_by cmp l) l.
Proof.
  induction l as [|x l IH]; simpl; [reflexivity|].
  rewrite insert_sorted_perm. apply perm_skip, IH.
Qed.















(** *** Generated identifiers *)



















Lemma is_aborted_failed (s : settled) : is_aborted s -> failed s.
Proof. unfold is_aborted, failed. destruct (outcome_of s); tauto. Qed.

Lemma run_aborted_fails e net task : run_aborted e net task -> run_fails e net task.
Proof.
  intros [[Hn Ha]|(k & Hk & Ha)]; [left|right].
  - split; [exact Hn|]. intros req. apply is_aborted_failed, Ha.
  - exists k. split; [exact Hk|]. intros req. apply is_aborted_failed, Ha.
Qed.

(** C1, as the claim states it, fails: of three requested variants the
    second call fails and the other two succeed, and no variant of the run
    is recorded; the one notification is for the work item as a whole. *)
Lemma one_failed_variant_discards_the_siblings :
  variant_count (settings 3) = 3
  /\ (forall req, outcome_of (write_call secondFails req 1) = Resolved (js "out"))
  /\ (forall req, outcome_of (write_call secondFails req 2) = Rejected (js "boom"))
  /\ (forall req, outcome_of (write_call secondFails req 3) = Resolved (js "out"))
  /\ results (runOne (settings 3) secondFails taskA (stateWith [])) = []
  /\ toasts (runOne (settings 3) secondFails taskA (stateWith []))
     = [ToastError (js "条目 1 处理失败：boom")].
Proof.
  split; [reflexivity|]. split; [reflexivity|]. split; [reflexivity|].
  split; [reflexivity|]. split; vm_compute; reflexivity.
Qed.

(** C1, amended: when two or more variants are requested for a work item
    and the write call of one of them fails, the run is all or nothing: the
    results collection is left as it was (no variant of the run is
    recorded), one failure notification is raised for the work item, and
    the in-flight tracking of the item (running flag, abort handle, stage)
    is cleared, so the item is no longer running. *)
Theorem failed_variant_fails_the_whole_run e net task st wcfg k :
  apiProfiles_write e = Some wcfg ->
  2 <= variant_count e -> 1 <= k <= variant_count e ->
  (forall req, failed (write_call net req k)) ->
  results (runOne e net task st) = results st
  /\ (exists message, toasts (runOne e net task st) = toasts st ++ [ToastError message])
  /\ (TaskInput.id task ∉ runningIds (runOne e net task st))
  /\ abortMap (runOne e net task st) !! TaskInput.id task = None
  /\ stages (runOne e net task st) !! TaskInput.id task = None.
Proof.
  intros Hw _ Hk Hf.
  assert (Hrun : run_fails e net task) by (right; exists k; auto).
  destruct (runOne_failed_run e net task st Hrun) as [Hr Ht].
  split; [exact Hr|]. split; [exact Ht|]. eapply runOne_cleanup, Hw.
Qed.

Lemma failed_variant_fails_the_whole_run_witness :
  results (runOne (settings 3) secondFails taskA (stateWith [resultWithId (js "b")]))
  = [resultWithId (js "b")]
  /\ (exists message,
        toasts (runOne (settings 3) secondFails taskA (stateWith [resultWithId (js "b")]))
        = [] ++ [ToastError message])
  /\ (js "a" ∉ runningIds
                (runOne (settings 3) secondFails taskA (stateWith [resultWithId (js "b")])))
  /\ abortMap (runOne (settings 3) secondFails taskA (stateWith [resultWithId (js "b")]))
       !! js "a" = None
  /\ stages (runOne (settings 3) secondFails taskA (stateWith [resultWithId (js "b")]))
       !! js "a" = None.
Proof.
  apply (failed_variant_fails_the_whole_run (settings 3) secondFails taskA
           (stateWith [resultWithId (js "b")]) writeConfig 2).
  - reflexivity.
  - vm_compute. lia.
  - vm_compute. lia.
  - intros req. exact I.
Defined.

(** C2: when the search call or a write call of a work item is aborted by
    the cancellation signal of the item, the run produces no TaskResult:
    the results collection after the run is the collection before it, so it
    holds no entry of the aborted run and the prior entries of the item are
    unchanged; stopping all items does not touch the collection either. *)
Theorem aborted_run_produces_no_result e net task st :
  run_aborted e net task ->
  results (runOne e net task st) = results st
  /\ results (stopAll st) = results st.
Proof.
  intros H. split; [|reflexivity].
  apply runOne_failed_run, run_aborted_fails, H.
Qed.

Lemma aborted_run_produces_no_result_witness :
  results (runOne (settings 1) abortedNet taskA (stateWith [resultWithId (js "a")]))
  = [resultWithId (js "a")]
  /\ results (stopAll (stateWith [resultWithId (js "a")])) = [resultWithId (js "a")].
Proof.
  apply (aborted_run_produces_no_result (settings 1) abortedNet taskA
           (stateWith [resultWithId (js "a")])).
  right. exists 1. split; [vm_compute; lia|]. intros req. exact I.
Defined.




End WorkbenchFacts.

(** ** Persistence *)

Module StorageFacts.
Import Storage Examples.

Lemma safeParse_normal {T : Type} (JSON_parse : jsstring -> completion T)
    (raw : option jsstring) (fallback : T) :
  exists v, safeParse JSON_parse raw fallback = Normal v.
Proof.
  unfold safeParse, try_catch. destruct raw as [[|c t]|]; eauto.
  destruct (JSON_parse (c :: t)); eauto.
Qed.

(** C10: [readLS] never throws, whatever the key, the fallback and the
    content of the store; when the stored string is absent or is not valid
    JSON, it returns the supplied fallback unchanged. *)
Theorem readLS_never_throws {T : Type} (JSON_parse : jsstring -> completion T)
    (h : host) (key : PersistKey) (fallback : T) :
  absent_or_invalid JSON_parse h key ->
  readLS JSON_parse h key fallback = Normal fallback
  /\ forall (h' : host) (key' : PersistKey) (fallback' : T),
       exists v, readLS JSON_parse h' key' fallback' = Normal v.
Proof.
  intros H. split.
  - unfold readLS. destruct (window_defined h); [|reflexivity]. cbn [negb].
    unfold safeParse, try_catch.
    destruct H as [->|(raw & message & -> & Hp)]; [reflexivity|].
    destruct raw as [|c t]; [reflexivity|]. rewrite Hp. reflexivity.
  - intros h' key' fallback'. unfold readLS.
    destruct (window_defined h'); cbn [negb]; [apply safeParse_normal|eauto].
Qed.

Lemma readLS_never_throws_witness :
  readLS JSON_parse_bool brokenStore autoSaveNote true = Normal true
  /\ forall (h' : host) (key' : PersistKey) (fallback' : bool),
       exists v, readLS JSON_parse_bool h' key' fallback' = Normal v.
Proof.
  apply (readLS_never_throws JSON_parse_bool brokenStore autoSaveNote true).
  right. exists (js "tru"), (js "SyntaxError"). split; vm_compute; reflexivity.
Defined.

End StorageFacts.

(** * Further properties *)

Module ScopeFacts.
Import Regex Scope.

Lemma reaches_refl s st : reaches s 0 st st.
Proof. split; [exists []; split; [reflexivity|simpl; lia]|auto]. Qed.

Lemma reaches_trans s n m a b c :
  reaches s n a b -> reaches s m b c -> reaches s (n + m) a c.
Proof.
  intros [(p & E1 & L1) S1] [(q & E2 & L2) S2]. split; [|auto].
  exists (p ++ q). rewrite E1, E2, <- List.app_assoc. split; [reflexivity|].
  rewrite length_app. lia.
Qed.

Lemma reaches_weaken s n m a b : m <= n -> reaches s n a b -> reaches s m a b.
Proof. intros H [(p & E & L) S]. split; [exists p; split; [exact E|lia]|exact S]. Qed.

Lemma reaches_advance s c t st :
  rest st = c :: t -> reaches s 1 st (advance c t st).
Proof.
  intros E. split.
  - exists [c]. split; [exact E|simpl; lia].
  - intros [(a & Ha) Hc]. split; [|exact Hc].
    exists (a ++ [c]). rewrite <- List.app_assoc. rewrite Ha, E. reflexivity.
Qed.

Lemma reaches_clear s gs st : reaches s 0 st (clear_caps gs st) /\ rest (clear_caps gs st) = rest st.
Proof.
  destruct gs as [|g gs]; [split; [apply reaches_refl|reflexivity]|].
  split; [|reflexivity]. split.
  - exists []. split; [reflexivity|simpl; lia].
  - intros [Ha Hc]. split; [exact Ha|]. cbn [clear_caps caps].
    apply List.Forall_forall. intros x Hx. apply List.filter_In in Hx as [Hx _].
    rewrite List.Forall_forall in Hc. auto.
Qed.

Lemma repeat_matcher_advances s n ma gs greedy k :
  advances s n ma ->
  forall fuel mn mx st e,
    repeat_matcher ma gs greedy k fuel mn mx st = Some e ->
    exists st1, k st1 = Some e
      /\ reaches s (match mn, mx with O, _ | _, Some O => 0 | _, _ => n end) st st1.
Proof.
  intros Hma fuel. induction fuel as [|fuel IH]; intros mn mx st e H; [discriminate H|].
  cbn [repeat_matcher] in H.
  assert (Hiter : forall d,
    d = (fun st1 : mstate =>
           if (mn =? 0)%nat && (length (rest st1) =? length (rest st))%nat then None
           else repeat_matcher ma gs greedy k fuel (pred mn) (pred_max mx) st1) ->
    ma d (clear_caps gs st) = Some e ->
    exists st1, k st1 = Some e /\ reaches s n st st1).
  { intros d -> Hd. apply Hma in Hd as (st1 & Hd & R1).
    destruct ((mn =? 0)%nat && _); [discriminate Hd|].
    apply IH in Hd as (st2 & Hk & R2). exists st2. split; [exact Hk|].
    destruct (reaches_clear s gs st) as [R0 _].
    apply (reaches_weaken s (0 + n + 0)); [lia|].
    apply (reaches_trans s _ _ _ st1); [apply (reaches_trans s _ _ _ _ _ R0 R1)|].
    eapply reaches_weaken; [|exact R2]. lia. }
  assert (Hzero : forall st1, k st1 = Some e -> st1 = st ->
                  exists st1, k st1 = Some e /\ reaches s 0 st st1).
  { intros st1 Hk ->. exists st. split; [exact Hk|apply reaches_refl]. }
  destruct mx as [[|mx]|].
  - destruct mn; eapply Hzero; eauto.
  - destruct mn as [|mn].
    + change (0 <? 0)%nat with false in H. cbv iota in H.
      destruct greedy.
      * destruct (ma _ (clear_caps gs st)) as [e'|] eqn:E.
        -- injection H as ->. destruct (Hiter _ eq_refl E) as (st1 & Hk & R).
           exists st1. split; [exact Hk|]. eapply reaches_weaken; [|exact R]. lia.
        -- eapply Hzero; eauto.
      * destruct (k st) as [e'|] eqn:E.
        -- injection H as ->. eapply Hzero; eauto.
        -- destruct (Hiter _ eq_refl H) as (st1 & Hk & R).
           exists st1. split; [exact Hk|]. eapply reaches_weaken; [|exact R]. lia.
    + change (0 <? S mn)%nat with true in H. cbv iota in H.
      exact (Hiter _ eq_refl H).
  - destruct mn as [|mn].
    + change (0 <? 0)%nat with false in H. cbv iota in H.
      destruct greedy.
      * destruct (ma _ (clear_caps gs st)) as [e'|] eqn:E.
        -- injection H as ->. destruct (Hiter _ eq_refl E) as (st1 & Hk & R).
           exists st1. split; [exact Hk|]. eapply reaches_weaken; [|exact R]. lia.
        -- eapply Hzero; eauto.
      * destruct (k st) as [e'|] eqn:E.
        -- injection H as ->. eapply Hzero; eauto.
        -- destruct (Hiter _ eq_refl H) as (st1 & Hk & R).
           exists st1. split; [exact Hk|]. eapply reaches_weaken; [|exact R]. lia.
    + change (0 <? S mn)%nat with true in H. cbv iota in H.
      exact (Hiter _ eq_refl H).
Qed.

Lemma consumed_part s st st1 :
  (exists pre, rest st = pre ++ rest st1) -> state_of s st -> part_of (consumed st st1) s.
Proof.
  intros (pre & E) [(a & Ha) _]. unfold consumed. rewrite E, length_app.
  replace (length pre + length (rest st1) - length (rest st1)) with (length pre) by lia.
  rewrite firstn_app, Nat.sub_diag, firstn_all. cbn [firstn]. rewrite app_nil_r.
  exists a, (rest st1). rewrite Ha, E. reflexivity.
Qed.

Lemma rmatch_advances fl s r : advances s (min_len r) (rmatch fl r).
Proof.
  induction r as [|a|  |neg items|a IHa b IHb|a IHa b IHb|a IHa mn mx g|i a IHa| | |a IHa];
    intros k st e H; cbn [rmatch min_len] in *.
  - exists st. split; [exact H|apply reaches_refl].
  - destruct (rest st) as [|c t] eqn:E; [discriminate H|].
    destruct (_ =? _)%N; [|discriminate H].
    exists (advance c t st). split; [exact H|apply reaches_advance, E].
  - destruct (rest st) as [|c t] eqn:E; [discriminate H|].
    destruct (is_line_terminator c); [discriminate H|].
    exists (advance c t st). split; [exact H|apply reaches_advance, E].
  - destruct (rest st) as [|c t] eqn:E; [discriminate H|].
    destruct (class_matches fl neg items c); [|discriminate H].
    exists (advance c t st). split; [exact H|apply reaches_advance, E].
  - apply IHa in H as (st1 & H & R1). apply IHb in H as (st2 & H & R2).
    exists st2. split; [exact H|]. exact (reaches_trans s _ _ _ _ _ R1 R2).
  - destruct (rmatch fl a k st) as [e'|] eqn:E.
    + injection H as ->. apply IHa in E as (st1 & H & R).
      exists st1. split; [exact H|]. eapply reaches_weaken; [|exact R]. lia.
    + apply IHb in H as (st1 & H & R).
      exists st1. split; [exact H|]. eapply reaches_weaken; [|exact R]. lia.
  - exact (repeat_matcher_advances s _ _ _ _ _ IHa _ _ _ _ _ H).
  - apply IHa in H as (st1 & H & R). eexists. split; [exact H|].
    destruct R as [(pre & E & L) S]. split.
    + exists pre. split; [exact E|exact L].
    + intros Hst. destruct (S Hst) as [Ha Hc]. split; [exact Ha|].
      cbn [caps]. unfold set_cap. constructor.
      * cbn [snd]. apply consumed_part; [exists pre; exact E|exact Hst].
      * apply List.Forall_forall. intros x Hx. apply List.filter_In in Hx as [Hx _].
        rewrite List.Forall_forall in Hc. auto.
  - destruct (at_bol fl st); [|discriminate H].
    exists st. split; [exact H|apply reaches_refl].
  - destruct (at_eol fl st); [|discriminate H].
    exists st. split; [exact H|apply reaches_refl].
  - destruct (rmatch fl a Some st) as [st1|] eqn:E; [|discriminate H].
    apply IHa in E as (st1' & E & R). injection E as ->.
    eexists. split; [exact H|]. split.
    + exists []. split; [reflexivity|simpl; lia].
    + intros Hst. destruct R as [_ S]. destruct (S Hst) as [_ Hc].
      split; [exact (proj1 Hst)|exact Hc].
Qed.

Lemma exec_at_advances fl r p s0 s e :
  (exists a, s0 = a ++ s) ->
  exec_at fl r p s = Some e ->
  (exists pre, s = pre ++ rest e /\ min_len r <= length pre)
  /\ Forall (fun c => part_of (snd c) s0) (caps e).
Proof.
  intros Ha H. unfold exec_at in H.
  apply (rmatch_advances fl s0) in H as (st1 & H & [R S]). injection H as ->.
  split; [exact R|]. apply S. split; [exact Ha|constructor].
Qed.

Lemma exec_loop_total fl r :
  1 <= min_len r ->
  forall s skip p, exists ms, exec_loop fl r skip p s = Some ms.
Proof.
  intros Hr s. induction s as [|c t IH]; intros skip p.
  - destruct skip as [|n]; cbn [exec_loop]; [|eauto].
    destruct (exec_at fl r p []) as [e|] eqn:E; [|eauto].
    apply (exec_at_advances fl r p [] [] e) in E as [(pre & E & L) _]; [|exists []; reflexivity].
    destruct pre; [simpl in L; lia|discriminate E].
  - destruct skip as [|n]; cbn [exec_loop]; [|apply IH].
    destruct (exec_at fl r p (c :: t)) as [e|] eqn:E; [|apply IH].
    apply (exec_at_advances fl r p (c :: t) (c :: t) e) in E as [(pre & E & L) _];
      [|exists []; reflexivity].
    assert (El : length (c :: t) - length (rest e) = length pre).
    { rewrite E at 1. rewrite length_app. lia. }
    rewrite El. clear El.
    destruct (length pre) as [|n] eqn:El; [lia|].
    destruct (IH n (Some c)) as (ms & ->). cbn [option_map]. eauto.
Qed.

Lemma exec_loop_parts fl r s0 :
  forall s skip p ms, (exists a, s0 = a ++ s) ->
    exec_loop fl r skip p s = Some ms -> Forall (match_of s0) ms.
Proof.
  intros s. induction s as [|c t IH]; intros skip p ms Ha H.
  - destruct skip as [|n]; cbn [exec_loop] in H.
    + destruct (exec_at fl r p []); [discriminate H|]. injection H as <-. constructor.
    + injection H as <-. constructor.
  - assert (Ht : exists a, s0 = a ++ t).
    { destruct Ha as (a & ->). exists (a ++ [c]). rewrite <- List.app_assoc. reflexivity. }
    destruct skip as [|n]; cbn [exec_loop] in H; [|exact (IH _ _ _ Ht H)].
    destruct (exec_at fl r p (c :: t)) as [e|] eqn:E; [|exact (IH _ _ _ Ht H)].
    destruct (length (c :: t) - length (rest e)) as [|n] eqn:El; [discriminate H|].
    destruct (exec_loop fl r n (Some c) t) as [ms'|] eqn:E'; [|discriminate H].
    injection H as <-. constructor; [|exact (IH _ _ _ Ht E')].
    apply (exec_at_advances fl r p s0 (c :: t) e Ha) in E as [(pre & E & L) Hc].
    split; [|exact Hc]. cbn [result_at m_text].
    assert (Ef : firstn (length (c :: t) - length (rest e)) (c :: t) = pre).
    { rewrite E. rewrite length_app.
      replace (length pre + length (rest e) - length (rest e)) with (length pre) by lia.
      rewrite firstn_app, Nat.sub_diag, firstn_all. cbn [firstn]. apply app_nil_r. }
    rewrite Ef. destruct Ha as (a & ->). exists a, (rest e). rewrite E. reflexivity.
Qed.

End ScopeFacts.

Module OpenAIScopeFacts.
Import Regex Scope ScopeFacts OpenAI OpenAIScope.

Lemma existsb_eqb_In u urls : existsb (jsstring_eqb u) urls = true <-> In u urls.
Proof.
  rewrite existsb_exists. unfold jsstring_eqb. split.
  - intros (x & Hx & E). apply bool_decide_eq_true in E. subst x. exact Hx.
  - intros H. exists u. split; [exact H|]. apply bool_decide_eq_true. reflexivity.
Qed.

Lemma set_add_collected text u urls :
  u <> [] -> part_of u text -> collected text urls -> collected text (set_add u urls).
Proof.
  intros Hu Hp [Hn Hf]. unfold set_add.
  destruct (existsb (jsstring_eqb u) urls) eqn:E; [split; assumption|].
  assert (Hin : ~ In u urls).
  { intros H. apply existsb_eqb_In in H. congruence. }
  split.
  - apply List.NoDup_app; [exact Hn|repeat constructor; simpl; tauto|].
    intros x Hx [<-|[]]. exact (Hin Hx).
  - apply Forall_app. split; [exact Hf|]. constructor; [split; assumption|constructor].
Qed.

Lemma get_cap_In i cs v : get_cap i cs = Some v -> In (i, v) cs.
Proof.
  induction cs as [|[j w] cs IH]; simpl; [discriminate|].
  destruct (Nat.eqb_spec j i) as [->|]; [intros [= ->]; left; reflexivity|auto].
Qed.

Lemma add_capture_collected text i urls m :
  match_of text m -> collected text urls -> collected text (add_capture i urls m).
Proof.
  intros [Ht Hc] Hu. unfold add_capture.
  destruct i as [|i].
  - destruct (m_text m) as [|c t] eqn:E; [exact Hu|].
    apply set_add_collected; [discriminate|exact Ht|exact Hu].
  - destruct (get_cap (S i) (m_caps m)) as [[|c t]|] eqn:E; [exact Hu| |exact Hu].
    apply get_cap_In in E. rewrite List.Forall_forall in Hc. apply Hc in E.
    apply set_add_collected; [discriminate|exact E|exact Hu].
Qed.

Lemma scan_collected fl r i text urls :
  1 <= min_len r -> collected text urls ->
  exists urls', scan fl r i text urls = Some urls' /\ collected text urls'.
Proof.
  intros Hr Hu. unfold scan, exec_all.
  destruct (exec_loop_total fl r Hr text 0 None) as (ms & E). rewrite E.
  eexists. split; [reflexivity|].
  assert (Hm : Forall (match_of text) ms).
  { apply (exec_loop_parts fl r text text 0 None); [exists []; reflexivity|exact E]. }
  clear E. revert urls Hu. induction Hm as [|m ms Hm _ IH]; intros urls Hu; [exact Hu|].
  cbn [fold_left]. apply IH. apply add_capture_collected; assumption.
Qed.

Lemma fold_set_add_NoDup (l acc : list jsstring) :
  List.NoDup (acc ++ l) -> fold_left (fun a u => set_add u a) l acc = acc ++ l.
Proof.
  revert acc. induction l as [|u l IH]; intros acc H; cbn [fold_left].
  - rewrite app_nil_r. reflexivity.
  - unfold set_add at 2.
    destruct (existsb (jsstring_eqb u) acc) eqn:E.
    + apply existsb_eqb_In in E. apply List.NoDup_remove_2 in H.
      exfalso. apply H. apply List.in_or_app. left. exact E.
    + rewrite IH; rewrite <- List.app_assoc; [reflexivity|exact H].
Qed.

Lemma NoDup_filter_list {A} (f : A -> bool) (l : list A) :
  List.NoDup l -> List.NoDup (List.filter f l).
Proof.
  induction 1 as [|x l Hx Hn IH]; simpl; [constructor|].
  destruct (f x); [|exact IH]. constructor; [|exact IH].
  intros H. apply List.filter_In in H as [H _]. exact (Hx H).
Qed.

(** The five scans end and collect; the filter then keeps the locators that
    look like images, or all of them when none does. *)
Lemma extractImageUrls_scans (text : jsstring) :
  exists urls,
    collected text urls
    /\ extractImageUrls text
       = Some match List.filter isProbablyImageUrl urls with
              | [] => urls
              | list => list
              end.
Proof.
  unfold extractImageUrls.
  assert (H0 : collected text []) by (split; constructor).
  destruct (scan_collected no_flags mdImg 1 text [] ltac:(vm_compute; lia) H0) as (u1 & -> & H1).
  cbn [mbind option_bind].
  destruct (scan_collected no_flags mdLink 1 text u1 ltac:(vm_compute; lia) H1) as (u2 & -> & H2).
  cbn [mbind option_bind].
  destruct (scan_collected flag_i htmlImg 1 text u2 ltac:(vm_compute; lia) H2) as (u3 & -> & H3).
  cbn [mbind option_bind].
  destruct (scan_collected flag_i dataUrlRe 0 text u3 ltac:(vm_compute; lia) H3) as (u4 & -> & H4).
  cbn [mbind option_bind].
  destruct (scan_collected flag_i urlRe 1 text u4 ltac:(vm_compute; lia) H4) as (u5 & -> & H5).
  cbn [mbind option_bind].
  exists u5. split; [exact H5|]. destruct H5 as [Hn _]. f_equal.
  destruct (List.filter isProbablyImageUrl u5) as [|x l] eqn:E.
  - exact (fold_set_add_NoDup u5 [] Hn).
  - apply (fold_set_add_NoDup (x :: l) []). cbn [app]. rewrite <- E.
    apply NoDup_filter_list, Hn.
Qed.

Lemma extractImageUrls_nonempty (text : jsstring) :
  exists urls, extractImageUrls text = Some urls /\ Forall (fun u => u <> []) urls.
Proof.
  destruct (extractImageUrls_scans text) as (urls & [_ Hf] & ->).
  eexists. split; [reflexivity|].
  assert (H : Forall (fun u => u <> []) urls).
  { eapply Forall_impl; [exact Hf|]. intros u [Hu _]. exact Hu. }
  destruct (List.filter isProbablyImageUrl urls) as [|x l] eqn:E; [exact H|].
  rewrite <- E. apply List.Forall_forall. intros u Hu.
  apply List.filter_In in Hu as [Hu _]. rewrite List.Forall_forall in H. auto.
Qed.

(** [extractImageUrls] ends on every text, since none of its five patterns
    matches the empty string.  Its result holds no locator twice and no
    empty one, every locator is a part of the text, and either all of them
    pass [isProbablyImageUrl] or none does (the fallback to all locators). *)
Theorem extractImageUrls_total (text : jsstring) :
  exists urls,
    extractImageUrls text = Some urls
    /\ List.NoDup urls
    /\ Forall (fun u => u <> [] /\ part_of u text) urls
    /\ (Forall (fun u => isProbablyImageUrl u = true) urls
        \/ Forall (fun u => isProbablyImageUrl u = false) urls).
Proof.
  destruct (extractImageUrls_scans text) as (urls & [Hn Hf] & ->).
  eexists. split; [reflexivity|].
  destruct (List.filter isProbablyImageUrl urls) as [|x l] eqn:E.
  - split; [exact Hn|]. split; [exact Hf|]. right.
    apply List.Forall_forall. intros u Hu.
    destruct (isProbablyImageUrl u) eqn:Eu; [|reflexivity].
    assert (Hin : In u (List.filter isProbablyImageUrl urls)) by (apply List.filter_In; auto).
    rewrite E in Hin. destruct Hin.
  - rewrite <- E. split; [apply NoDup_filter_list, Hn|]. split.
    + apply List.Forall_forall. intros u Hu. apply List.filter_In in Hu as [Hu _].
      rewrite List.Forall_forall in Hf. auto.
    + left. apply List.Forall_forall. intros u Hu.
      apply List.filter_In in Hu as [_ Hu]. exact Hu.
Qed.

End OpenAIScopeFacts.

Module OpenAIClientFacts.
Import Regex Scope ScopeFacts OpenAI OpenAIScope OpenAIClient.

Lemma search_in_suffix fl r s2 :
  (forall p, exec_at fl r p s2 <> None) ->
  forall s1 p, search fl r p (s1 ++ s2) <> None.
Proof.
  intros H s1. induction s1 as [|c t IH]; intros p.
  - cbn [app]. destruct s2 as [|c t]; cbn [search];
      (destruct (exec_at fl r p _) eqn:E; [discriminate|exfalso; exact (H _ E)]).
  - cbn [app search]. destruct (exec_at fl r p (c :: t ++ s2)); [discriminate|].
    specialize (IH (Some c)). destruct (search fl r (Some c) (t ++ s2)); [discriminate|].
    exfalso. apply IH. reflexivity.
Qed.

Lemma test_chatPath_suffix x : test no_flags fullEndpointRe (x ++ chatPath) = true.
Proof.
  unfold test.
  assert (H : search no_flags fullEndpointRe None (x ++ chatPath) <> None).
  { apply search_in_suffix. intros p. vm_compute. discriminate. }
  destruct (search no_flags fullEndpointRe None (x ++ chatPath)); [reflexivity|congruence].
Qed.

Lemma strip_slash_prefix s p :
  exists y,
    s = match search no_flags trailingSlashRe p s with
        | Some m => m_before m ++ [] ++ m_after m
        | None => s
        end ++ y.
Proof.
  unfold trailingSlashRe. revert p. induction s as [|c t IH]; intros p.
  - exists []. reflexivity.
  - cbn [search]. unfold exec_at. cbn [rmatch rest].
    destruct (canonicalize no_flags (ch "/") =? canonicalize no_flags c)%N.
    + unfold at_eol, advance. cbn [rest multiline no_flags andb].
      destruct t as [|c' t'].
      * exists [c]. reflexivity.
      * destruct (IH (Some c)) as (y & Hy).
        destruct (search no_flags (Seq (Chr (ch "/")) Eol) (Some c) (c' :: t')) as [m|];
          cbn [option_map shift_result m_before m_after app] in *.
        -- exists y. f_equal. exact Hy.
        -- exists []. rewrite app_nil_r. reflexivity.
    + destruct (IH (Some c)) as (y & Hy).
      destruct (search no_flags (Seq (Chr (ch "/")) Eol) (Some c) t) as [m|];
        cbn [option_map shift_result m_before m_after app] in *.
      * exists y. f_equal. exact Hy.
      * exists []. rewrite app_nil_r. reflexivity.
Qed.

Lemma stripped_no_outer_space base :
  no_outer_space base ->
  no_outer_space (replace_first no_flags trailingSlashRe [] base ++ chatPath).
Proof.
  intros [Hh _]. unfold replace_first.
  destruct (strip_slash_prefix base None) as (y & Hy).
  destruct (search no_flags trailingSlashRe None base) as [m|].
  - set (x := m_before m ++ [] ++ m_after m) in *. split.
    + intros c Hc. destruct x as [|a x'].
      * vm_compute in Hc. injection Hc as <-. reflexivity.
      * apply Hh. rewrite Hy. exact Hc.
    + intros c. rewrite rev_app_distr. intros Hc.
      vm_compute in Hc. injection Hc as <-. reflexivity.
  - split.
    + intros c Hc. destruct base as [|a x'].
      * vm_compute in Hc. injection Hc as <-. reflexivity.
      * apply Hh. exact Hc.
    + intros c. rewrite rev_app_distr. intros Hc.
      vm_compute in Hc. injection Hc as <-. reflexivity.
Qed.

(** The address that [chatCompletion] posts to always matches the pattern
    of a complete endpoint; given back as base URL it is kept as it is, and
    white space around the base URL makes no difference. *)
Theorem chatCompletionUrl_is_a_full_endpoint (baseUrl : jsstring) :
  test no_flags fullEndpointRe (chatCompletionUrl baseUrl) = true
  /\ chatCompletionUrl (chatCompletionUrl baseUrl) = chatCompletionUrl baseUrl
  /\ chatCompletionUrl (trim baseUrl) = chatCompletionUrl baseUrl.
Proof.
  assert (Hfix : forall u, no_outer_space u -> test no_flags fullEndpointRe u = true ->
                           chatCompletionUrl u = u).
  { intros u Hn Ht. unfold chatCompletionUrl. rewrite (trim_fixed u Hn), Ht. reflexivity. }
  assert (Hu : no_outer_space (chatCompletionUrl baseUrl)
               /\ test no_flags fullEndpointRe (chatCompletionUrl baseUrl) = true).
  { unfold chatCompletionUrl. cbv zeta.
    destruct (test no_flags fullEndpointRe (trim baseUrl)) eqn:E.
    - split; [apply trim_no_outer_space|exact E].
    - split; [|apply test_chatPath_suffix].
      apply stripped_no_outer_space, trim_no_outer_space. }
  destruct Hu as [Hn Ht]. split; [exact Ht|]. split; [exact (Hfix _ Hn Ht)|].
  unfold chatCompletionUrl. rewrite trim_idempotent. reflexivity.
Qed.

Lemma fromChat_total chat :
  exists r, fromChat chat = Some r
    /\ forall urls, r = Normal urls -> urls <> [] /\ Forall (fun u => u <> []) urls.
Proof.
  destruct chat as [content|message]; cbn [fromChat].
  - destruct (OpenAIScopeFacts.extractImageUrls_nonempty content) as (urls & -> & Hf).
    cbn [mbind option_bind]. eexists. split; [reflexivity|].
    destruct urls as [|u urls].
    + destruct (test no_flags dataPrefixRe (trim content)) eqn:E; [|discriminate].
      intros ? [= <-]. split; [discriminate|]. constructor; [|constructor].
      intros E'. rewrite E' in E. vm_compute in E. discriminate E.
    + intros ? [= <-]. split; [discriminate|]. exact Hf.
  - eexists. split; [reflexivity|]. discriminate.
Qed.

(** [imageCompletion] ends for every reply of the two endpoints, and when
    it returns locators, the list is not empty and holds no empty locator;
    otherwise it throws. *)
Theorem imageCompletion_never_returns_nothing images chat :
  exists r, imageCompletion images chat = Some r
    /\ forall urls, r = Normal urls -> urls <> [] /\ Forall (fun u => u <> []) urls.
Proof.
  unfold imageCompletion.
  destruct images as [[items|]|message]; try apply fromChat_total.
  destruct (List.filter nonempty (map item_locator items)) as [|u urls] eqn:E;
    [apply fromChat_total|].
  eexists. split; [reflexivity|]. intros ? [= <-]. split; [discriminate|].
  rewrite <- E. apply List.Forall_forall. intros x Hx.
  apply List.filter_In in Hx as [_ Hx]. destruct x; [discriminate Hx|discriminate].
Qed.

Lemma filter_nonempty_nil items :
  List.filter nonempty (map item_locator items) = []
  <-> ~ Exists (fun it => item_locator it <> []) items.
Proof.
  induction items as [|it items IH]; cbn [map List.filter].
  - split; [intros _ H; inversion H|reflexivity].
  - destruct (item_locator it) as [|c t] eqn:E; cbn [nonempty].
    + rewrite IH. split.
      * intros H H'. inversion H' as [? ? Hx|? ? Hx]; subst; [congruence|exact (H Hx)].
      * intros H H'. apply H. right. exact H'.
    + split; [discriminate|]. intros H. exfalso. apply H. left. rewrite E. discriminate.
Qed.

Lemma filter_nonempty_some items :
  List.filter nonempty (map item_locator items) <> [] ->
  Exists (fun it => item_locator it <> []) items.
Proof.
  induction items as [|it items IH]; cbn [map List.filter]; [congruence|].
  destruct (item_locator it) as [|c t] eqn:E; cbn [nonempty].
  - intros H. right. exact (IH H).
  - intros _. left. rewrite E. discriminate.
Qed.

(** The answer of the chat endpoint plays no part exactly when the images
    endpoint delivers a locator; when it does not (rejection, a reply that
    is not ok, or only elements without [url] and [b64_json]), the result is
    the one of the chat fallback alone. *)
Theorem chat_decides_unless_images_deliver images :
  ((forall chat chat', imageCompletion images chat = imageCompletion images chat')
   <-> delivers images)
  /\ (~ delivers images ->
      forall chat, imageCompletion images chat = fromChat chat).
Proof.
  assert (Hno : ~ delivers images ->
                forall chat, imageCompletion images chat = fromChat chat).
  { intros H chat. unfold imageCompletion.
    destruct images as [[items|]|message]; try reflexivity.
    destruct (List.filter nonempty (map item_locator items)) eqn:E; [reflexivity|].
    exfalso. apply H. exists items. split; [reflexivity|].
    apply filter_nonempty_some. rewrite E. discriminate. }
  assert (Hdec : delivers images \/ ~ delivers images).
  { destruct images as [[items|]|message];
      try (right; intros (items' & E & _); discriminate E).
    destruct (List.filter nonempty (map item_locator items)) eqn:E.
    - right. intros (items' & [= <-] & H). apply filter_nonempty_nil in E. contradiction.
    - left. exists items. split; [reflexivity|].
      apply filter_nonempty_some. rewrite E. discriminate. }
  split; [|exact Hno]. split.
  - intros H. destruct Hdec as [Hd|Hd]; [exact Hd|].
    specialize (H (Throw []) (Throw [0%N])). rewrite !(Hno Hd) in H. discriminate H.
  - intros (items & -> & H) chat chat'. unfold imageCompletion.
    destruct (List.filter nonempty (map item_locator items)) eqn:E; [|reflexivity].
    apply filter_nonempty_nil in E. contradiction.
Qed.

End OpenAIClientFacts.

Module LinesFacts.
Import Regex RegexFacts Text TextFacts Lines.

Lemma crlf_exec_other p s :
  match s with c :: _ => (c =? CR)%N = false | [] => True end ->
  exec_at no_flags crlfRegex p s = None.
Proof.
  destruct s as [|c t]; intros H; unfold exec_at, crlfRegex; cbn [rmatch rest]; [reflexivity|].
  unfold canonicalize; cbn [ignoreCase no_flags andb]. rewrite N.eqb_sym, H. reflexivity.
Qed.

Lemma chr_hit c (d : mstate -> option mstate) p t cs :
  rmatch no_flags (Chr c) d {| prev := p; rest := c :: t; caps := cs |}
  = d {| prev := Some c; rest := t; caps := cs |}.
Proof.
  cbn [rmatch rest]. unfold canonicalize; cbn [ignoreCase no_flags andb].
  rewrite N.eqb_refl. reflexivity.
Qed.

Lemma opt_LF_unfold (k : mstate -> option mstate) st :
  rmatch no_flags (Opt (Chr LF)) k st
  = repeat_matcher (rmatch no_flags (Chr LF)) [] true k
      (S (length (rest st))) 0 (Some 1) st.
Proof. reflexivity. Qed.

Lemma opt_LF_hit p t cs :
  rmatch no_flags (Opt (Chr LF)) Some {| prev := p; rest := LF :: t; caps := cs |}
  = Some {| prev := Some LF; rest := t; caps := cs |}.
Proof.
  rewrite opt_LF_unfold. cbn [repeat_matcher rest length].
  change (0 <? 0)%nat with false. cbv iota. cbn [clear_caps].
  rewrite chr_LF_steps. cbn [rest length pred pred_max].
  replace (length t =? S (length t))%nat with false by (symmetry; apply Nat.eqb_neq; lia).
  cbn [Nat.eqb andb]. reflexivity.
Qed.

Lemma opt_LF_miss p t cs :
  starts_with_LF t = false ->
  rmatch no_flags (Opt (Chr LF)) Some {| prev := p; rest := t; caps := cs |}
  = Some {| prev := p; rest := t; caps := cs |}.
Proof.
  intros H. rewrite opt_LF_unfold. cbn [repeat_matcher rest length].
  change (0 <? 0)%nat with false. cbv iota. cbn [clear_caps].
  rewrite (chr_LF_fails _ _ _ _ H). reflexivity.
Qed.

Lemma crlf_exec_pair p t :
  exists e, exec_at no_flags crlfRegex p (CR :: LF :: t) = Some e /\ rest e = t.
Proof.
  unfold exec_at, crlfRegex.
  change (rmatch no_flags (Seq (Chr CR) (Opt (Chr LF))) Some ?st)
    with (rmatch no_flags (Chr CR) (rmatch no_flags (Opt (Chr LF)) Some) st).
  rewrite chr_hit, opt_LF_hit. eexists. split; reflexivity.
Qed.

Lemma crlf_exec_single p t :
  starts_with_LF t = false ->
  exists e, exec_at no_flags crlfRegex p (CR :: t) = Some e /\ rest e = t.
Proof.
  intros H. unfold exec_at, crlfRegex.
  change (rmatch no_flags (Seq (Chr CR) (Opt (Chr LF))) Some ?st)
    with (rmatch no_flags (Chr CR) (rmatch no_flags (Opt (Chr LF)) Some) st).
  rewrite chr_hit, (opt_LF_miss _ _ _ H). eexists. split; reflexivity.
Qed.

Lemma replace_crlf_bounded n : forall s p, length s <= n ->
  replace_go no_flags crlfRegex [LF] 0 p s = newlines s.
Proof.
  induction n as [|n IH]; intros s p Hl.
  - destruct s; [reflexivity|simpl in Hl; lia].
  - destruct s as [|c t]; [reflexivity|]. simpl in Hl.
    cbn [replace_go newlines].
    destruct (c =? CR)%N eqn:Ec.
    + apply N.eqb_eq in Ec. subst c.
      destruct t as [|c' t'].
      * destruct (crlf_exec_single p [] eq_refl) as (e & -> & Hr). rewrite Hr. reflexivity.
      * destruct (c' =? LF)%N eqn:El.
        -- apply N.eqb_eq in El. subst c'.
           destruct (crlf_exec_pair p t') as (e & -> & Hr). rewrite Hr.
           cbn [length]. replace (S (S (length t')) - length t') with 2 by lia.
           cbn [app replace_go]. f_equal. apply IH. simpl in Hl. lia.
        -- destruct (crlf_exec_single p (c' :: t')) as (e & -> & Hr);
             [cbn [starts_with_LF]; exact El|].
           rewrite Hr. cbn [length]. replace (S (S (length t')) - S (length t')) with 1 by lia.
           cbn [app]. f_equal. apply IH. lia.
    + rewrite crlf_exec_other by exact Ec. f_equal. apply IH. lia.
Qed.

Lemma replace_crlf s : replace_all no_flags crlfRegex [LF] s = newlines s.
Proof. apply (replace_crlf_bounded (length s)). lia. Qed.

Lemma newlines_ind (P : jsstring -> jsstring -> Prop) :
  P [] [] ->
  (forall t, P t (newlines t) -> P (CR :: LF :: t) (LF :: newlines t)) ->
  (forall t, starts_with_LF t = false -> P t (newlines t) -> P (CR :: t) (LF :: newlines t)) ->
  (forall c t, (c =? CR)%N = false -> P t (newlines t) -> P (c :: t) (c :: newlines t)) ->
  forall s, P s (newlines s).
Proof.
  intros H0 Hpair Hsingle Hother s.
  assert (H : forall n s, length s <= n -> P s (newlines s)).
  { clear s. induction n as [|n IH]; intros s Hl.
    - destruct s; [exact H0|simpl in Hl; lia].
    - destruct s as [|c t]; [exact H0|]. simpl in Hl. cbn [newlines].
      destruct (c =? CR)%N eqn:Ec.
      + apply N.eqb_eq in Ec. subst c. destruct t as [|c' t'].
        * exact (Hsingle [] eq_refl H0).
        * destruct (c' =? LF)%N eqn:El.
          -- apply N.eqb_eq in El. subst c'. apply Hpair, IH. simpl in Hl. lia.
          -- apply (Hsingle (c' :: t')); [exact El|apply IH; lia].
      + apply Hother; [exact Ec|apply IH; lia]. }
  apply (H (length s)). lia.
Qed.

Lemma newlines_no_CR s : Forall (fun c => c <> CR) (newlines s).
Proof.
  apply (newlines_ind (fun _ out => Forall (fun c => c <> CR) out)).
  - constructor.
  - intros t IH. constructor; [discriminate|exact IH].
  - intros t _ IH. constructor; [discriminate|exact IH].
  - intros c t Hc IH. constructor; [apply N.eqb_neq, Hc|exact IH].
Qed.

Lemma newlines_fixed s : Forall (fun c => c <> CR) s -> newlines s = s.
Proof.
  induction 1 as [|c t Hc _ IH]; [reflexivity|]. cbn [newlines].
  apply N.eqb_neq in Hc. rewrite Hc, IH. reflexivity.
Qed.

Lemma newlines_blank s : blank (newlines s) = blank s.
Proof.
  apply (newlines_ind (fun s out => blank out = blank s)).
  - reflexivity.
  - intros t IH. unfold blank in *. cbn [forallb]. rewrite IH. reflexivity.
  - intros t _ IH. unfold blank in *. cbn [forallb]. rewrite IH. reflexivity.
  - intros c t _ IH. unfold blank in *. cbn [forallb]. rewrite IH. reflexivity.
Qed.

Lemma newlines_no_digit s : no_digit (newlines s) = no_digit s.
Proof.
  apply (newlines_ind (fun s out => no_digit out = no_digit s)).
  - reflexivity.
  - intros t IH. unfold no_digit in *. cbn [forallb]. rewrite IH. reflexivity.
  - intros t _ IH. unfold no_digit in *. cbn [forallb]. rewrite IH. reflexivity.
  - intros c t _ IH. unfold no_digit in *. cbn [forallb]. rewrite IH. reflexivity.
Qed.

(** *** Lines *)

Lemma split_lines_cons s : exists l ls, split_lines s = l :: ls.
Proof.
  induction s as [|c t (l & ls & IH)]; cbn [split_lines]; [eauto|].
  destruct (c =? LF)%N; [eauto|]. rewrite IH. eauto.
Qed.

Lemma join_split s : join_lines (split_lines s) = s.
Proof.
  induction s as [|c t IH]; [reflexivity|]. cbn [split_lines].
  destruct (split_lines_cons t) as (l & ls & E). rewrite E in *.
  destruct (c =? LF)%N eqn:Ec.
  - apply N.eqb_eq in Ec. subst c.
    change (join_lines ([] :: l :: ls)) with (LF :: join_lines (l :: ls)).
    rewrite IH. reflexivity.
  - rewrite <- IH. destruct ls as [|l' ls']; reflexivity.
Qed.

Lemma split_lines_forallb (f : N -> bool) s :
  forallb f s = true -> Forall (fun l => forallb f l = true) (split_lines s).
Proof.
  induction s as [|c t IH]; cbn [split_lines forallb].
  - intros _. constructor; [reflexivity|constructor].
  - intros H. apply andb_true_iff in H as [Hc Ht]. specialize (IH Ht).
    destruct (c =? LF)%N; [constructor; [reflexivity|exact IH]|].
    destruct (split_lines t) as [|l ls]; [repeat constructor; simpl; rewrite Hc; reflexivity|].
    inversion IH as [|? ? Hl Hls]; subst. constructor; [|exact Hls].
    cbn [forallb]. rewrite Hc, Hl. reflexivity.
Qed.

(** *** Blank texts *)

Lemma trimStart_nil s : trimStart s = [] <-> blank s = true.
Proof.
  induction s as [|c t IH]; cbn [trimStart blank forallb]; [tauto|].
  destruct (is_white_space c); [exact IH|]. split; discriminate.
Qed.

Lemma blank_rev s : blank (rev s) = blank s.
Proof.
  unfold blank. induction s as [|c t IH]; [reflexivity|].
  cbn [rev forallb]. rewrite forallb_app, IH. cbn [forallb].
  rewrite andb_true_r. apply andb_comm.
Qed.

Lemma trim_nil s : trim s = [] <-> blank s = true.
Proof.
  unfold trim, trimEnd. split.
  - intros H. apply (f_equal (@rev N)) in H. rewrite rev_involutive in H. cbn [rev] in H.
    apply trimStart_nil in H. rewrite blank_rev in H.
    destruct (trimStart s) as [|c t] eqn:E; [apply trimStart_nil, E|].
    pose proof (trimStart_head s c) as Hh. rewrite E in Hh. specialize (Hh eq_refl).
    cbn [blank forallb] in H. rewrite Hh in H. discriminate H.
  - intros H. apply trimStart_nil in H. rewrite H. reflexivity.
Qed.

(** *** Lines without a numbering token *)

Lemma fold_no_match lines : forall st,
  Forall (fun l => test no_flags numberRegex l = false) lines ->
  fold_left split_step lines st
  = {| blocks := blocks st; current := current st ++ lines;
       currentIndex := currentIndex st |}.
Proof.
  induction lines as [|l lines IH]; intros st H.
  - rewrite app_nil_r. destruct st; reflexivity.
  - inversion H as [|? ? Hl Hls]; subst. cbn [fold_left].
    assert (E : split_step st l
                = {| blocks := blocks st; current := current st ++ [l];
                     currentIndex := currentIndex st |}).
    { unfold split_step, match_first. unfold test in Hl.
      destruct (search no_flags numberRegex None l); [discriminate Hl|reflexivity]. }
    rewrite E, (IH _ Hls). cbn [blocks current currentIndex].
    rewrite <- List.app_assoc. reflexivity.
Qed.

Lemma digits_contradict (ds x y : jsstring) (P : N -> bool) :
  (forall c, P c = is_digit c) ->
  forallb P ds = true -> 1 <= length ds ->
  no_digit (x ++ ds ++ y) = true -> False.
Proof.
  intros HP Hd Hl Hn. destruct ds as [|d ds]; [simpl in Hl; lia|].
  unfold no_digit in Hn. rewrite !forallb_app in Hn. cbn [forallb] in *.
  rewrite HP in Hd.
  destruct (is_digit d); [|discriminate Hd].
  cbn [negb andb] in Hn. rewrite andb_false_r in Hn. discriminate Hn.
Qed.

Lemma no_digit_not_numbered l :
  no_digit l = true -> test no_flags numberRegex l = false.
Proof.
  intros Hn. rewrite test_numberRegex.
  destruct (shape_token _ l) eqn:E; [|reflexivity].
  apply shape_token_spec in E as (ws & ds & sep & tail & -> & _ & Hd & [Hl _] & _).
  exfalso. exact (digits_contradict ds ws (sep :: tail) is_digit (fun _ => eq_refl) Hd Hl Hn).
Qed.

(** *** The numbering test on the whole input *)

Lemma forallb_same {A} (f g : A -> bool) l :
  (forall c, f c = g c) -> forallb f l = forallb g l.
Proof. intros H. induction l as [|a l IH]; [reflexivity|]. cbn [forallb]. rewrite H, IH. reflexivity. Qed.

Lemma class_single fl (it : citem) c :
  class_matches fl false [it] c = citem_matches fl it c.
Proof. unfold class_matches. cbn [existsb xorb]. apply orb_false_r. Qed.

Lemma anyNumbering_exec p x :
  succeeds (exec_at flag_m anyNumberingRegex p x)
  = match p with
    | None => true
    | Some c => is_line_terminator c
    end && numbering_ahead flag_m x.
Proof.
  unfold exec_at, anyNumberingRegex. cbn [seq_of].
  change (rmatch flag_m (Seq Bol ?r) Some ?st)
    with (if at_bol flag_m st then rmatch flag_m r Some st else None).
  unfold at_bol. cbn [prev multiline flag_m andb].
  assert (H : rest_only
                (rmatch flag_m (Seq (Star Space) (Seq (Plus Digit) separatorClass)) Some)
                (numbering_ahead flag_m)).
  { change (rmatch flag_m (Seq (Star Space) (Seq (Plus Digit) separatorClass)) Some)
      with (rmatch flag_m (Star Space)
              (rmatch flag_m (Plus Digit) (rmatch flag_m separatorClass Some))).
    apply rmatch_Rep_some; [apply single_unit_Class|].
    apply rmatch_Rep_some; [apply single_unit_Class|].
    intros st. unfold separatorClass. cbn [rmatch].
    destruct (rest st) as [|c t]; [reflexivity|].
    destruct (class_matches flag_m false (chars ".|。|)|）|、|-") c); reflexivity. }
  destruct p as [c|].
  - destruct (is_line_terminator c); [|reflexivity]. cbn [andb]. apply H.
  - cbn [andb]. apply H.
Qed.

Lemma numbering_ahead_digit fl x :
  numbering_ahead fl x = true ->
  exists ws ds y, x = ws ++ ds ++ y /\ forallb is_digit ds = true /\ 1 <= length ds.
Proof.
  unfold numbering_ahead. intros H.
  apply rep_f_spec in H as (ws & b & -> & _ & _ & _ & H); [|exact I].
  apply rep_f_spec in H as (ds & y & -> & Hd & Hl & _ & _); [|exact I].
  exists ws, ds, y. split; [reflexivity|]. split; [|exact Hl].
  rewrite <- Hd. apply forallb_same. intros c. symmetry. rewrite class_single. reflexivity.
Qed.

Lemma no_digit_no_numbering s :
  no_digit s = true -> forall p, search flag_m anyNumberingRegex p s = None.
Proof.
  assert (Hx : forall x p, no_digit x = true -> exec_at flag_m anyNumberingRegex p x = None).
  { intros x p Hn. pose proof (anyNumbering_exec p x) as E.
    destruct (exec_at flag_m anyNumberingRegex p x); [|reflexivity].
    cbn [succeeds] in E. symmetry in E. apply andb_true_iff in E as [_ E].
    apply numbering_ahead_digit in E as (ws & ds & y & -> & Hd & Hl).
    exfalso. exact (digits_contradict ds ws y is_digit (fun _ => eq_refl) Hd Hl Hn). }
  induction s as [|c t IH]; intros Hn p; cbn [search]; rewrite (Hx _ _ Hn); [reflexivity|].
  unfold no_digit in Hn. cbn [forallb] in Hn. apply andb_true_iff in Hn as [_ Hn].
  rewrite (IH Hn). reflexivity.
Qed.

Lemma search_at fl r x : forall pre p,
  exec_at fl r (match rev pre with [] => p | c :: _ => Some c end) x <> None ->
  search fl r p (pre ++ x) <> None.
Proof.
  induction pre as [|c pre IH]; intros p H.
  - cbn [rev app] in *. destruct x as [|a x]; cbn [search];
      (destruct (exec_at fl r p _); [discriminate|congruence]).
  - cbn [app search]. destruct (exec_at fl r p (c :: pre ++ x)); [discriminate|].
    assert (H' : search fl r (Some c) (pre ++ x) <> None).
    { apply IH. cbn [rev] in H. destruct (rev pre) as [|a l]; exact H. }
    destruct (search fl r (Some c) (pre ++ x)); [discriminate|congruence].
Qed.

Lemma starts_line_cons a pre : pre <> [] -> starts_line (a :: pre) = starts_line pre.
Proof.
  unfold starts_line. cbn [rev]. intros H.
  destruct (rev pre) as [|c l] eqn:E; [|reflexivity].
  apply (f_equal (@rev N)) in E. rewrite rev_involutive in E. contradiction.
Qed.

Lemma lines_within_break (pre s : jsstring) lines :
  pre <> [] -> starts_line pre = true ->
  lines_within s lines -> lines_within (pre ++ s) ([] :: lines).
Proof.
  intros Hp Hs H. destruct lines as [|first others]; [contradiction|].
  destruct H as [(post & E) Ho]. split; [exists (pre ++ s); reflexivity|].
  intros line [<-|Hin].
  - exists pre, post. rewrite E. auto.
  - destruct (Ho line Hin) as (pre' & post' & -> & Hp' & Hs').
    exists (pre ++ pre'), post'. rewrite <- List.app_assoc. split; [reflexivity|].
    split; [destruct pre; [contradiction|discriminate]|].
    clear -Hp' Hs'. induction pre as [|a pre IH]; [exact Hs'|].
    cbn [app]. rewrite starts_line_cons; [exact IH|].
    destruct pre; [exact Hp'|discriminate].
Qed.

Lemma lines_within_newlines s : lines_within s (split_lines (newlines s)).
Proof.
  apply (newlines_ind (fun s out => lines_within s (split_lines out))).
  - split; [exists []; reflexivity|intros line []].
  - intros t IH. cbn [split_lines]. change (LF =? LF)%N with true. cbv iota.
    apply (lines_within_break [CR; LF] t); [discriminate|reflexivity|exact IH].
  - intros t _ IH. cbn [split_lines]. change (LF =? LF)%N with true. cbv iota.
    apply (lines_within_break [CR] t); [discriminate|reflexivity|exact IH].
  - intros c t Hc IH. cbn [split_lines]. destruct (c =? LF)%N eqn:El.
    + apply N.eqb_eq in El. subst c.
      apply (lines_within_break [LF] t); [discriminate|reflexivity|exact IH].
    + destruct (split_lines (newlines t)) as [|first others]; [contradiction|].
      destruct IH as [(post & E) Ho]. split; [exists post; rewrite E; reflexivity|].
      intros line Hin. destruct (Ho line Hin) as (pre & post' & -> & Hp & Hs).
      exists (c :: pre), post'. split; [reflexivity|]. split; [discriminate|].
      rewrite starts_line_cons; assumption.
Qed.

Lemma class_flags fl fl' neg items c :
  ignoreCase fl = ignoreCase fl' ->
  class_matches fl neg items c = class_matches fl' neg items c.
Proof.
  intros H. unfold class_matches. f_equal.
  induction items as [|it items IH]; [reflexivity|]. cbn [existsb]. rewrite IH. f_equal.
  destruct it; cbn [citem_matches]; unfold canonicalize; rewrite ?H; reflexivity.
Qed.

Lemma numbered_ahead line post :
  test no_flags numberRegex line = true -> numbering_ahead flag_m (line ++ post) = true.
Proof.
  rewrite test_numberRegex. intros H.
  apply shape_token_spec in H as (ws & ds & sep & tail & -> & Hws & Hds & [Hl _] & Hsep).
  unfold numbering_ahead. apply rep_f_spec; [exact I|].
  exists ws, (ds ++ sep :: tail ++ post). split.
  { rewrite <- !List.app_assoc. reflexivity. }
  split. { rewrite <- Hws. apply forallb_same. intros c. apply class_single. }
  split; [lia|]. split; [exact I|].
  apply rep_f_spec; [exact I|]. exists ds, (sep :: tail ++ post).
  split; [reflexivity|].
  split. { rewrite <- Hds. apply forallb_same. intros c. apply class_single. }
  split; [exact Hl|]. split; [exact I|].
  rewrite (class_flags flag_m no_flags) by reflexivity.
  change (class_matches no_flags false (chars ".|。|)|）|、|-") sep) with (class_separator sep).
  rewrite class_separator_eq. apply existsb_exists. exists sep.
  split; [exact Hsep|apply N.eqb_refl].
Qed.

Lemma numbered_line_found s line :
  In line (split_lines (newlines s)) ->
  test no_flags numberRegex line = true ->
  test flag_m anyNumberingRegex s = true.
Proof.
  intros Hin Hl. pose proof (lines_within_newlines s) as H.
  destruct (split_lines (newlines s)) as [|first others]; [contradiction|].
  destruct H as [(post & E) Ho].
  assert (Hs : search flag_m anyNumberingRegex None s <> None).
  { destruct Hin as [<-|Hin].
    - rewrite E. apply (search_at _ _ _ [] None).
      change (exec_at flag_m anyNumberingRegex None (first ++ post) <> None).
      pose proof (anyNumbering_exec None (first ++ post)) as X.
      rewrite (numbered_ahead _ _ Hl) in X.
      destruct (exec_at flag_m anyNumberingRegex None (first ++ post));
        [discriminate|cbn in X; discriminate X].
    - destruct (Ho line Hin) as (pre & post' & -> & Hp & Hst).
      apply search_at. unfold starts_line in Hst.
      destruct (rev pre) as [|c l] eqn:Er.
      { apply (f_equal (@rev N)) in Er. rewrite rev_involutive in Er. contradiction. }
      cbv iota.
      pose proof (anyNumbering_exec (Some c) (line ++ post')) as X.
      rewrite (numbered_ahead _ _ Hl), Hst in X.
      destruct (exec_at flag_m anyNumberingRegex (Some c) (line ++ post'));
        [discriminate|cbn in X; discriminate X]. }
  unfold test. destruct (search flag_m anyNumberingRegex None s); [reflexivity|congruence].
Qed.

(** *** The segments *)

Lemma unnumbered_split input :
  Forall (fun l => test no_flags numberRegex l = false) (split_lines (newlines input)) ->
  let st := fold_left split_step (split_lines (replace_all no_flags crlfRegex [LF] input))
              {| blocks := []; current := []; currentIndex := 1%N |} in
  flush (current st) (blocks st)
  = match trim (newlines input) with
    | [] => []
    | t => [{| index := 1; text := t |}]
    end.
Proof.
  intros H. cbv zeta. rewrite replace_crlf, (fold_no_match _ _ H).
  cbn [blocks current app]. unfold flush. rewrite join_split.
  destruct (trim (newlines input)); reflexivity.
Qed.

Lemma trim_newlines_nil input : trim (newlines input) = [] <-> trim input = [].
Proof. rewrite !trim_nil, newlines_blank. tauto. Qed.

Lemma renumber_index_from (g : nat -> nat) (l : list block) :
  map index (imap (fun i b => {| index := g i; text := text b |}) l)
  = map g (seq 0 (length l)).
Proof.
  revert g. induction l as [|b l IH]; intros g; [reflexivity|].
  cbn [imap map length seq]. f_equal.
  rewrite <- seq_shift, map_map. exact (IH (fun i => g (S i))).
Qed.

Lemma renumber_index l : map index (renumber l) = seq 1 (length l).
Proof.
  unfold renumber. rewrite (renumber_index_from (fun i => i + 1)).
  rewrite <- seq_shift. apply map_ext. intros i. lia.
Qed.

Lemma renumber_text_from (P : jsstring -> Prop) (g : nat -> nat) (l : list block) :
  Forall (fun b => P (text b)) l ->
  Forall (fun b => P (text b)) (imap (fun i b => {| index := g i; text := text b |}) l).
Proof.
  intros H. revert g. induction H as [|b l Hb _ IH]; intros g; [constructor|].
  cbn [imap]. constructor; [exact Hb|]. exact (IH (fun i => g (S i))).
Qed.

Lemma segments_indices (input : jsstring) :
  map index (splitNumberedBlocks input) = seq 1 (length (splitNumberedBlocks input)).
Proof.
  unfold splitNumberedBlocks. cbv zeta.
  destruct (_ && _); [reflexivity|].
  rewrite renumber_index. f_equal.
  rewrite <- (List.length_map index (renumber _)), renumber_index, List.length_seq.
  reflexivity.
Qed.

(** When the fallback to the whole input is taken, the input is not blank. *)
Lemma fallback_not_blank (input : jsstring) :
  let st := fold_left split_step (split_lines (replace_all no_flags crlfRegex [LF] input))
              {| blocks := []; current := []; currentIndex := 1%N |} in
  (length (flush (current st) (blocks st)) =? 1)%nat
  && negb (test flag_m anyNumberingRegex input) = true ->
  trim input <> [].
Proof.
  cbv zeta. intros E. apply andb_true_iff in E as [El Et]. apply negb_true_iff in Et.
  assert (H : Forall (fun l => test no_flags numberRegex l = false)
                (split_lines (newlines input))).
  { apply List.Forall_forall. intros l Hl.
    destruct (test no_flags numberRegex l) eqn:Tl; [|reflexivity].
    rewrite (numbered_line_found input l Hl Tl) in Et. discriminate Et. }
  pose proof (unnumbered_split input H) as U. cbv zeta in U.
  rewrite U in El. intros Hn. apply (proj2 (trim_newlines_nil input)) in Hn.
  rewrite Hn in El. discriminate El.
Qed.

Lemma segments_texts (input : jsstring) :
  Forall (fun t => t <> [] /\ trim t = t) (map text (splitNumberedBlocks input)).
Proof.
  pose proof (fallback_not_blank input) as Hf. cbv zeta in Hf.
  unfold splitNumberedBlocks. cbv zeta.
  destruct (_ && _).
  - constructor; [|constructor]. cbn [text]. split; [exact (Hf eq_refl)|apply trim_idempotent].
  - apply Forall_map. unfold renumber.
    apply (renumber_text_from (fun t => t <> [] /\ trim t = t)).
    apply List.Forall_forall. intros b Hb. apply List.filter_In in Hb as [Hb Hl].
    apply in_map_iff in Hb as (b0 & <- & _). cbn [text] in *. split.
    + intros Hn. rewrite Hn in Hl. discriminate Hl.
    + apply trim_idempotent.
Qed.

(** For every input, the segments of [splitNumberedBlocks] carry the
    indices 1, 2, ... in order, and the text of each is not empty and has no
    white space at either end; this holds for the whole-input fallback too. *)
Theorem segments_are_numbered_and_trimmed (input : jsstring) :
  map index (splitNumberedBlocks input) = seq 1 (length (splitNumberedBlocks input))
  /\ Forall (fun b => text b <> [] /\ trim (text b) = text b) (splitNumberedBlocks input).
Proof.
  split; [apply segments_indices|].
  pose proof (segments_texts input) as H. apply Forall_map in H. exact H.
Qed.

(** An input without any digit is never split: the result is empty when
    the input is blank, and otherwise the single segment with index 1 whose
    text is the trimmed input, line breaks inside included as they are. *)
Theorem text_without_digits_is_one_segment (input : jsstring) :
  no_digit input = true ->
  splitNumberedBlocks input
  = match trim input with
    | [] => []
    | t => [{| index := 1; text := t |}]
    end.
Proof.
  intros Hn.
  assert (H : Forall (fun l => test no_flags numberRegex l = false)
                (split_lines (newlines input))).
  { pose proof Hn as Hn'. rewrite <- newlines_no_digit in Hn'.
    apply split_lines_forallb in Hn'. rewrite List.Forall_forall in Hn'.
    apply List.Forall_forall. intros l Hl. apply no_digit_not_numbered, Hn', Hl. }
  pose proof (unnumbered_split input H) as U. cbv zeta in U.
  unfold splitNumberedBlocks. cbv zeta. rewrite U.
  unfold test. rewrite (no_digit_no_numbering input Hn None). cbn [negb].
  destruct (trim (newlines input)) as [|c t] eqn:E.
  - apply (proj1 (trim_newlines_nil input)) in E. rewrite E. reflexivity.
  - destruct (trim input) as [|c' t'] eqn:E'; [|reflexivity].
    apply (proj2 (trim_newlines_nil input)) in E'. congruence.
Qed.

Lemma text_without_digits_is_one_segment_witness :
  splitNumberedBlocks MoreExamples.plainNote
  = match trim MoreExamples.plainNote with
    | [] => []
    | t => [{| index := 1; text := t |}]
    end.
Proof.
  apply (text_without_digits_is_one_segment MoreExamples.plainNote).
  vm_compute. reflexivity.
Defined.

(** The first step of [splitNumberedBlocks], the replacement of a carriage
    return with an optional line feed by a line feed, is the structural
    function [newlines]: no carriage return is left, a text without one is
    unchanged, and joining the lines of the result gives the result back. *)
Theorem carriage_returns_become_line_feeds (s : jsstring) :
  replace_all no_flags crlfRegex [LF] s = newlines s
  /\ Forall (fun c => c <> CR) (replace_all no_flags crlfRegex [LF] s)
  /\ (Forall (fun c => c <> CR) s -> replace_all no_flags crlfRegex [LF] s = s)
  /\ join_lines (split_lines (replace_all no_flags crlfRegex [LF] s))
     = replace_all no_flags crlfRegex [LF] s.
Proof.
  rewrite replace_crlf. split; [reflexivity|]. split; [apply newlines_no_CR|].
  split; [apply newlines_fixed|apply join_split].
Qed.

(** Whatever the input, the output of [stripThinking] holds no three line
    feeds in a row (no two empty lines in a row), so that collapsing the
    blank lines of an output once more changes nothing. *)
Theorem stripThinking_leaves_no_blank_run (raw : jsstring) :
  ~ has_blank_run (stripThinking raw)
  /\ collapseBlankRuns (stripThinking raw) = stripThinking raw.
Proof.
  assert (H : ~ has_blank_run (stripThinking raw)).
  { destruct raw as [|c t]; cbn [stripThinking].
    - intros (u & v & E). destruct u; discriminate E.
    - unfold finalPass. intros H.
      apply (collapse_no_blank_run (removalPasses (c :: t)) None).
      destruct (trim_infix (collapseBlankRuns (removalPasses (c :: t)))) as (a & b & E).
      rewrite <- collapseBlankRuns_eq, E. apply has_blank_run_infix, H. }
  split; [exact H|]. rewrite collapseBlankRuns_eq. apply collapse_fixed, H.
Qed.

End LinesFacts.

(** ** The sanitizer on plain text *)

Module PlainFacts.
Import Regex Text Scope Lines Plain RegexFacts TextFacts ScopeFacts LinesFacts.

(** *** Keywords *)









(** *** Patterns that need a keyword *)






(** *** Quotes, bullets and numbered lines *)
















(** *** Blank runs *)


(** *** The sanitizer on plain text *)






End PlainFacts.

Module PersistFacts.
Import Storage Persist.

Lemma key_name_inj k k' : key_name k = key_name k' -> k = k'.
Proof.
  destruct k, k'; intros H; try reflexivity; vm_compute in H; discriminate H.
Qed.

(** In a browser, [readLS] after [writeLS] of a value under a key returns
    the value, provided [JSON.parse] reads back what [JSON.stringify] wrote
    (which is never the empty string for it); reading any other key gives
    what it gave before the write. *)
Theorem written_value_is_read_back {T : Type}
    (JSON_parse : jsstring -> completion T) (JSON_stringify : T -> jsstring)
    (h : host) (key : PersistKey) (v : T) :
  window_defined h = true ->
  JSON_stringify v <> [] ->
  JSON_parse (JSON_stringify v) = Normal v ->
  (forall fallback,
     readLS JSON_parse (writeLS JSON_stringify h key v) key fallback = Normal v)
  /\ (forall key' fallback, key' <> key ->
        readLS JSON_parse (writeLS JSON_stringify h key v) key' fallback
        = readLS JSON_parse h key' fallback).
Proof.
  intros Hw Hne Hp. unfold writeLS, readLS. rewrite Hw. cbn [negb].
  unfold getItem, setItem. cbn [window_defined localStorage]. rewrite Hw. cbn [negb]. split.
  - intros fallback. rewrite lookup_insert_eq. unfold safeParse.
    destruct (JSON_stringify v) as [|c t] eqn:E; [congruence|].
    rewrite Hp. reflexivity.
  - intros key' fallback Hk. rewrite lookup_insert_ne; [reflexivity|].
    intros E. apply Hk. symmetry. apply key_name_inj. exact E.
Qed.

Section Backup.
Variable JSON_parse : jsstring -> completion Json.t.
Variable JSON_stringify : Json.t -> jsstring.

Lemma import_field_obj test fields key h :
  window_defined h = true ->
  exists h',
    import_field JSON_stringify test (Json.Obj fields) key h = Normal h'
    /\ window_defined h' = true
    /\ forall name,
         getItem h' name
         = if decide (name = key_name key)
           then match Json.prop fields name with
                | Some v => if test v then Some (JSON_stringify v) else getItem h name
                | None => getItem h name
                end
           else getItem h name.
Proof.
  intros Hw. unfold import_field, Json.get, cbind.
  eexists. split; [reflexivity|].
  destruct (Json.prop fields (key_name key)) as [v|] eqn:E.
  - destruct (test v) eqn:Et.
    + unfold writeLS. rewrite Hw. cbn [negb]. split; [exact Hw|].
      intros name. unfold getItem, setItem. cbn [localStorage].
      destruct (decide (name = key_name key)) as [->|Hn].
      * rewrite E, Et. apply lookup_insert_eq.
      * apply lookup_insert_ne. congruence.
    + split; [exact Hw|]. intros name.
      destruct (decide (name = key_name key)) as [->|Hn]; [rewrite E, Et|]; reflexivity.
  - split; [exact Hw|]. intros name.
    destruct (decide (name = key_name key)) as [->|Hn]; [rewrite E|]; reflexivity.
Qed.

Ltac key_step G :=
  rewrite G;
  destruct (decide _) as [E|E];
  [ first [ apply key_name_inj in E; discriminate E | clear E ]
  | first [ exfalso; apply E; reflexivity | clear E ] ].

Ltac other_step G Hn :=
  rewrite G;
  destruct (decide _) as [E|E]; [exfalso; exact (Hn _ E)|clear E].

Lemma importAll_obj h text fields :
  window_defined h = true ->
  text <> [] ->
  JSON_parse text = Normal (Json.Obj fields) ->
  exists h',
    importAll JSON_parse JSON_stringify h text = Normal h'
    /\ window_defined h' = true
    /\ (forall key,
          getItem h' (key_name key)
          = match Json.prop fields (key_name key) with
            | Some v => if imported key v then Some (JSON_stringify v)
                        else getItem h (key_name key)
            | None => getItem h (key_name key)
            end)
    /\ (forall name, (forall key, name <> key_name key) ->
          getItem h' name = getItem h name).
Proof.
  intros Hw Hne Hp. unfold importAll, safeParse.
  destruct text as [|c t]; [congruence|]. rewrite Hp. cbn [try_catch cbind].
  destruct (import_field_obj Json.truthy fields prompts h Hw) as (h1 & E1 & W1 & G1).
  destruct (import_field_obj Json.truthy fields apiProfiles h1 W1) as (h2 & E2 & W2 & G2).
  destruct (import_field_obj Json.truthy fields defaults h2 W2) as (h3 & E3 & W3 & G3).
  destruct (import_field_obj Json.truthy fields noteApi h3 W3) as (h4 & E4 & W4 & G4).
  destruct (import_field_obj Json.truthy fields tasks h4 W4) as (h5 & E5 & W5 & G5).
  destruct (import_field_obj Json.truthy fields results h5 W5) as (h6 & E6 & W6 & G6).
  destruct (import_field_obj Json.truthy fields images h6 W6) as (h7 & E7 & W7 & G7).
  destruct (import_field_obj defined fields writeCount h7 W7) as (h8 & E8 & W8 & G8).
  destruct (import_field_obj defined fields autoSaveNote h8 W8) as (h9 & E9 & W9 & G9).
  destruct (import_field_obj defined fields imageCount h9 W9) as (h10 & E10 & W10 & G10).
  rewrite E1. cbn [cbind]. rewrite E2. cbn [cbind]. rewrite E3. cbn [cbind].
  rewrite E4. cbn [cbind]. rewrite E5. cbn [cbind]. rewrite E6. cbn [cbind].
  rewrite E7. cbn [cbind]. rewrite E8. cbn [cbind]. rewrite E9. cbn [cbind].
  exists h10. split; [exact E10|]. split; [exact W10|]. split.
  - intros key.
    destruct key; key_step G10; key_step G9; key_step G8; key_step G7;
      key_step G6; key_step G5; key_step G4; key_step G3; key_step G2;
      key_step G1; reflexivity.
  - intros name Hn.
    other_step G10 Hn; other_step G9 Hn; other_step G8 Hn; other_step G7 Hn;
      other_step G6 Hn; other_step G5 Hn; other_step G4 Hn; other_step G3 Hn;
      other_step G2 Hn; other_step G1 Hn; reflexivity.
Qed.

(** [importAll] of a text that parses to an object writes, for each of the
    ten keys, the field of that name when it is present and, for the seven
    list and profile keys, truthy; the three settings [writeCount],
    [autoSaveNote] and [imageCount] are written whenever they are present.
    Every other key of the store, and every absent or skipped key, keeps its
    stored string. *)
Theorem importAll_writes_the_fields_present h text fields :
  window_defined h = true ->
  text <> [] ->
  JSON_parse text = Normal (Json.Obj fields) ->
  exists h',
    importAll JSON_parse JSON_stringify h text = Normal h'
    /\ (forall key,
          getItem h' (key_name key)
          = match Json.prop fields (key_name key) with
            | Some v => if imported key v then Some (JSON_stringify v)
                        else getItem h (key_name key)
            | None => getItem h (key_name key)
            end)
    /\ (forall name, (forall key, name <> key_name key) ->
          getItem h' name = getItem h name).
Proof.
  intros Hw Hne Hp.
  destruct (importAll_obj h text fields Hw Hne Hp) as (h' & E & _ & G & F).
  exists h'. auto.
Qed.

Lemma import_field_empty test key h :
  import_field JSON_stringify test (Json.Obj []) key h = Normal h.
Proof. reflexivity. Qed.

(** [importAll] of the empty text, or of a text that [JSON.parse] rejects,
    leaves the store as it is and does not throw. *)
Theorem importAll_ignores_unreadable_text h text :
  text = [] \/ (exists message, JSON_parse text = Throw message) ->
  importAll JSON_parse JSON_stringify h text = Normal h.
Proof.
  intros H. unfold importAll, safeParse.
  destruct H as [->|(message & H)]; [reflexivity|].
  destruct text as [|c t]; [reflexivity|]. rewrite H. reflexivity.
Qed.

(** [importAll] of a text that parses to a value other than an object
    leaves the store as it is, except for [null], on which the first
    property access throws. *)
Theorem importAll_of_a_value_that_is_no_object h text v :
  text <> [] ->
  JSON_parse text = Normal v ->
  is_object v = false ->
  importAll JSON_parse JSON_stringify h text
  = match v with
    | Json.Null => Throw (js "TypeError")
    | _ => Normal h
    end.
Proof.
  intros Hne Hp Ho. unfold importAll, safeParse.
  destruct text as [|c t]; [congruence|]. rewrite Hp. cbn [try_catch cbind].
  destruct v; try discriminate Ho; reflexivity.
Qed.

Variable JSON_stringify_pretty : Json.t -> jsstring.

Lemma read_normal h key : exists v, read JSON_parse h key = Normal v.
Proof.
  unfold read, readLS. destruct (negb (window_defined h)); [eauto|].
  apply StorageFacts.safeParse_normal.
Qed.

(** Importing the text of [exportAll] into a second browser stores, under
    each key, the value that the first browser reads for it (stored or
    fallback), for the three settings always and for the other keys when that
    value is truthy; a key whose value in the first browser is falsy keeps
    what the second browser had. *)
Theorem export_then_import h h2 b :
  window_defined h = true ->
  window_defined h2 = true ->
  bundle JSON_parse h = Normal b ->
  JSON_stringify_pretty b <> [] ->
  JSON_parse (JSON_stringify_pretty b) = Normal b ->
  exists h',
    cbind (exportAll JSON_parse JSON_stringify_pretty h)
          (importAll JSON_parse JSON_stringify h2) = Normal h'
    /\ forall key, exists v,
         readLS JSON_parse h key (fallback_of key) = Normal v
         /\ getItem h' (key_name key)
            = if imported key v then Some (JSON_stringify v)
              else getItem h2 (key_name key).
Proof.
  intros Hw Hw2 Hb Hne Hp. unfold exportAll. rewrite Hw, Hb. cbn [negb cbind].
  unfold bundle in Hb.
  destruct (read_normal h prompts) as (v1 & R1).
  destruct (read_normal h apiProfiles) as (v2 & R2).
  destruct (read_normal h defaults) as (v3 & R3).
  destruct (read_normal h noteApi) as (v4 & R4).
  destruct (read_normal h tasks) as (v5 & R5).
  destruct (read_normal h results) as (v6 & R6).
  destruct (read_normal h images) as (v7 & R7).
  destruct (read_normal h writeCount) as (v8 & R8).
  destruct (read_normal h autoSaveNote) as (v9 & R9).
  destruct (read_normal h imageCount) as (v10 & R10).
  rewrite R1, R2, R3, R4, R5, R6, R7, R8, R9, R10 in Hb. cbn [cbind] in Hb.
  injection Hb as <-.
  destruct (importAll_obj h2 _ _ Hw2 Hne Hp) as (h' & E & _ & G & _).
  exists h'. split; [exact E|]. intros key.
  destruct key; [exists v1|exists v2|exists v3|exists v5|exists v6|exists v4|exists v7
                |exists v8|exists v9|exists v10];
    (split; [assumption|]); rewrite G; reflexivity.
Qed.

End Backup.

Import PersistExamples Examples.

Lemma written_value_is_read_back_witness :
  (forall fallback,
     readLS JSON_parse_bool (writeLS print_bool brokenStore autoSaveNote false)
       autoSaveNote fallback = Normal false)
  /\ (forall key' fallback, key' <> autoSaveNote ->
        readLS JSON_parse_bool (writeLS print_bool brokenStore autoSaveNote false)
          key' fallback
        = readLS JSON_parse_bool brokenStore key' fallback).
Proof.
  apply (written_value_is_read_back JSON_parse_bool print_bool brokenStore
           autoSaveNote false).
  - reflexivity.
  - vm_compute. intros H. discriminate H.
  - vm_compute. reflexivity.
Defined.

Lemma importAll_writes_the_fields_present_witness :
  exists h',
    importAll (parse_among [partialBackup]) print brokenStore (print partialBackup)
    = Normal h'
    /\ (forall key,
          getItem h' (key_name key)
          = match Json.prop [(js "autoSaveNote", Json.Bool false);
                             (js "prompts", Json.Arr []); (js "tasks", Json.Null)]
                    (key_name key) with
            | Some v => if imported key v then Some (print v)
                        else getItem brokenStore (key_name key)
            | None => getItem brokenStore (key_name key)
            end)
    /\ (forall name, (forall key, name <> key_name key) ->
          getItem h' name = getItem brokenStore name).
Proof.
  apply (importAll_writes_the_fields_present (parse_among [partialBackup]) print
           brokenStore (print partialBackup)).
  - reflexivity.
  - vm_compute. intros H. discriminate H.
  - vm_compute. reflexivity.
Defined.

Lemma importAll_ignores_unreadable_text_witness :
  importAll (parse_among [partialBackup]) print brokenStore (js "{") = Normal brokenStore.
Proof.
  apply (importAll_ignores_unreadable_text (parse_among [partialBackup]) print
           brokenStore (js "{")).
  right. exists (js "SyntaxError"). vm_compute. reflexivity.
Defined.

Lemma importAll_of_a_value_that_is_no_object_witness :
  importAll smallParse print brokenStore (js "null") = Throw (js "TypeError").
Proof.
  apply (importAll_of_a_value_that_is_no_object smallParse print brokenStore
           (js "null") Json.Null).
  - vm_compute. intros H. discriminate H.
  - vm_compute. reflexivity.
  - reflexivity.
Defined.

Lemma export_then_import_witness :
  exists h',
    cbind (exportAll smallParse print smallStore)
          (importAll smallParse print brokenStore) = Normal h'
    /\ forall key, exists v,
         readLS smallParse smallStore key (fallback_of key) = Normal v
         /\ getItem h' (key_name key)
            = if imported key v then Some (print v)
              else getItem brokenStore (key_name key).
Proof.
  apply (export_then_import smallParse print print smallStore brokenStore smallBundle).
  - reflexivity.
  - reflexivity.
  - vm_compute. reflexivity.
  - vm_compute. intros H. discriminate H.
  - vm_compute. reflexivity.
Defined.

End PersistFacts.

Module RunsFacts.
Import Text Workbench WorkbenchFacts Runs.

Lemma searchStage_done e net task so st :
  search_done e net task so ->
  exists st1, searchStage e net task st = (Normal so, st1)
              /\ results st1 = results st /\ toasts st1 = toasts st.
Proof.
  intros [Hn|scfg sp content Hn Hc Hp Ho]; unfold searchStage; rewrite Hn.
  - eexists; repeat split; reflexivity.
  - rewrite Hc, Hp. unfold bind, update, await. fold (searchRequest scfg sp task).
    rewrite Ho. eexists; repeat split; reflexivity.
Qed.

Lemma writeStage_single e net wcfg task so wp content st :
  resolveWritePrompt e task = Some wp -> single_version e = true ->
  outcome_of (write_call net (writeRequest e wcfg task wp so) 1) = Resolved content ->
  exists st1,
    writeStage e net wcfg task so st = (Normal [TaskInput.id task], st1)
    /\ results st1
       = insertSingle
           (singleResult task so content
              (settled_at (write_call net (writeRequest e wcfg task wp so) 1)))
           (results st)
    /\ toasts st1 = toasts st.
Proof.
  intros Hp Hc Ho. unfold writeStage. rewrite Hp, Hc.
  unfold bind, update, await. fold (writeRequest e wcfg task wp so).
  rewrite Ho. eexists; repeat split; reflexivity.
Qed.

Lemma first_rejection_all_resolved net req task so (out : nat -> jsstring) ks :
  (forall k, In k ks -> outcome_of (write_call net req k) = Resolved (out k)) ->
  first_rejection (map (variantPromise net req task so) ks) = None
  /\ fulfilled (map (variantPromise net req task so) ks)
     = map (fun k => variantResult task so k (out k) (settled_at (write_call net req k))) ks.
Proof.
  induction ks as [|k ks IH]; intros H; [split; reflexivity|].
  destruct IH as [IH1 IH2]; [intros j Hj; apply H; right; exact Hj|].
  cbn [map]. unfold variantPromise at 1 3. rewrite (H k) by (left; reflexivity).
  cbn [first_rejection fulfilled]. split; [exact IH1|]. rewrite IH2. reflexivity.
Qed.

Lemma writeStage_variants e net wcfg task so wp (out : nat -> jsstring) st :
  resolveWritePrompt e task = Some wp -> single_version e = false ->
  (forall k, 1 <= k <= variant_count e ->
     outcome_of (write_call net (writeRequest e wcfg task wp so) k) = Resolved (out k)) ->
  exists st1 created,
    writeStage e net wcfg task so st = (Normal created, st1)
    /\ results st1
       = replaceVariants (TaskInput.id task)
           (map (fun k => variantResult task so k (out k)
                   (settled_at (write_call net (writeRequest e wcfg task wp so) k)))
              (seq 1 (variant_count e)))
           (results st)
    /\ toasts st1 = toasts st.
Proof.
  intros Hp Hc Ho. unfold writeStage. rewrite Hp, Hc.
  unfold bind, update, promise_all. fold (writeRequest e wcfg task wp so).
  destruct (first_rejection_all_resolved net (writeRequest e wcfg task wp so) task so out
              (seq 1 (variant_count e))) as [E1 E2].
  { intros k Hk. apply in_seq in Hk. apply Ho. lia. }
  rewrite E1. unfold ret. rewrite E2. do 2 eexists; repeat split; reflexivity.
Qed.

Lemma runOne_of_body e net task st wcfg u st1 :
  apiProfiles_write e = Some wcfg ->
  runBody e net wcfg task
    (set_abortMap (insert (TaskInput.id task) {| aborted := false |})
       (set_runningIds (fun _ => seen_runningIds e ∪ {[TaskInput.id task]}) st))
  = (Normal u, st1) ->
  runOne e net task st = cleanup (TaskInput.id task) st1.
Proof. intros Hw Hb. unfold runOne. rewrite Hw. cbv zeta. rewrite Hb. reflexivity. Qed.

Lemma runBody_normal e net wcfg task so created st sA sB :
  searchStage e net task st = (Normal so, sA) ->
  writeStage e net wcfg task so sA = (Normal created, sB) ->
  exists sC, runBody e net wcfg task st = (Normal tt, sC)
             /\ results sC = results sB
             /\ (autoSaveNote e = false -> toasts sC = toasts sB).
Proof.
  intros Hs Hw. unfold runBody, bind. rewrite Hs, Hw.
  destruct (autoSaveNote e).
  - destruct (saveToNoteApi_normal e net created sB) as (sC & E & Hr).
    exists sC. rewrite E. repeat split; [exact Hr|discriminate].
  - exists sB. repeat split.
Qed.

(** A run of one version whose calls all succeed puts exactly one result
    into the list, in place of the earlier result of the item: the one built
    from the item, the search output and the sanitized completion, stamped
    with the time of the write call.  Without auto-save it notifies nothing. *)
Theorem successful_single_run e net task st wcfg wp so content :
  apiProfiles_write e = Some wcfg -> search_done e net task so ->
  resolveWritePrompt e task = Some wp -> single_version e = true ->
  outcome_of (write_call net (writeRequest e wcfg task wp so) 1) = Resolved content ->
  results (runOne e net task st)
  = insertSingle
      (singleResult task so content
         (settled_at (write_call net (writeRequest e wcfg task wp so) 1)))
      (results st)
  /\ (autoSaveNote e = false -> toasts (runOne e net task st) = toasts st).
Proof.
  intros Hw Hs Hp Hc Ho.
  set (st0 := set_abortMap (insert (TaskInput.id task) {| aborted := false |})
                (set_runningIds (fun _ => seen_runningIds e ∪ {[TaskInput.id task]}) st)).
  destruct (searchStage_done e net task so st0 Hs) as (sA & Es & Hr1 & Ht1).
  destruct (writeStage_single e net wcfg task so wp content sA Hp Hc Ho)
    as (sB & Ew & Hr2 & Ht2).
  destruct (runBody_normal e net wcfg task so _ st0 sA sB Es Ew) as (sC & Eb & Hr3 & Ht3).
  rewrite (runOne_of_body e net task st wcfg tt sC Hw Eb).
  rewrite cleanup_results, cleanup_toasts, Hr3, Hr2, Hr1. split; [reflexivity|].
  intros Ha. rewrite (Ht3 Ha), Ht2, Ht1. reflexivity.
Qed.

Lemma successful_single_run_witness :
  results (runOne (Examples.settings 1) Examples.healthyNet Examples.taskA
             (Examples.stateWith [Examples.resultWithId (js "a")]))
  = insertSingle
      (singleResult Examples.taskA None (js "out")
         (settled_at
            (write_call Examples.healthyNet
               (writeRequest (Examples.settings 1) Examples.writeConfig Examples.taskA
                  Examples.writePrompt None) 1)))
      (results (Examples.stateWith [Examples.resultWithId (js "a")]))
  /\ (autoSaveNote (Examples.settings 1) = false ->
      toasts (runOne (Examples.settings 1) Examples.healthyNet Examples.taskA
                (Examples.stateWith [Examples.resultWithId (js "a")]))
      = toasts (Examples.stateWith [Examples.resultWithId (js "a")])).
Proof.
  apply (successful_single_run (Examples.settings 1) Examples.healthyNet Examples.taskA
           (Examples.stateWith [Examples.resultWithId (js "a")])
           Examples.writeConfig Examples.writePrompt None (js "out")).
  - reflexivity.
  - apply search_skipped. reflexivity.
  - vm_compute. reflexivity.
  - vm_compute. reflexivity.
  - reflexivity.
Defined.

(** A run of [n >= 2] versions whose calls all succeed replaces the earlier
    results of the item (its single result and its variants) by the [n]
    variants, numbered 1 to [n], each built from the completion of its own
    call.  Without auto-save it notifies nothing. *)
Theorem successful_variant_run e net task st wcfg wp so (out : nat -> jsstring) :
  apiProfiles_write e = Some wcfg -> search_done e net task so ->
  resolveWritePrompt e task = Some wp -> 2 <= variant_count e ->
  (forall k, 1 <= k <= variant_count e ->
     outcome_of (write_call net (writeRequest e wcfg task wp so) k) = Resolved (out k)) ->
  results (runOne e net task st)
  = replaceVariants (TaskInput.id task)
      (map (fun k => variantResult task so k (out k)
              (settled_at (write_call net (writeRequest e wcfg task wp so) k)))
         (seq 1 (variant_count e)))
      (results st)
  /\ (autoSaveNote e = false -> toasts (runOne e net task st) = toasts st).
Proof.
  intros Hw Hs Hp Hc Ho.
  set (st0 := set_abortMap (insert (TaskInput.id task) {| aborted := false |})
                (set_runningIds (fun _ => seen_runningIds e ∪ {[TaskInput.id task]}) st)).
  destruct (searchStage_done e net task so st0 Hs) as (sA & Es & Hr1 & Ht1).
  destruct (writeStage_variants e net wcfg task so wp out sA Hp
              (several_versions_not_single e Hc) Ho)
    as (sB & created & Ew & Hr2 & Ht2).
  destruct (runBody_normal e net wcfg task so _ st0 sA sB Es Ew) as (sC & Eb & Hr3 & Ht3).
  rewrite (runOne_of_body e net task st wcfg tt sC Hw Eb).
  rewrite cleanup_results, cleanup_toasts, Hr3, Hr2, Hr1. split; [reflexivity|].
  intros Ha. rewrite (Ht3 Ha), Ht2, Ht1. reflexivity.
Qed.

Lemma successful_variant_run_witness :
  results (runOne (Examples.settings 2) Examples.healthyNet Examples.taskA
             (Examples.stateWith [Examples.resultWithId (js "a")]))
  = replaceVariants (TaskInput.id Examples.taskA)
      (map (fun k => variantResult Examples.taskA None k (js "out")
              (settled_at
                 (write_call Examples.healthyNet
                    (writeRequest (Examples.settings 2) Examples.writeConfig
                       Examples.taskA Examples.writePrompt None) k)))
         (seq 1 (variant_count (Examples.settings 2))))
      (results (Examples.stateWith [Examples.resultWithId (js "a")]))
  /\ (autoSaveNote (Examples.settings 2) = false ->
      toasts (runOne (Examples.settings 2) Examples.healthyNet Examples.taskA
                (Examples.stateWith [Examples.resultWithId (js "a")]))
      = toasts (Examples.stateWith [Examples.resultWithId (js "a")])).
Proof.
  apply (successful_variant_run (Examples.settings 2) Examples.healthyNet Examples.taskA
           (Examples.stateWith [Examples.resultWithId (js "a")])
           Examples.writeConfig Examples.writePrompt None (fun _ => js "out")).
  - reflexivity.
  - apply search_skipped. reflexivity.
  - vm_compute. reflexivity.
  - vm_compute. lia.
  - intros k _. reflexivity.
Defined.

Lemma insert_sorted_Sorted {A} (cmp : A -> A -> Z) (x : A) (l : list A) :
  (forall a b, (0 < cmp a b)%Z -> (cmp b a <= 0)%Z) ->
  Sorted (fun a b => (cmp a b <= 0)%Z) l ->
  Sorted (fun a b => (cmp a b <= 0)%Z) (insert_sorted cmp x l).
Proof.
  intros Htot. induction l as [|y l IH]; intros Hs; simpl.
  - repeat constructor.
  - destruct (0 <? cmp x y)%Z eqn:E.
    + apply Z.ltb_lt in E. inversion Hs as [|? ? Hs' Hr]; subst.
      constructor; [apply IH, Hs'|].
      destruct l as [|z l]; simpl.
      * constructor. apply Htot, E.
      * destruct (0 <? cmp x z)%Z; constructor; [inversion Hr; assumption|apply Htot, E].
    + apply Z.ltb_ge in E. constructor; [exact Hs|]. constructor. exact E.
Qed.

Lemma sort_by_Sorted {A} (cmp : A -> A -> Z) (l : list A) :
  (forall a b, (0 < cmp a b)%Z -> (cmp b a <= 0)%Z) ->
  Sorted (fun a b => (cmp a b <= 0)%Z) (sort_by cmp l).
Proof.
  intros Htot. induction l as [|x l IH]; simpl; [constructor|].
  apply insert_sorted_Sorted; assumption.
Qed.

Lemma by_index_le a b : (by_index a b <= 0)%Z <-> index_le a b.
Proof. unfold by_index, index_le. lia. Qed.

Lemma by_index_then_variant_le a b :
  (by_index_then_variant a b <= 0)%Z <-> index_variant_le a b.
Proof.
  unfold by_index_then_variant, by_index, index_variant_le.
  destruct (_ =? 0)%Z eqn:E; [apply Z.eqb_eq in E|apply Z.eqb_neq in E]; lia.
Qed.

Lemma Sorted_iff {A} (R S : A -> A -> Prop) l :
  (forall a b, R a b <-> S a b) -> Sorted R l -> Sorted S l.
Proof.
  intros H. induction 1 as [|a l Hs IH Hr]; constructor; auto.
  destruct Hr; constructor. apply H. assumption.
Qed.

Lemma index_le_trans : Relations_1.Transitive index_le.
Proof. intros a b c H1 H2. unfold index_le in *. lia. Qed.

Lemma index_variant_le_trans : Relations_1.Transitive index_variant_le.
Proof. intros a b c H1 H2. unfold index_variant_le in *. lia. Qed.

(** Both updates of the result list return a list that is sorted, by the
    index, respectively by the index and then the variant number with the
    single result first, and that holds exactly the kept entries and the new
    ones. *)
Theorem updates_keep_results_sorted tr taskId variants prev :
  StronglySorted index_le (insertSingle tr prev)
  /\ Permutation (insertSingle tr prev) (keptBySingle tr prev ++ [tr])
  /\ StronglySorted index_variant_le (replaceVariants taskId variants prev)
  /\ Permutation (replaceVariants taskId variants prev)
       (keptByVariants taskId prev ++ variants).
Proof.
  split; [|split; [|split]].
  - apply Sorted_StronglySorted; [apply index_le_trans|].
    apply (Sorted_iff _ _ _ by_index_le). apply sort_by_Sorted.
    intros a b. unfold by_index. lia.
  - apply sort_by_perm.
  - apply Sorted_StronglySorted; [apply index_variant_le_trans|].
    apply (Sorted_iff _ _ _ by_index_then_variant_le). apply sort_by_Sorted.
    intros a b. unfold by_index_then_variant, by_index.
    destruct (Z.eqb_spec (TaskResult.index a - TaskResult.index b) 0),
             (Z.eqb_spec (TaskResult.index b - TaskResult.index a) 0); lia.
  - apply sort_by_perm.
Qed.

Lemma refine_cases e net r st :
  results (refine e net r st) = results st
  \/ exists content now,
       results (refine e net r st)
       = refineUpdate (TaskResult.id r) (stripThinking content) now (results st).
Proof.
  unfold refine.
  destruct (trim _); [left; reflexivity|].
  destruct (match find_task e (TaskResult.parentId r) with Some t => Some t | None => _ end);
    [|left; reflexivity].
  destruct (apiProfiles_write e); [|left; reflexivity].
  destruct (resolveWritePrompt e t); [|left; reflexivity].
  cbv zeta. unfold bind, update.
  match goal with |- context [await ?s ?st'] =>
    pose proof (await_state s st') as Hs; destruct (await s st') as [[x|m'] st2] end;
  simpl in Hs; subst st2; [|left; reflexivity].
  right. do 2 eexists. reflexivity.
Qed.

Lemma refineUpdate_frame rid newOut now prev :
  Forall2 (fun old new => same_entry_but_output old new
                          /\ (TaskResult.id old <> rid -> new = old))
    prev (refineUpdate rid newOut now prev).
Proof.
  induction prev as [|x l IH]; [constructor|].
  cbn [refineUpdate map]. constructor; [|exact IH].
  unfold jsstring_eqb. destruct (bool_decide_reflect (TaskResult.id x = rid)).
  - split; [repeat split|contradiction].
  - split; [repeat split|reflexivity].
Qed.

(** Whatever the refinement does, the result list keeps its length and
    order, every entry keeps its id, index, raw text, search output, parent
    and variant number, and the entries with another id are unchanged. *)
Theorem refine_touches_only_the_output e net r st :
  Forall2 (fun old new => same_entry_but_output old new
                          /\ (TaskResult.id old <> TaskResult.id r -> new = old))
    (results st) (results (refine e net r st)).
Proof.
  destruct (refine_cases e net r st) as [->|(content & now & ->)].
  - induction (results st); constructor; auto. split; [repeat split|reflexivity].
  - apply refineUpdate_frame.
Qed.

Lemma refineUpdate_entries rid newOut now prev :
  Forall2 (fun old new =>
             same_entry_but_output old new
             /\ (TaskResult.id old = rid ->
                 TaskResult.writeOutput new = Some newOut
                 /\ TaskResult.createdAt new = now)
             /\ (TaskResult.id old <> rid -> new = old))
    prev (refineUpdate rid newOut now prev).
Proof.
  induction prev as [|x l IH]; [constructor|].
  cbn [refineUpdate map]. constructor; [|exact IH].
  unfold jsstring_eqb. destruct (bool_decide_reflect (TaskResult.id x = rid)).
  - split; [repeat split|]. split; [intros _; split; reflexivity|contradiction].
  - split; [repeat split|]. split; [contradiction|reflexivity].
Qed.

(** A refinement that passes its checks sends the system prompt and one user
    message (the raw text of the item, the current output of the result,
    the trimmed instruction and the closing requirement, each under its
    heading) and clears its stage mark.  When the call succeeds, the result
    list keeps its length and order, every entry with the id of the result
    gets the sanitized completion as its output and the time of the answer
    as its creation time and keeps its other fields, every other entry is
    unchanged, and a success is notified; when the call fails, the results
    are unchanged and the failure is notified. *)
Theorem refine_outcome e net r st task wcfg wp :
  refineNote e r <> [] -> refineTask e r = Some task ->
  apiProfiles_write e = Some wcfg -> resolveWritePrompt e task = Some wp ->
  let call :=
    refine_call net
      {| config := wcfg;
         messages :=
           [ {| msg_role := system; msg_content := PromptItem.content wp |};
             {| msg_role := user;
                msg_content :=
                  js "【原始素材】" ++ [LF] ++ TaskInput.raw task
                  ++ [LF; LF] ++ js "【当前文案】" ++ [LF]
                  ++ match TaskResult.writeOutput r with Some o => o | None => [] end
                  ++ [LF; LF] ++ js "【修改指令】" ++ [LF] ++ refineNote e r
                  ++ [LF; LF]
                  ++ js "【要求】直接输出最终文案，不要包含任何思考、解释或额外说明。" |} ] |} in
  stages (refine e net r st) !! TaskResult.id r = None
  /\ match outcome_of call with
     | Resolved content =>
       Forall2 (fun old new =>
                  same_entry_but_output old new
                  /\ (TaskResult.id old = TaskResult.id r ->
                      TaskResult.writeOutput new = Some (stripThinking content)
                      /\ TaskResult.createdAt new = settled_at call)
                  /\ (TaskResult.id old <> TaskResult.id r -> new = old))
         (results st) (results (refine e net r st))
       /\ toasts (refine e net r st) = toasts st ++ [ToastSuccess (js "已完成微调")]
     | Rejected message | Aborted message =>
       results (refine e net r st) = results st
       /\ toasts (refine e net r st)
          = toasts st ++ [ToastError (js "微调失败：" ++ error_text message)]
     end.
Proof.
  intros Hn Ht Hw Hp call. unfold refine.
  fold (refineNote e r). fold (refineTask e r).
  destruct (refineNote e r) as [|c0 n0] eqn:En; [congruence|].
  rewrite Ht, Hw, Hp. cbv zeta. unfold bind, update, await.
  change (refine_call net
            {| config := wcfg; messages := refineMessages task wp r (c0 :: n0) |})
    with call.
  destruct (outcome_of call);
    cbn [results toasts stages set_stages add_toast set_results];
    (split; [apply lookup_delete_eq|split; [|reflexivity]]);
    [apply refineUpdate_entries|reflexivity|reflexivity].
Qed.

Lemma refine_outcome_witness :
  stages (refine MoreExamples.refineSettings Examples.healthyNet
            (Examples.resultWithId (js "a"))
            (Examples.stateWith [Examples.resultWithId (js "a")]))
    !! js "a" = None
  /\ Forall2 (fun old new =>
                same_entry_but_output old new
                /\ (TaskResult.id old = js "a" ->
                    TaskResult.writeOutput new = Some (stripThinking (js "out"))
                    /\ TaskResult.createdAt new = 30%N)
                /\ (TaskResult.id old <> js "a" -> new = old))
       [Examples.resultWithId (js "a")]
       (results (refine MoreExamples.refineSettings Examples.healthyNet
                   (Examples.resultWithId (js "a"))
                   (Examples.stateWith [Examples.resultWithId (js "a")])))
  /\ toasts (refine MoreExamples.refineSettings Examples.healthyNet
               (Examples.resultWithId (js "a"))
               (Examples.stateWith [Examples.resultWithId (js "a")]))
     = [ToastSuccess (js "已完成微调")].
Proof.
  apply (refine_outcome MoreExamples.refineSettings Examples.healthyNet
           (Examples.resultWithId (js "a"))
           (Examples.stateWith [Examples.resultWithId (js "a")])
           Examples.taskA Examples.writeConfig Examples.writePrompt).
  - vm_compute. intros H. discriminate H.
  - vm_compute. reflexivity.
  - reflexivity.
  - vm_compute. reflexivity.
Defined.

Lemma saveToNoteApi_frame e net sel st :
  exists st1, saveToNoteApi e net sel st = (Normal tt, st1)
              /\ results st1 = results st /\ runningIds st1 = runningIds st
              /\ stages st1 = stages st /\ abortMap st1 = abortMap st.
Proof.
  unfold saveToNoteApi.
  destruct (noteApi_endpoint e); [eexists; repeat split; reflexivity|].
  destruct (noteApi_apiKey e); [eexists; repeat split; reflexivity|].
  destruct (notePayloads e sel) as [|p ps]; [eexists; repeat split; reflexivity|].
  match goal with |- context [promise_all ?l st] =>
    pose proof (promise_all_state l st) as Hs;
    destruct (promise_all l st) as [[x|m] st1] end;
  simpl in Hs; subst st1; eexists; repeat split; reflexivity.
Qed.

Lemma searchStage_tracking e net task st :
  same_tracking_of_others (TaskInput.id task) st (snd (searchStage e net task st)).
Proof.
  intros j Hj. unfold searchStage.
  destruct (TaskInput.needsSearch task); [|split; reflexivity].
  destruct (apiProfiles_search e); [|split; reflexivity].
  destruct (selectedSearchPrompt e); [|split; reflexivity].
  unfold bind, update.
  match goal with |- context [await ?s ?st'] =>
    pose proof (await_state s st') as Hs; destruct (await s st') as [[x|m] st1] end;
  simpl in Hs; subst st1; cbn [snd abortMap stages set_stages];
    (split; [reflexivity|apply lookup_insert_ne; intros E; apply Hj; symmetry; exact E]).
Qed.

Lemma writeStage_tracking e net wcfg task so st :
  same_tracking_of_others (TaskInput.id task) st (snd (writeStage e net wcfg task so st)).
Proof.
  intros j Hj. unfold writeStage.
  destruct (resolveWritePrompt e task) as [wp|]; [|split; reflexivity].
  unfold bind, update.
  destruct (single_version e).
  - match goal with |- context [await ?s ?st'] =>
      pose proof (await_state s st') as Hs; destruct (await s st') as [[x|m] st1] end;
    simpl in Hs; subst st1; cbn [snd abortMap stages set_stages set_results ret];
      (split; [reflexivity|apply lookup_insert_ne; intros E; apply Hj; symmetry; exact E]).
  - match goal with |- context [promise_all ?l ?st'] =>
      pose proof (promise_all_state l st') as Hs;
      destruct (promise_all l st') as [[x|m] st1] end;
    simpl in Hs; subst st1; cbn [snd abortMap stages set_stages set_results ret];
      (split; [reflexivity|apply lookup_insert_ne; intros E; apply Hj; symmetry; exact E]).
Qed.

Lemma runBody_tracking e net wcfg task st :
  same_tracking_of_others (TaskInput.id task) st (snd (runBody e net wcfg task st)).
Proof.
  intros j Hj. unfold runBody, bind.
  pose proof (searchStage_tracking e net task st j Hj) as [Ha1 Hs1].
  destruct (searchStage e net task st) as [[so|m0] sA]; cbn [snd] in *; [|auto].
  pose proof (writeStage_tracking e net wcfg task so sA j Hj) as [Ha2 Hs2].
  destruct (writeStage e net wcfg task so sA) as [[created|m1] sB]; cbn [snd] in *;
    [|split; congruence].
  destruct (autoSaveNote e); [|unfold ret; cbn [snd]; split; congruence].
  destruct (saveToNoteApi_frame e net created sB) as (sC & E & _ & _ & Hs3 & Ha3).
  rewrite E. cbn [snd]. rewrite Hs3, Ha3. split; congruence.
Qed.

(** However a run ends, with a configured write endpoint it leaves the item
    out of the running set, without abort controller and without stage
    mark, and it does not touch the controllers and stage marks of the other
    items. *)
Theorem runOne_always_clears_its_tracking e net task st wcfg :
  apiProfiles_write e = Some wcfg ->
  (TaskInput.id task ∉ runningIds (runOne e net task st))
  /\ abortMap (runOne e net task st) !! TaskInput.id task = None
  /\ stages (runOne e net task st) !! TaskInput.id task = None
  /\ same_tracking_of_others (TaskInput.id task) st (runOne e net task st).
Proof.
  intros Hw. unfold runOne. rewrite Hw. cbv zeta.
  rewrite cleanup_runningIds, cleanup_abortMap, cleanup_stages.
  split; [|split; [apply lookup_delete_eq|split; [apply lookup_delete_eq|]]].
  { rewrite elem_of_difference. intros [_ H]. apply H, elem_of_singleton. reflexivity. }
  intros j Hj. rewrite cleanup_abortMap, cleanup_stages.
  rewrite !lookup_delete_ne by (intros E; apply Hj; symmetry; exact E).
  match goal with |- context [runBody e net wcfg task ?st'] =>
    pose proof (runBody_tracking e net wcfg task st' j Hj) as [Ha Hs];
    destruct (runBody e net wcfg task st') as [[u|m] st1] end;
  cbn [snd] in Ha, Hs; cbn [abortMap stages add_toast];
  rewrite Ha, Hs; cbn [abortMap stages set_abortMap set_runningIds];
  (split; [apply lookup_insert_ne; intros E; apply Hj; symmetry; exact E|reflexivity]).
Qed.

Lemma runOne_always_clears_its_tracking_witness :
  (TaskInput.id Examples.taskA
     ∉ runningIds (runOne (Examples.settings 2) Examples.secondFails Examples.taskA
                     (Examples.stateWith [])))
  /\ abortMap (runOne (Examples.settings 2) Examples.secondFails Examples.taskA
                 (Examples.stateWith [])) !! TaskInput.id Examples.taskA = None
  /\ stages (runOne (Examples.settings 2) Examples.secondFails Examples.taskA
               (Examples.stateWith [])) !! TaskInput.id Examples.taskA = None
  /\ same_tracking_of_others (TaskInput.id Examples.taskA) (Examples.stateWith [])
       (runOne (Examples.settings 2) Examples.secondFails Examples.taskA
          (Examples.stateWith [])).
Proof.
  apply (runOne_always_clears_its_tracking (Examples.settings 2) Examples.secondFails
           Examples.taskA (Examples.stateWith []) Examples.writeConfig).
  reflexivity.
Defined.

Lemma runBody_autoSave_frame e net wcfg task st b :
  let r1 := runBody (with_autoSaveNote b e) net wcfg task st in
  let r2 := runBody e net wcfg task st in
  results (snd r1) = results (snd r2) /\ runningIds (snd r1) = runningIds (snd r2)
  /\ stages (snd r1) = stages (snd r2) /\ abortMap (snd r1) = abortMap (snd r2)
  /\ forall m, fst r1 = Throw m <-> fst r2 = Throw m.
Proof.
  cbv zeta. unfold runBody, bind.
  change (searchStage (with_autoSaveNote b e) net task st) with (searchStage e net task st).
  destruct (searchStage e net task st) as [[so|m0] sA]; [|repeat split; auto].
  change (writeStage (with_autoSaveNote b e) net wcfg task so sA)
    with (writeStage e net wcfg task so sA).
  destruct (writeStage e net wcfg task so sA) as [[created|m1] sB]; [|repeat split; auto].
  assert (Hsave : forall e0, exists sC,
            (if autoSaveNote e0 then saveToNoteApi e0 net created else ret tt) sB
            = (Normal tt, sC)
            /\ results sC = results sB /\ runningIds sC = runningIds sB
            /\ stages sC = stages sB /\ abortMap sC = abortMap sB).
  { intros e0. destruct (autoSaveNote e0).
    - apply saveToNoteApi_frame.
    - eexists. repeat split; reflexivity. }
  destruct (Hsave (with_autoSaveNote b e)) as (s1 & -> & R1 & U1 & S1 & A1).
  destruct (Hsave e) as (s2 & -> & R2 & U2 & S2 & A2).
  cbn [fst snd]. repeat split; try congruence; discriminate.
Qed.

(** The auto-save switch changes nothing but the notifications of a run:
    the results, the running set, the stage marks and the abort controllers
    are the same with and without it. *)
Theorem autoSave_affects_only_notifications e net task st b :
  results (runOne (with_autoSaveNote b e) net task st) = results (runOne e net task st)
  /\ runningIds (runOne (with_autoSaveNote b e) net task st)
     = runningIds (runOne e net task st)
  /\ stages (runOne (with_autoSaveNote b e) net task st) = stages (runOne e net task st)
  /\ abortMap (runOne (with_autoSaveNote b e) net task st)
     = abortMap (runOne e net task st).
Proof.
  unfold runOne.
  change (apiProfiles_write (with_autoSaveNote b e)) with (apiProfiles_write e).
  destruct (apiProfiles_write e) as [wcfg|]; [|repeat split].
  cbv zeta.
  change (seen_runningIds (with_autoSaveNote b e)) with (seen_runningIds e).
  match goal with |- context [runBody e net wcfg task ?st'] =>
    pose proof (runBody_autoSave_frame e net wcfg task st' b) as H; cbv zeta in H;
    destruct H as (R & U & S & A & T);
    destruct (runBody (with_autoSaveNote b e) net wcfg task st') as [[u1|m1] s1],
             (runBody e net wcfg task st') as [[u2|m2] s2] end;
  cbn [fst snd] in *;
  rewrite ?cleanup_results, ?cleanup_runningIds, ?cleanup_stages, ?cleanup_abortMap;
  cbn [results runningIds stages abortMap add_toast];
  rewrite R, U, S, A; repeat split.
Qed.

(** With a configuration error (no write endpoint, a search without its
    endpoint or prompt, or no write prompt when no search is asked for) a
    run does not depend on the provider at all: it leaves the results alone
    and notifies one error. *)
Theorem config_error_needs_no_call e task st :
  config_error e task ->
  forall net net',
    runOne e net task st = runOne e net' task st
    /\ results (runOne e net task st) = results st
    /\ exists message, toasts (runOne e net task st) = toasts st ++ [ToastError message].
Proof.
  intros H net net'. unfold runOne.
  destruct (apiProfiles_write e) as [wcfg|] eqn:Hw;
    [|repeat split; eexists; reflexivity].
  destruct H as [H|[[Hn [H|H]]|[Hn H]]]; [congruence| | |];
    cbv zeta; unfold runBody, bind, searchStage, writeStage; rewrite Hn, ?H.
  - unfold throw. repeat split. eexists; reflexivity.
  - destruct (apiProfiles_search e); unfold throw; repeat split; eexists; reflexivity.
  - unfold ret, throw. repeat split. eexists; reflexivity.
Qed.

Lemma config_error_needs_no_call_witness :
  runOne (Examples.settings 1) Examples.healthyNet MoreExamples.taskWithSearch
    (Examples.stateWith [])
  = runOne (Examples.settings 1) Examples.abortedNet MoreExamples.taskWithSearch
      (Examples.stateWith [])
  /\ results (runOne (Examples.settings 1) Examples.healthyNet
                MoreExamples.taskWithSearch (Examples.stateWith []))
     = results (Examples.stateWith [])
  /\ exists message,
       toasts (runOne (Examples.settings 1) Examples.healthyNet
                 MoreExamples.taskWithSearch (Examples.stateWith []))
       = toasts (Examples.stateWith []) ++ [ToastError message].
Proof.
  apply (config_error_needs_no_call (Examples.settings 1) MoreExamples.taskWithSearch
           (Examples.stateWith [])).
  right. left. split; [reflexivity|]. left. reflexivity.
Defined.

(** Applying the global settings to all items twice is the same as once;
    it keeps the ids, the indices and the raw texts, and sets the search
    switch of every item to the global one. *)
Theorem applyGlobalToAll_idempotent b e ts :
  applyGlobalToAll b e (applyGlobalToAll b e ts) = applyGlobalToAll b e ts
  /\ map TaskInput.id (applyGlobalToAll b e ts) = map TaskInput.id ts
  /\ map TaskInput.index (applyGlobalToAll b e ts) = map TaskInput.index ts
  /\ map TaskInput.raw (applyGlobalToAll b e ts) = map TaskInput.raw ts
  /\ Forall (fun t => TaskInput.needsSearch t = b) (applyGlobalToAll b e ts).
Proof.
  unfold applyGlobalToAll. rewrite !map_map. repeat split.
  - apply map_ext. intros t. cbn [TaskInput.id TaskInput.index TaskInput.title
      TaskInput.tags TaskInput.promptKey TaskInput.guidance TaskInput.raw].
    destruct (globalPromptId e), (globalGuidance e); reflexivity.
  - induction ts as [|t ts IH]; constructor; [reflexivity | exact IH].
Qed.

Lemma map_imap_index {A B C : Type} (g : B -> C) (h : nat -> C) (l : list A) :
  forall f : nat -> A -> B,
    (forall n a, g (f n a) = h n) -> map g (imap f l) = map h (seq 0 (length l)).
Proof.
  revert h. induction l as [|a l IH]; intros h f H; [reflexivity|].
  cbn [imap map length seq]. rewrite H. f_equal.
  rewrite <- seq_shift, map_map.
  apply (IH (fun n => h (S n)) (fun n => f (S n))). intros n x. apply H.
Qed.

Lemma map_imap_elem {A B C : Type} (g : B -> C) (h : A -> C) (l : list A) :
  forall f : nat -> A -> B,
    (forall n a, g (f n a) = h a) -> map g (imap f l) = map h l.
Proof.
  induction l as [|a l IH]; intros f H; [reflexivity|].
  cbn [imap map]. rewrite H. f_equal.
  apply (IH (fun n => f (S n))). intros n x. apply H.
Qed.

(** The tasks that [handleSplit] sets are never an empty list: they carry
    the indices 1, 2, ... in order and the identifiers of the successive
    calls of [genId], each raw text is not empty and trimmed, and the search
    switch is the global one; the last notification then tells their number.
    When no task list is set, the last notification is the error that
    nothing could be split. *)
Theorem handleSplit_numbers_the_new_tasks e i :
  match handleSplit e i with
  | (Some ts, said) =>
      ts <> []
      /\ map TaskInput.index ts = map Z.of_nat (seq 1 (length ts))
      /\ map TaskInput.id ts = map (genId i) (seq 0 (length ts))
      /\ Forall (fun raw => raw <> [] /\ trim raw = raw) (map TaskInput.raw ts)
      /\ Forall (fun t => TaskInput.needsSearch t = globalNeedsSearch i) ts
      /\ last said = Some (splitDoneToast (length ts))
  | (None, said) => last said = Some nothingToSplitToast
  end.
Proof.
  assert (H : forall source said0,
    match
      (let blocks := splitNumberedBlocks source in
       match blocks with
       | [] => (None, said0 ++ [nothingToSplitToast])
       | _ =>
         let tasks := newTasks e i blocks in
         (Some tasks, said0 ++ [splitDoneToast (length tasks)])
       end)
    with
    | (Some ts, said) =>
        ts <> []
        /\ map TaskInput.index ts = map Z.of_nat (seq 1 (length ts))
        /\ map TaskInput.id ts = map (genId i) (seq 0 (length ts))
        /\ Forall (fun raw => raw <> [] /\ trim raw = raw) (map TaskInput.raw ts)
        /\ Forall (fun t => TaskInput.needsSearch t = globalNeedsSearch i) ts
        /\ last said = Some (splitDoneToast (length ts))
    | (None, said) => last said = Some nothingToSplitToast
    end).
  { intros source said. cbv zeta.
    pose proof (LinesFacts.segments_texts source) as Ht.
    destruct (splitNumberedBlocks source) as [|b bs] eqn:E.
    - apply last_snoc.
    - set (blocks := b :: bs) in *.
      assert (Hl : length (newTasks e i blocks) = length blocks).
      { rewrite <- (List.length_map TaskInput.raw).
        unfold newTasks. rewrite (map_imap_elem TaskInput.raw text) by reflexivity.
        apply List.length_map. }
      split. { intros H. rewrite H in Hl. discriminate Hl. }
      split.
      { rewrite Hl. unfold newTasks.
        rewrite (map_imap_index TaskInput.index (fun n => Z.of_nat (n + 1))) by reflexivity.
        rewrite <- seq_shift, map_map. apply map_ext. intros n. f_equal. lia. }
      split.
      { rewrite Hl. unfold newTasks. apply map_imap_index. reflexivity. }
      split.
      { unfold newTasks. rewrite (map_imap_elem TaskInput.raw text) by reflexivity.
        fold blocks in Ht. exact Ht. }
      split; [|apply last_snoc].
      assert (Hn : map TaskInput.needsSearch (newTasks e i blocks)
                   = map (fun _ => globalNeedsSearch i) blocks).
      { unfold newTasks. apply map_imap_elem. reflexivity. }
      apply List.Forall_forall. intros t Hin.
      apply (in_map TaskInput.needsSearch) in Hin. rewrite Hn in Hin.
      apply in_map_iff in Hin as (x & Hx & _). symmetry. exact Hx. }
  unfold handleSplit.
  destruct (autoSplitByAI i); [destruct (aiSplit e i)|]; apply H.
Qed.

(** When the split by the provider is switched on and fails, for want of an
    endpoint or a prompt or because the call is rejected, [handleSplit]
    does what it does with the switch off, on the raw input, after one error
    notification. *)
Theorem failed_ai_split_falls_back_to_the_local_rules e i message :
  autoSplitByAI i = true ->
  aiSplit e i = Throw message ->
  handleSplit e i
  = (fst (handleSplit e (with_autoSplitByAI false i)),
     aiFailedToast message :: snd (handleSplit e (with_autoSplitByAI false i))).
Proof.
  intros Ha Hs. unfold handleSplit. rewrite Ha, Hs.
  cbn [autoSplitByAI with_autoSplitByAI rawInput].
  destruct (splitNumberedBlocks (rawInput i)); reflexivity.
Qed.

Lemma failed_ai_split_falls_back_to_the_local_rules_witness :
  handleSplit (Examples.settings 1) MoreExamples.splitWithoutEndpoint
  = (fst (handleSplit (Examples.settings 1)
            (with_autoSplitByAI false MoreExamples.splitWithoutEndpoint)),
     aiFailedToast (js "未配置拆分 API")
       :: snd (handleSplit (Examples.settings 1)
                 (with_autoSplitByAI false MoreExamples.splitWithoutEndpoint))).
Proof.
  apply (failed_ai_split_falls_back_to_the_local_rules (Examples.settings 1)
           MoreExamples.splitWithoutEndpoint (js "未配置拆分 API")).
  - reflexivity.
  - reflexivity.
Defined.

(** *** The request of the write stage *)

Lemma searchStage_same_calls e net net' task :
  search_call net' = search_call net ->
  searchStage e net' task = searchStage e net task.
Proof. intros H. unfold searchStage. rewrite H. reflexivity. Qed.

Lemma saveToNoteApi_same_calls e net net' sel :
  note_post net' = note_post net -> saveToNoteApi e net' sel = saveToNoteApi e net sel.
Proof. intros H. unfold saveToNoteApi. rewrite H. reflexivity. Qed.

Lemma writeStage_same_calls e net net' wcfg task so wp st :
  resolveWritePrompt e task = Some wp ->
  (forall k, write_call net' (writeRequest e wcfg task wp so) k
             = write_call net (writeRequest e wcfg task wp so) k) ->
  writeStage e net' wcfg task so st = writeStage e net wcfg task so st.
Proof.
  intros Hp H. unfold writeStage. rewrite Hp.
  fold (writeRequest e wcfg task wp so). unfold bind, update.
  destruct (single_version e).
  - rewrite H. reflexivity.
  - rewrite (map_ext (variantPromise net' (writeRequest e wcfg task wp so) task so)
               (variantPromise net (writeRequest e wcfg task wp so) task so)).
    + reflexivity.
    + intros k. unfold variantPromise. rewrite H. reflexivity.
Qed.

Lemma runOne_same_calls e net net' task st wcfg wp so :
  apiProfiles_write e = Some wcfg -> resolveWritePrompt e task = Some wp ->
  search_done e net task so ->
  search_call net' = search_call net -> note_post net' = note_post net ->
  (forall k, write_call net' (writeRequest e wcfg task wp so) k
             = write_call net (writeRequest e wcfg task wp so) k) ->
  runOne e net' task st = runOne e net task st.
Proof.
  intros Hw Hp Hs H1 H2 H3. unfold runOne. rewrite Hw. cbv zeta.
  set (st0 := set_abortMap _ _).
  destruct (searchStage_done e net task so st0 Hs) as (sA & Es & _ & _).
  assert (E : runBody e net' wcfg task st0 = runBody e net wcfg task st0).
  { unfold runBody, bind. rewrite (searchStage_same_calls e net net' task H1), Es.
    rewrite (writeStage_same_calls e net net' wcfg task so wp sA Hp H3).
    destruct (writeStage e net wcfg task so sA) as [[created|m] sB]; [|reflexivity].
    rewrite (saveToNoteApi_same_calls e net net' created H2). reflexivity. }
  rewrite E. reflexivity.
Qed.

Lemma successful_run_results e net task st wcfg wp so (out : nat -> jsstring) :
  apiProfiles_write e = Some wcfg -> search_done e net task so ->
  resolveWritePrompt e task = Some wp ->
  (forall k, 1 <= k <= variant_count e ->
     outcome_of (write_call net (writeRequest e wcfg task wp so) k) = Resolved (out k)) ->
  results (runOne e net task st)
  = if single_version e
    then insertSingle
           (singleResult task so (out 1)
              (settled_at (write_call net (writeRequest e wcfg task wp so) 1)))
           (results st)
    else replaceVariants (TaskInput.id task)
           (map (fun k => variantResult task so k (out k)
                   (settled_at (write_call net (writeRequest e wcfg task wp so) k)))
              (seq 1 (variant_count e)))
           (results st).
Proof.
  intros Hw Hs Hp Ho.
  set (st0 := set_abortMap (insert (TaskInput.id task) {| aborted := false |})
                (set_runningIds (fun _ => seen_runningIds e ∪ {[TaskInput.id task]}) st)).
  destruct (searchStage_done e net task so st0 Hs) as (sA & Es & Hr1 & _).
  pose proof (variant_count_bounds e) as Hb.
  destruct (single_version e) eqn:Ec.
  - destruct (writeStage_single e net wcfg task so wp (out 1) sA Hp Ec (Ho 1 ltac:(lia)))
      as (sB & Ew & Hr2 & _).
    destruct (runBody_normal e net wcfg task so _ st0 sA sB Es Ew) as (sC & Eb & Hr3 & _).
    rewrite (runOne_of_body e net task st wcfg tt sC Hw Eb).
    rewrite cleanup_results, Hr3, Hr2, Hr1. reflexivity.
  - destruct (writeStage_variants e net wcfg task so wp out sA Hp Ec Ho)
      as (sB & created & Ew & Hr2 & _).
    destruct (runBody_normal e net wcfg task so _ st0 sA sB Es Ew) as (sC & Eb & Hr3 & _).
    rewrite (runOne_of_body e net task st wcfg tt sC Hw Eb).
    rewrite cleanup_results, Hr3, Hr2, Hr1. reflexivity.
Qed.

(** C4: when a run reaches the write stage (the write endpoint and the write
    prompt are there, and the search stage, if asked for, has resolved), the
    request of the write stage has two messages, the system prompt and one
    user message, which is the effective prior-stage input (the sanitized
    search output when the item asks for the search, its raw text
    otherwise), then two line feeds, the per-item heading, a line feed and
    the per-item guidance when that guidance is not blank, then two line
    feeds, the batch heading, a line feed and the batch guidance when the
    batch guidance is not blank and the per-item guidance is blank or
    absent; when both are not blank, only the per-item block follows the
    input.  This request is the one the run sends: the run depends on the
    write calls through their answers to this request only, and when the
    calls of this request succeed, their sanitized answers are the outputs
    of the new results. *)
Theorem write_prompt_composition e net task st wcfg wp input :
  apiProfiles_write e = Some wcfg ->
  resolveWritePrompt e task = Some wp ->
  (if TaskInput.needsSearch task
   then exists scfg sp content,
       apiProfiles_search e = Some scfg /\ selectedSearchPrompt e = Some sp
       /\ outcome_of
            (search_call net
               {| config := scfg;
                  messages :=
                    [ {| msg_role := system; msg_content := PromptItem.content sp |};
                      {| msg_role := user; msg_content := TaskInput.raw task |} ] |})
          = Resolved content
       /\ input = stripThinking content
   else input = TaskInput.raw task) ->
  let item := match TaskInput.guidance task with Some g => g | None => [] end in
  let blank := fun g : jsstring => match trim g with [] => true | _ :: _ => false end in
  let text :=
    input
    ++ (if blank item then [] else [LF; LF] ++ js "[指导重点]" ++ [LF] ++ item)
    ++ (if negb (blank (globalGuidance e)) && blank item
        then [LF; LF] ++ js "[批量指导]" ++ [LF] ++ globalGuidance e else []) in
  let req :=
    {| config := wcfg;
       messages := [ {| msg_role := system; msg_content := PromptItem.content wp |};
                     {| msg_role := user; msg_content := text |} ] |} in
  let so := if TaskInput.needsSearch task then Some input else None in
  writeMessages e task wp so = messages req
  /\ (forall net',
        search_call net' = search_call net -> note_post net' = note_post net ->
        (forall k, write_call net' req k = write_call net req k) ->
        runOne e net' task st = runOne e net task st)
  /\ (forall out : nat -> jsstring,
        (forall k, 1 <= k <= variant_count e ->
           outcome_of (write_call net req k) = Resolved (out k)) ->
        results (runOne e net task st)
        = if single_version e
          then insertSingle
                 {| TaskResult.id := TaskInput.id task;
                    TaskResult.index := TaskInput.index task;
                    TaskResult.raw := TaskInput.raw task;
                    TaskResult.searchOutput := so;
                    TaskResult.writeOutput := Some (stripThinking (out 1));
                    TaskResult.createdAt := settled_at (write_call net req 1);
                    TaskResult.parentId := None;
                    TaskResult.variantNo := None |}
                 (results st)
          else replaceVariants (TaskInput.id task)
                 (map (fun k =>
                         {| TaskResult.id := TaskInput.id task ++ ch "-" :: string_of_nat k;
                            TaskResult.index := TaskInput.index task;
                            TaskResult.raw := TaskInput.raw task;
                            TaskResult.searchOutput := so;
                            TaskResult.writeOutput := Some (stripThinking (out k));
                            TaskResult.createdAt := settled_at (write_call net req k);
                            TaskResult.parentId := Some (TaskInput.id task);
                            TaskResult.variantNo := Some k |})
                    (seq 1 (variant_count e)))
                 (results st)).
Proof.
  intros Hw Hp Hi item blank text req so.
  assert (Hs : search_done e net task so).
  { subst so. destruct (TaskInput.needsSearch task) eqn:En.
    - destruct Hi as (scfg & sp & content & H1 & H2 & H3 & ->).
      eapply search_resolved; eassumption.
    - apply search_skipped, En. }
  assert (Hm : writeRequest e wcfg task wp so = req).
  { unfold writeRequest, req, writeMessages. do 3 f_equal.
    unfold composeUser, text, userContent, so, nonblank, itemGuidanceBlock,
      batchGuidanceBlock, or_empty, blank, item.
    assert (Hin : (if TaskInput.needsSearch task
                   then match (if TaskInput.needsSearch task then Some input else None)
                        with Some g => g | None => [] end
                   else TaskInput.raw task) = input).
    { destruct (TaskInput.needsSearch task); [reflexivity|symmetry; exact Hi]. }
    rewrite Hin.
    destruct (TaskInput.guidance task) as [g|];
      [destruct (trim g)|]; destruct (trim (globalGuidance e)); reflexivity. }
  split; [|split].
  - rewrite <- Hm. reflexivity.
  - intros net' H1 H2 H3. rewrite <- Hm in H3.
    exact (runOne_same_calls e net net' task st wcfg wp so Hw Hp Hs H1 H2 H3).
  - intros out Ho. rewrite <- Hm in Ho |- *.
    exact (successful_run_results e net task st wcfg wp so out Hw Hs Hp Ho).
Qed.

Lemma write_prompt_composition_witness :
  writeMessages MoreExamples.guidedSettings MoreExamples.guidedTask Examples.writePrompt None
  = [ {| msg_role := system; msg_content := js "write" |};
      {| msg_role := user;
         msg_content := js "hello" ++ [LF; LF] ++ js "[指导重点]" ++ [LF] ++ js "warm tone" |} ]
  /\ (forall net',
        search_call net' = search_call Examples.healthyNet ->
        note_post net' = note_post Examples.healthyNet ->
        (forall k,
           write_call net'
             {| config := Examples.writeConfig;
                messages :=
                  [ {| msg_role := system; msg_content := js "write" |};
                    {| msg_role := user;
                       msg_content := js "hello" ++ [LF; LF] ++ js "[指导重点]" ++ [LF]
                                      ++ js "warm tone" |} ] |} k
           = write_call Examples.healthyNet
               {| config := Examples.writeConfig;
                  messages :=
                    [ {| msg_role := system; msg_content := js "write" |};
                      {| msg_role := user;
                         msg_content := js "hello" ++ [LF; LF] ++ js "[指导重点]" ++ [LF]
                                        ++ js "warm tone" |} ] |} k) ->
        runOne MoreExamples.guidedSettings net' MoreExamples.guidedTask (Examples.stateWith [])
        = runOne MoreExamples.guidedSettings Examples.healthyNet MoreExamples.guidedTask
            (Examples.stateWith []))
  /\ results (runOne MoreExamples.guidedSettings Examples.healthyNet MoreExamples.guidedTask
                (Examples.stateWith []))
     = [ {| TaskResult.id := js "g"; TaskResult.index := 3; TaskResult.raw := js "hello";
            TaskResult.searchOutput := None; TaskResult.writeOutput := Some (js "out");
            TaskResult.createdAt := 11; TaskResult.parentId := None;
            TaskResult.variantNo := None |} ].
Proof.
  pose proof (write_prompt_composition MoreExamples.guidedSettings Examples.healthyNet
                MoreExamples.guidedTask (Examples.stateWith []) Examples.writeConfig
                Examples.writePrompt (js "hello") eq_refl eq_refl eq_refl) as (H1 & H2 & H3).
  split; [exact H1|]. split; [exact H2|].
  rewrite (H3 (fun _ => js "out")) by (intros k _; reflexivity).
  vm_compute. reflexivity.
Defined.

End RunsFacts.
